(** * RandomFileOpener: a shallow embedding of [random_file_opener.py]

    The development follows the Python module class by class:
    [AtomicCounter], [SimpleLRUCache], [FileDescriptorTracker], [Config]
    and the methods of [RandomFileOpener] that make up the selection core
    ([should_exclude], [get_file_hash], [scan_qualified_files],
    [load_history], [save_history], [get_available_files],
    [reset_history_if_needed], [run]).  The reports of the two helper
    classes ([stats], [get_stats]), the parts of [__init__] that build the
    caches and the exclusion patterns, and the two parts of [main] that
    act on the history ([--reset-history] and the batch of runs) follow.

    Modelling conventions.
    - Python [str] values are [string]s (sequences of bytes); [str.lower]
      acts on the ASCII letters.
    - Python [int]s are [Z]; [time.time()] and [st_mtime] are exact
      rationals ([Qc]), so the rounding of floats is not modelled.
    - An [OrderedDict] is an association list in iteration order, oldest
      entry first, with pairwise distinct keys.
    - Methods run in the monad [M]: they thread the [World] (the engine
      instance together with the file system and the other collaborators it
      talks to) and either return a value or raise.  [try]/[except] is
      [try_except]; [try]/[finally] is [try_finally].
    - Locks are not modelled: the methods are embedded as the sequential
      code run by one caller.  Calls to the logger are left out, the logger
      being an output-only collaborator.
    - [hashlib.sha256] is SHA-256 (FIPS 180-4), written out on 32-bit words;
      [fnmatch.fnmatch] is a parameter of the development. *)

From Stdlib Require Import Strings.Byte Ascii String QArith Qcanon.
From stdpp Require Import gmap strings list fin_maps numbers pretty sorting.

Set Default Proof Using "Type".

(* ===================================================================== *)
(** * Python strings *)
(* ===================================================================== *)

Module PyStr.

(** [s.startswith(p)] *)
Definition startswith (s p : string) : bool := String.prefix p s.

(** [s[n:]] for [0 <= n] *)
Fixpoint drop_chars (n : nat) (s : string) : string :=
  match n, s with
  | O, _ => s
  | S _, EmptyString => EmptyString
  | S n', String _ r => drop_chars n' r
  end.

(** [s.endswith(p)] *)
Definition endswith (s p : string) : bool :=
  let ls := String.length s in
  let lp := String.length p in
  (lp <=? ls)%nat && String.eqb (drop_chars (ls - lp) s) p.

(** [p in s]: [p] occurs in [s] as a contiguous substring *)
Fixpoint contains (s p : string) : bool :=
  String.prefix p s ||
  match s with
  | EmptyString => false
  | String _ r => contains r p
  end.

(** [c in s] for a single character [c] *)
Fixpoint has_char (c : ascii) (s : string) : bool :=
  match s with
  | EmptyString => false
  | String a r => Ascii.eqb a c || has_char c r
  end.

Definition lower_ascii (c : ascii) : ascii :=
  let n := nat_of_ascii c in
  if (65 <=? n)%nat && (n <=? 90)%nat then ascii_of_nat (n + 32) else c.

(** [s.lower()] *)
Fixpoint lower (s : string) : string :=
  match s with
  | EmptyString => EmptyString
  | String a r => String (lower_ascii a) (lower r)
  end.

(** truthiness of a string: [if s:] *)
Definition truthy (s : string) : bool := negb (String.eqb s "").

End PyStr.

(* ===================================================================== *)
(** * AtomicCounter *)
(* ===================================================================== *)

Record AtomicCounter := mkCounter { _value : Z }.

Module Counter.
Definition increment (amount : Z) (c : AtomicCounter) : Z * AtomicCounter :=
  let v := (_value c + amount)%Z in (v, mkCounter v).
Definition decrement (amount : Z) (c : AtomicCounter) : Z * AtomicCounter :=
  let v := (_value c - amount)%Z in (v, mkCounter v).
Definition get (c : AtomicCounter) : Z := _value c.
Definition set (value : Z) (_ : AtomicCounter) : AtomicCounter := mkCounter value.
Definition reset (c : AtomicCounter) : Z * AtomicCounter := (_value c, mkCounter 0).
(** [c.increment()] used as a statement *)
Definition incr (c : AtomicCounter) : AtomicCounter := (increment 1 c).2.
End Counter.

(* ===================================================================== *)
(** * OrderedDict and SimpleLRUCache *)
(* ===================================================================== *)

Section OrderedDict.
Context {K V : Type} `{EqDecision K}.

Definition odict := list (K * V).

(** [key in d] *)
Definition od_contains (key : K) (d : odict) : bool :=
  bool_decide (key ∈ d.*1).

(** [d[key]], [None] standing for [KeyError] *)
Fixpoint od_getitem (key : K) (d : odict) : option V :=
  match d with
  | [] => None
  | (k, v) :: r => if decide (k = key) then Some v else od_getitem key r
  end.

(** [del d[key]] *)
Fixpoint od_delitem (key : K) (d : odict) : odict :=
  match d with
  | [] => []
  | (k, v) :: r => if decide (k = key) then r else (k, v) :: od_delitem key r
  end.

(** [d.move_to_end(key)]; the callers test [key in d] first, a missing
    key (a [KeyError] in Python) leaves the dictionary as it is. *)
Definition od_move_to_end (key : K) (d : odict) : odict :=
  match od_getitem key d with
  | Some v => od_delitem key d ++ [(key, v)]
  | None => d
  end.

(** [d.popitem(last=False)]: drops the oldest entry.  The caller only
    reaches it with [len(d) >= max_size > 0], so [d] is not empty. *)
Definition od_popitem_first (d : odict) : odict := tail d.

(** [d[key] = value]: a present key keeps its position, a new key is
    appended. *)
Fixpoint od_setitem (key : K) (value : V) (d : odict) : odict :=
  match d with
  | [] => [(key, value)]
  | (k, v) :: r =>
      if decide (k = key) then (k, value) :: r
      else (k, v) :: od_setitem key value r
  end.

Definition od_keys (d : odict) : list K := d.*1.

End OrderedDict.

Record SimpleLRUCache (K V : Type) := mkLRU {
  max_size : Z;
  _cache : list (K * V);
  _hits : AtomicCounter;
  _misses : AtomicCounter
}.
Arguments mkLRU {K V}.
Arguments max_size {K V}.
Arguments _cache {K V}.
Arguments _hits {K V}.
Arguments _misses {K V}.

Module LRU.
Section Operations.
Context {K V : Type} `{EqDecision K}.
Local Abbreviation cache := (SimpleLRUCache K V).

(** [SimpleLRUCache(max_size)]: [None] is the [ValueError] of the
    constructor. *)
Definition init (max_size : Z) : option cache :=
  if (max_size <=? 0)%Z then None
  else Some (mkLRU max_size [] (mkCounter 0) (mkCounter 0)).

Definition get (key : K) (c : cache) : option V * cache :=
  if od_contains key (_cache c) then
    let d := od_move_to_end key (_cache c) in
    (od_getitem key d,
     mkLRU (max_size c) d (Counter.incr (_hits c)) (_misses c))
  else
    (None, mkLRU (max_size c) (_cache c) (_hits c) (Counter.incr (_misses c))).

Definition put (key : K) (value : V) (c : cache) : cache :=
  let d :=
    if od_contains key (_cache c) then od_move_to_end key (_cache c)
    else if (max_size c <=? Z.of_nat (length (_cache c)))%Z
         then od_popitem_first (_cache c)
         else _cache c in
  mkLRU (max_size c) (od_setitem key value d) (_hits c) (_misses c).

Definition remove (key : K) (c : cache) : bool * cache :=
  if od_contains key (_cache c) then
    (true, mkLRU (max_size c) (od_delitem key (_cache c)) (_hits c) (_misses c))
  else (false, c).

Definition clear (c : cache) : cache :=
  mkLRU (max_size c) [] (Counter.set 0 (_hits c)) (Counter.set 0 (_misses c)).

Definition size (c : cache) : Z := Z.of_nat (length (_cache c)).

Definition keys (c : cache) : list K := od_keys (_cache c).

(** A client's calls on one cache. *)
Inductive op := Get (key : K) | Put (key : K) (value : V) | Remove (key : K) | Clear.

Definition step (o : op) (c : cache) : cache :=
  match o with
  | Get key => (get key c).2
  | Put key value => put key value c
  | Remove key => (remove key c).2
  | Clear => clear c
  end.

(** the calls of [ops], first to last *)
Definition run (ops : list op) (c : cache) : cache :=
  foldl (fun c o => step o c) c ops.

(** the call [o], made on [c], uses [key]: a [get] that hits, or a [put] *)
Definition uses (o : op) (c : cache) (key : K) : bool :=
  match o with
  | Get k => bool_decide (k = key) && od_contains k (_cache c)
  | Put k _ => bool_decide (k = key)
  | Remove _ | Clear => false
  end.

(** [last_use ops c t key]: running [ops] from [c], the calls being
    numbered from [t], the number of the last call that used [key]. *)
Fixpoint last_use (ops : list op) (c : cache) (t : nat) (key : K) : option nat :=
  match ops with
  | [] => None
  | o :: r =>
      match last_use r (step o c) (S t) key with
      | Some u => Some u
      | None => if uses o c key then Some t else None
      end
  end.

(** [put key value] on [c] evicts [e]: [e] was cached and is not any more. *)
Definition evicts (key : K) (value : V) (c : cache) (e : K) : Prop :=
  e ∈ keys c ∧ e ∉ keys (put key value c).

(** [k1] was last used strictly before [k2], [lu] giving the last uses *)
Definition older (lu : K -> option nat) (k1 k2 : K) : Prop :=
  ∃ t1 t2, lu k1 = Some t1 ∧ lu k2 = Some t2 ∧ t1 < t2.

End Operations.
End LRU.

(* ===================================================================== *)
(** * hashlib.sha256 *)
(* ===================================================================== *)

Module Sha256.
Local Open Scope Z_scope.

Definition wrap32 (x : Z) : Z := x mod 2 ^ 32.
Definition add32 (x y : Z) : Z := wrap32 (x + y).
Definition rotr (n x : Z) : Z :=
  Z.lor (Z.shiftr x n) (wrap32 (Z.shiftl x (32 - n))).
Definition shr (n x : Z) : Z := Z.shiftr x n.
Definition not32 (x : Z) : Z := Z.lxor x 0xffffffff.

Definition Ch (x y z : Z) : Z := Z.lxor (Z.land x y) (Z.land (not32 x) z).
Definition Maj (x y z : Z) : Z :=
  Z.lxor (Z.lxor (Z.land x y) (Z.land x z)) (Z.land y z).
Definition bsig0 (x : Z) : Z := Z.lxor (Z.lxor (rotr 2 x) (rotr 13 x)) (rotr 22 x).
Definition bsig1 (x : Z) : Z := Z.lxor (Z.lxor (rotr 6 x) (rotr 11 x)) (rotr 25 x).
Definition ssig0 (x : Z) : Z := Z.lxor (Z.lxor (rotr 7 x) (rotr 18 x)) (shr 3 x).
Definition ssig1 (x : Z) : Z := Z.lxor (Z.lxor (rotr 17 x) (rotr 19 x)) (shr 10 x).

(** The constants of FIPS 180-4, from their definition: the first 32
  bits of the fractional parts of the cube roots of the first 64 primes
  (round constants) and of the square roots of the first 8 primes
  (initial hash value). *)
Definition is_prime (n : nat) : bool :=
forallb (fun d => negb (n mod d =? 0)%nat) (seq 2 (n - 2)).

Definition primes_below (bound : nat) : list Z :=
Z.of_nat <$> filter (fun n => is_prime n = true) (seq 2 (bound - 2)).

(** the integer cube root of [n < 2 ^ 108], bit by bit *)
Definition icbrt (n : Z) : Z :=
foldl (fun r b => let c := r + 2 ^ Z.of_nat b in
                  if c * c * c <=? n then c else r)
      0 (reverse (seq 0 36)).

Definition K256 : list Z :=
Eval vm_compute in
  (fun p => wrap32 (icbrt (p * 2 ^ 96))) <$> primes_below 312.

Definition H256 : list Z :=
Eval vm_compute in
  (fun p => wrap32 (Z.sqrt (p * 2 ^ 64))) <$> primes_below 20.

(** the [n] low bytes of [x], most significant first *)
Fixpoint be_bytes (n : nat) (x : Z) : list Z :=
  match n with
  | O => []
  | S n' => Z.land (Z.shiftr x (8 * Z.of_nat n')) 0xff :: be_bytes n' x
  end.

(** the message, a [1] bit, zeros up to 56 modulo 64 bytes, and the
    length in bits on 64 bits *)
Definition pad (msg : list Z) : list Z :=
  let l := Z.of_nat (length msg) in
  msg ++ [0x80] ++ replicate (Z.to_nat ((55 - l) mod 64)) 0 ++ be_bytes 8 (8 * l).

Fixpoint be_words (fuel : nat) (bs : list Z) : list Z :=
  match fuel, bs with
  | S f, b0 :: b1 :: b2 :: b3 :: r =>
      (Z.shiftl b0 24 + Z.shiftl b1 16 + Z.shiftl b2 8 + b3) :: be_words f r
  | _, _ => []
  end.

Definition schedule (block : list Z) : list Z :=
  foldl (fun w t =>
           w ++ [add32 (add32 (ssig1 (nth (t - 2) w 0)) (nth (t - 7) w 0))
                       (add32 (ssig0 (nth (t - 15) w 0)) (nth (t - 16) w 0))])
        (be_words 16 block) (seq 16 48).

Record regs := mkRegs { ra : Z; rb : Z; rc : Z; rd : Z; re : Z; rf : Z; rg : Z; rh : Z }.

Definition round (s : regs) (kw : Z * Z) : regs :=
  let t1 := add32 (add32 (add32 (rh s) (bsig1 (re s)))
                         (add32 (Ch (re s) (rf s) (rg s)) kw.1)) kw.2 in
  let t2 := add32 (bsig0 (ra s)) (Maj (ra s) (rb s) (rc s)) in
  mkRegs (add32 t1 t2) (ra s) (rb s) (rc s) (add32 (rd s) t1) (re s) (rf s) (rg s).

Definition compress (h : regs) (block : list Z) : regs :=
  let s := foldl round h (zip K256 (schedule block)) in
  mkRegs (add32 (ra h) (ra s)) (add32 (rb h) (rb s)) (add32 (rc h) (rc s))
         (add32 (rd h) (rd s)) (add32 (re h) (re s)) (add32 (rf h) (rf s))
         (add32 (rg h) (rg s)) (add32 (rh h) (rh s)).

Fixpoint blocks (fuel : nat) (bs : list Z) : list (list Z) :=
  match fuel, bs with
  | S f, _ :: _ => take 64 bs :: blocks f (drop 64 bs)
  | _, _ => []
  end.

Definition init_regs : regs :=
  mkRegs (nth 0 H256 0) (nth 1 H256 0) (nth 2 H256 0) (nth 3 H256 0)
         (nth 4 H256 0) (nth 5 H256 0) (nth 6 H256 0) (nth 7 H256 0).

Definition digest_words (msg : list Z) : list Z :=
  let p := pad msg in
  let s := foldl compress init_regs (blocks (length p) p) in
  [ra s; rb s; rc s; rd s; re s; rf s; rg s; rh s].

Definition hex_digit (d : Z) : ascii :=
  ascii_of_nat (Z.to_nat (if d <? 10 then 48 + d else 87 + d)).

Definition hex_byte (b : Z) : string :=
  String (hex_digit (Z.shiftr b 4)) (String (hex_digit (Z.land b 0xf)) EmptyString).

Definition hex_word (w : Z) : string :=
  foldr (fun b s => hex_byte b +:+ s) EmptyString (be_bytes 4 w).

(** [hashlib.sha256(msg).hexdigest()] *)
Definition hexdigest (msg : list byte) : string :=
  foldr (fun w s => hex_word w +:+ s) EmptyString
        (digest_words ((fun b => Z.of_N (Byte.to_N b)) <$> msg)).

End Sha256.

(** A [hashlib.sha256()] object: the bytes fed to it so far. *)
Definition hasher := list byte.
Definition hash_update (h : hasher) (chunk : list byte) : hasher := h ++ chunk.
Definition hash_hexdigest (h : hasher) : string := Sha256.hexdigest h.

(* ===================================================================== *)
(** * Configuration, history records and the world *)
(* ===================================================================== *)

(** The fields of [Config] that the selection core reads, as the
    constructors leave them: [__post_init__] has put the extensions in
    lower case, and [RandomFileOpener.__init__] has appended the names of
    its own files to [exclude_patterns]. *)
Record Config := mkConfig {
  history_filename : string;
  max_retries : nat;
  cache_ttl : Z;
  max_file_size_for_full_hash : Z;
  hash_cache_size : Z;
  pattern_cache_size : Z;
  encoding_cache_size : Z;
  file_type_cache_size : Z;
  exclude_patterns : list string;
  system_executable_extensions : list string;
  exclude_symlinks : bool
}.

(** A value that is [None] or a [str] (the time stamps of the statistics). *)
Inductive optstr := PyNone | PyStr (s : string).

(** The [statistics] dictionary of a history record.  A field is [None]
    when the dictionary has no such key. *)
Record Statistics := mkStats {
  total_opened : option Z;
  total_failed : option Z;
  last_reset : option optstr;
  reset_count : option Z;
  last_opened : option optstr;
  last_opened_file : option optstr;
  cleaned_opened : option Z;
  cleaned_failed : option Z;
  total_resets : option Z
}.

(** A history record: the dictionary that [load_history] returns and
    [save_history] writes.  A field is [None] when the key is missing. *)
Record History := mkHistory {
  opened_files : option (list string);
  failed_files : option (list string);
  file_signatures : option (gmap string string);
  statistics : option Statistics
}.

Record FileDescriptorTracker := mkTracker {
  _count : Z;
  _max_count : Z;
  _opened_count : AtomicCounter;
  _closed_count : AtomicCounter
}.

(** The outcome of a call: a value or an exception (its text). *)
Inductive result (A : Type) := Ok (a : A) | Raise (e : string).
Arguments Ok {A}.
Arguments Raise {A}.

(** What the file system knows of one path.  The queries of [pathlib]
    answer or raise [OSError]. *)
Record FileNode := mkNode {
  nd_exists : result bool;          (* Path.exists() *)
  nd_is_file : result bool;         (* Path.is_file() *)
  nd_readable : bool;               (* os.access(path, os.R_OK) *)
  nd_is_symlink : result bool;      (* Path.is_symlink() *)
  nd_stat : result (Z * Qc);        (* Path.stat(): st_size, st_mtime *)
  nd_open : option string;          (* the error of open(path, 'rb'), if any *)
  nd_data : list byte;              (* the content *)
  nd_read_fault : option nat        (* the read() call on a handle that raises *)
}.

(** A path nothing is known of does not exist. *)
Definition absent_node : FileNode :=
  mkNode (Ok false) (Ok false) false (Ok false)
         (Raise "FileNotFoundError") (Some "FileNotFoundError") [] None.

(** An entry of [os.scandir]. *)
Record DirEntry := mkEntry {
  de_name : string;
  de_is_file : result bool          (* entry.is_file() *)
}.

(** The history file as it is on disk. *)
Inductive DiskFile :=
  | NoFile                          (* the file does not exist *)
  | Unreadable (e : string)         (* open() or json.load() raises *)
  | JsonOther                       (* a JSON value that is not an object *)
  | JsonDict (h : History).

Record FsCall := mkCall { call_name : string; call_path : string }.

Record FileSystem := mkFs {
  dir_access : bool;                        (* os.access(script_dir, os.R_OK) *)
  dir_exists : result bool;                 (* script_dir.exists() *)
  dir_scandir : result (list DirEntry);     (* os.scandir(script_dir) *)
  nodes : gmap string FileNode;
  history_disk : DiskFile;
  temp_disk : gset string;                  (* temporary files on disk *)
  fault_mkdir : option string;              (* errors of the steps of a save *)
  fault_create : option string;
  fault_write : option string;
  fault_replace : option string;
  fault_remove : option string;
  fs_trace : list FsCall                    (* the calls made, latest first *)
}.

(** The collaborators outside the file system. *)
Record Env := mkEnv {
  clock : nat -> Qc;                        (* time.time(), by reading *)
  now_iso : nat -> string;                  (* datetime.now().isoformat(), by reading *)
  clock_reads : nat;                        (* the readings of the clock so far *)
  pid : Z;                                  (* os.getpid() *)
  os_sep : string;
  random_index : nat;                       (* the draw of random.choice *)
  launch : string -> nat -> result bool     (* _open_file_<platform>, per attempt *)
}.

(** The key of the hash cache, [f"{path}_{size}_{mtime}"].  The size is
    written in digits and the time as a float, so the string determines
    its three parts; the key is modelled by the three parts. *)
Definition HashKey : Type := string * Z * Qc.

Record Caches := mkCaches {
  _file_hash_cache : SimpleLRUCache HashKey string;
  _exclude_patterns_cache : SimpleLRUCache string string;
  _encoding_cache : SimpleLRUCache string string;
  _file_access_cache : SimpleLRUCache string string;
  _file_type_cache : SimpleLRUCache string string
}.

(** The attributes of a [RandomFileOpener]. *)
Record Engine := mkEngine {
  config : Config;
  script_dir : string;
  history_file : string;
  fd_tracker : FileDescriptorTracker;
  _temp_files : gset string;
  total_files_scanned : AtomicCounter;
  total_files_excluded : AtomicCounter;
  _qualified_files_cache : option (list string);
  _cache_timestamp : Qc;
  hash_calculations : AtomicCounter;        (* performance_stats["hash_calculations"] *)
  caches : Caches
}.

Record World := mkWorld { eng : Engine; fs : FileSystem; env : Env }.

(** ** Field updates *)

Definition set_fd_tracker (t : FileDescriptorTracker) (e : Engine) : Engine :=
  mkEngine (config e) (script_dir e) (history_file e) t (_temp_files e)
    (total_files_scanned e) (total_files_excluded e) (_qualified_files_cache e)
    (_cache_timestamp e) (hash_calculations e) (caches e).
Definition set_temp_files (s : gset string) (e : Engine) : Engine :=
  mkEngine (config e) (script_dir e) (history_file e) (fd_tracker e) s
    (total_files_scanned e) (total_files_excluded e) (_qualified_files_cache e)
    (_cache_timestamp e) (hash_calculations e) (caches e).
Definition set_total_files_scanned (c : AtomicCounter) (e : Engine) : Engine :=
  mkEngine (config e) (script_dir e) (history_file e) (fd_tracker e) (_temp_files e)
    c (total_files_excluded e) (_qualified_files_cache e)
    (_cache_timestamp e) (hash_calculations e) (caches e).
Definition set_total_files_excluded (c : AtomicCounter) (e : Engine) : Engine :=
  mkEngine (config e) (script_dir e) (history_file e) (fd_tracker e) (_temp_files e)
    (total_files_scanned e) c (_qualified_files_cache e)
    (_cache_timestamp e) (hash_calculations e) (caches e).
Definition set_qualified_files_cache (q : option (list string)) (e : Engine) : Engine :=
  mkEngine (config e) (script_dir e) (history_file e) (fd_tracker e) (_temp_files e)
    (total_files_scanned e) (total_files_excluded e) q
    (_cache_timestamp e) (hash_calculations e) (caches e).
Definition set_cache_timestamp (t : Qc) (e : Engine) : Engine :=
  mkEngine (config e) (script_dir e) (history_file e) (fd_tracker e) (_temp_files e)
    (total_files_scanned e) (total_files_excluded e) (_qualified_files_cache e)
    t (hash_calculations e) (caches e).
Definition set_hash_calculations (c : AtomicCounter) (e : Engine) : Engine :=
  mkEngine (config e) (script_dir e) (history_file e) (fd_tracker e) (_temp_files e)
    (total_files_scanned e) (total_files_excluded e) (_qualified_files_cache e)
    (_cache_timestamp e) c (caches e).
Definition set_caches (c : Caches) (e : Engine) : Engine :=
  mkEngine (config e) (script_dir e) (history_file e) (fd_tracker e) (_temp_files e)
    (total_files_scanned e) (total_files_excluded e) (_qualified_files_cache e)
    (_cache_timestamp e) (hash_calculations e) c.
Definition set_file_hash_cache (c : SimpleLRUCache HashKey string) (cs : Caches) : Caches :=
  mkCaches c (_exclude_patterns_cache cs) (_encoding_cache cs)
           (_file_access_cache cs) (_file_type_cache cs).

Definition set_history_disk (d : DiskFile) (f : FileSystem) : FileSystem :=
  mkFs (dir_access f) (dir_exists f) (dir_scandir f) (nodes f) d (temp_disk f)
       (fault_mkdir f) (fault_create f) (fault_write f) (fault_replace f) (fault_remove f) (fs_trace f).
Definition set_temp_disk (s : gset string) (f : FileSystem) : FileSystem :=
  mkFs (dir_access f) (dir_exists f) (dir_scandir f) (nodes f) (history_disk f) s
       (fault_mkdir f) (fault_create f) (fault_write f) (fault_replace f) (fault_remove f) (fs_trace f).
Definition set_fs_trace (t : list FsCall) (f : FileSystem) : FileSystem :=
  mkFs (dir_access f) (dir_exists f) (dir_scandir f) (nodes f) (history_disk f)
       (temp_disk f) (fault_mkdir f) (fault_create f) (fault_write f) (fault_replace f)
       (fault_remove f) t.
Definition set_nodes (n : gmap string FileNode) (f : FileSystem) : FileSystem :=
  mkFs (dir_access f) (dir_exists f) (dir_scandir f) n (history_disk f)
       (temp_disk f) (fault_mkdir f) (fault_create f) (fault_write f) (fault_replace f)
       (fault_remove f) (fs_trace f).

Definition with_eng (f : Engine -> Engine) (w : World) : World :=
  mkWorld (f (eng w)) (fs w) (env w).
Definition with_fs (f : FileSystem -> FileSystem) (w : World) : World :=
  mkWorld (eng w) (f (fs w)) (env w).
Definition tick (w : World) : World :=
  let v := env w in
  mkWorld (eng w) (fs w)
          (mkEnv (clock v) (now_iso v) (S (clock_reads v)) (pid v) (os_sep v)
                 (random_index v) (launch v)).

(* ===================================================================== *)
(** * The monad of methods *)
(* ===================================================================== *)

Definition M (A : Type) : Type := World -> result A * World.

Definition ret {A} (a : A) : M A := fun w => (Ok a, w).
Definition raise {A} (e : string) : M A := fun w => (Raise e, w).
Definition bind {A B} (m : M A) (k : A -> M B) : M B :=
  fun w => match m w with
           | (Ok a, w') => k a w'
           | (Raise e, w') => (Raise e, w')
           end.
(** [try: m except Exception as e: h e] *)
Definition try_except {A} (m : M A) (h : string -> M A) : M A :=
  fun w => match m w with
           | (Ok a, w') => (Ok a, w')
           | (Raise e, w') => h e w'
           end.
(** [try: m finally: f]; an exception of [f] replaces the outcome of [m] *)
Definition try_finally {A} (m : M A) (f : M unit) : M A :=
  fun w => match m w with
           | (r, w') => match f w' with
                        | (Ok _, w'') => (r, w'')
                        | (Raise e, w'') => (Raise e, w'')
                        end
           end.
Definition gets {A} (f : World -> A) : M A := fun w => (Ok (f w), w).
Definition modify (f : World -> World) : M unit := fun w => (Ok tt, f w).
(** a [result] taken as the outcome of a call *)
Definition lift {A} (r : result A) : M A := fun w => (r, w).

Declare Scope py_scope.
Delimit Scope py_scope with py.
Notation "x <- c1 ;; c2" := (bind c1 (fun x => c2))
  (at level 100, c1 at next level, right associativity) : py_scope.
Notation "c1 ;; c2" := (bind c1 (fun _ => c2))
  (at level 100, right associativity) : py_scope.
Open Scope py_scope.

(** ** Calls on the file system *)

Definition fs_call (name path : string) : M unit :=
  modify (with_fs (fun f => set_fs_trace (mkCall name path :: fs_trace f) f)).

Definition node_at (w : World) (path : string) : FileNode :=
  default absent_node (nodes (fs w) !! path).

Definition path_exists (path : string) : M bool :=
  fs_call "exists" path ;; w <- gets id ;; lift (nd_exists (node_at w path)).
Definition path_is_file (path : string) : M bool :=
  fs_call "is_file" path ;; w <- gets id ;; lift (nd_is_file (node_at w path)).
Definition os_access (path : string) : M bool :=
  fs_call "access" path ;; w <- gets id ;; ret (nd_readable (node_at w path)).
Definition path_is_symlink (path : string) : M bool :=
  fs_call "is_symlink" path ;; w <- gets id ;; lift (nd_is_symlink (node_at w path)).
Definition path_stat (path : string) : M (Z * Qc) :=
  fs_call "stat" path ;; w <- gets id ;; lift (nd_stat (node_at w path)).

(** An open file: [open(path, 'rb')]. *)
Record FileHandle := mkHandle {
  fh_data : list byte;
  fh_pos : nat;
  fh_reads : nat;                   (* read() calls made so far *)
  fh_fault : option nat
}.

Definition open_rb (path : string) : M FileHandle :=
  fs_call "open" path ;;
  w <- gets id ;;
  match nd_open (node_at w path) with
  | Some e => raise e
  | None => ret (mkHandle (nd_data (node_at w path)) 0 0
                          (nd_read_fault (node_at w path)))
  end.

(** [f.read(n)] *)
Definition fh_read (n : nat) (f : FileHandle) : result (list byte) * FileHandle :=
  if bool_decide (fh_fault f = Some (fh_reads f)) then
    (Raise "OSError", mkHandle (fh_data f) (fh_pos f) (S (fh_reads f)) (fh_fault f))
  else
    let chunk := take n (drop (fh_pos f) (fh_data f)) in
    (Ok chunk,
     mkHandle (fh_data f) (fh_pos f + length chunk) (S (fh_reads f)) (fh_fault f)).

(** [f.seek(pos)] for [0 <= pos] *)
Definition fh_seek (pos : Z) (f : FileHandle) : FileHandle :=
  mkHandle (fh_data f) (Z.to_nat pos) (fh_reads f) (fh_fault f).

(** ** FileDescriptorTracker *)

Definition track_open : M unit :=
  modify (with_eng (fun e =>
    let t := fd_tracker e in
    let count := (_count t + 1)%Z in
    set_fd_tracker
      (mkTracker count
                 (if (_max_count t <? count)%Z then count else _max_count t)
                 (Counter.incr (_opened_count t)) (_closed_count t)) e)).

Definition track_close : M unit :=
  modify (with_eng (fun e =>
    let t := fd_tracker e in
    set_fd_tracker
      (mkTracker (if (0 <? _count t)%Z then (_count t - 1)%Z else _count t)
                 (_max_count t) (_opened_count t)
                 (Counter.incr (_closed_count t))) e)).

(** [time.time()] and [datetime.now().isoformat()] *)
Definition time_time : M Qc :=
  t <- gets (fun w => clock (env w) (clock_reads (env w))) ;;
  modify tick ;; ret t.
Definition datetime_now_isoformat : M string :=
  t <- gets (fun w => now_iso (env w) (clock_reads (env w))) ;;
  modify tick ;; ret t.

(** [int(x)] of a float: truncation towards zero *)
Definition py_int (x : Qc) : Z := Z.quot (Qnum x) (Z.pos (Qden x)).

(* ===================================================================== *)
(** * RandomFileOpener *)
(* ===================================================================== *)

Section RandomFileOpener.

(** [fnmatch.fnmatch(name, pat)] *)
Variable fnmatch : string -> string -> bool.

(** ** should_exclude *)

(** One turn of the loop over [exclude_patterns]: [true] when the turn
    returns [True, "匹配排除模式"], [false] when the loop goes on. *)
Definition pattern_excludes (filename pattern : string) : bool :=
  if negb (PyStr.truthy pattern) then false
  else if PyStr.startswith pattern "*." then
    let ext_pattern := PyStr.lower (PyStr.drop_chars 1 pattern) in
    PyStr.endswith (PyStr.lower filename) ext_pattern
  else if PyStr.contains filename pattern then true
  else if PyStr.has_char "*" pattern || PyStr.has_char "?" pattern then
    fnmatch filename pattern
  else false.

Fixpoint exclude_patterns_loop (patterns : list string) (filename : string) : bool :=
  match patterns with
  | [] => false
  | pattern :: rest =>
      if pattern_excludes filename pattern then true
      else exclude_patterns_loop rest filename
  end.

Fixpoint executable_extensions_loop (exts : list string) (filename : string) : bool :=
  match exts with
  | [] => false
  | ext :: rest =>
      if PyStr.endswith (PyStr.lower filename) ext then true
      else executable_extensions_loop rest filename
  end.

(** the [try] block of [should_exclude] with its handler *)
Definition check_accessible (path : string) : M (bool * option string) :=
  try_except
    (cfg <- gets (fun w => config (eng w)) ;;
     e <- path_exists path ;;
     if negb e then ret (true, Some "文件不存在") else
     f <- path_is_file path ;;
     if negb f then ret (true, Some "不是文件") else
     r <- os_access path ;;
     if negb r then ret (true, Some "文件不可读") else
     if exclude_symlinks cfg then
       l <- path_is_symlink path ;;
       if l then ret (true, Some "符号链接") else ret (false, None)
     else ret (false, None))
    (fun e => ret (true, Some ("文件访问错误: " +:+ e))).

Definition should_exclude (filename filepath : string) : M (bool * option string) :=
  if negb (PyStr.truthy filename) then ret (true, Some "文件名为空")
  else if PyStr.startswith filename "." || PyStr.startswith filename "~" then
    ret (true, Some "隐藏文件")
  else
    cfg <- gets (fun w => config (eng w)) ;;
    if exclude_patterns_loop (exclude_patterns cfg) filename then
      ret (true, Some "匹配排除模式")
    else if executable_extensions_loop (system_executable_extensions cfg) filename then
      ret (true, Some "系统可执行文件")
    else check_accessible filepath.

(** ** scan_qualified_files *)

Definition entry_path (w : World) (name : string) : string :=
  script_dir (eng w) +:+ os_sep (env w) +:+ name.

(** the loop over the entries of [os.scandir] *)
Fixpoint scan_entries (entries : list DirEntry) (qualified_files : list string)
  : M (list string) :=
  match entries with
  | [] => ret qualified_files
  | entry :: rest =>
      fs_call "DirEntry.is_file" (de_name entry) ;;
      match de_is_file entry with
      | Raise _ => scan_entries rest qualified_files
      | Ok false => scan_entries rest qualified_files
      | Ok true =>
          modify (with_eng (fun e =>
            set_total_files_scanned (Counter.incr (total_files_scanned e)) e)) ;;
          item_path <- gets (fun w => entry_path w (de_name entry)) ;;
          x <- should_exclude (de_name entry) item_path ;;
          if x.1 then
            modify (with_eng (fun e =>
              set_total_files_excluded (Counter.incr (total_files_excluded e)) e)) ;;
            scan_entries rest qualified_files
          else scan_entries rest (qualified_files ++ [de_name entry])
      end
  end.

Definition os_access_dir : M bool :=
  d <- gets (fun w => script_dir (eng w)) ;;
  fs_call "access" d ;; gets (fun w => dir_access (fs w)).
Definition script_dir_exists : M bool :=
  d <- gets (fun w => script_dir (eng w)) ;;
  fs_call "exists" d ;; w <- gets id ;; lift (dir_exists (fs w)).
Definition os_scandir : M (list DirEntry) :=
  d <- gets (fun w => script_dir (eng w)) ;;
  fs_call "scandir" d ;; w <- gets id ;; lift (dir_scandir (fs w)).

Definition ScanResult : Type := list string * bool * option string.

(** The [try] block of [scan_qualified_files]: [inl] is a [return]
    inside the block, [inr] the list the block ends with. *)
Definition scan_directory : M (ScanResult + list string) :=
  try_except
    (d <- gets (fun w => script_dir (eng w)) ;;
     a <- os_access_dir ;;
     if negb a then ret (inl ([], false, Some ("目录不可访问: " +:+ d))) else
     x <- script_dir_exists ;;
     if negb x then ret (inl ([], false, Some ("目录不存在: " +:+ d))) else
     entries <- os_scandir ;;
     qualified_files <- scan_entries entries [] ;;
     ret (inr qualified_files))
    (fun e => ret (inl ([], false, Some ("扫描文件时出错: " +:+ e)))).

Definition cache_is_fresh (force_refresh : bool) (current_time : Qc) (e : Engine) : bool :=
  negb force_refresh
  && bool_decide (is_Some (_qualified_files_cache e))
  && bool_decide (current_time - _cache_timestamp e < Qc_of_Z (cache_ttl (config e)))%Qc.

Definition scan_qualified_files (force_refresh : bool) : M ScanResult :=
  current_time <- time_time ;;
  e <- gets eng ;;
  if cache_is_fresh force_refresh current_time e then
    ret (default [] (_qualified_files_cache e), true, None)
  else
    r <- scan_directory ;;
    match r with
    | inl returned => ret returned
    | inr qualified_files =>
        modify (with_eng (fun e =>
          set_cache_timestamp current_time
            (set_qualified_files_cache (Some qualified_files) e))) ;;
        ret (qualified_files, true, None)
    end.

(** ** get_file_hash *)

(** The [while True] loop that feeds the file to the hash in chunks of
    8192 bytes.  [fuel] bounds the turns; a turn that reads nothing
    leaves the loop, and every other turn moves the position on, so
    one turn more than the file has bytes is always enough (lemma
    [read_loop_enough]). *)
Fixpoint read_loop (fuel : nat) (f : FileHandle) (file_hash : hasher)
  : result hasher * FileHandle :=
  match fuel with
  | O => (Ok file_hash, f)
  | S fuel' =>
      match fh_read 8192 f with
      | (Raise e, f') => (Raise e, f')
      | (Ok chunk, f') =>
          match chunk with
          | [] => (Ok file_hash, f')
          | _ :: _ => read_loop fuel' f' (hash_update file_hash chunk)
          end
      end
  end.

(** the branch [file_size <= max_file_size_for_full_hash] *)
Definition full_hash (path : string) : M string :=
  f <- open_rb path ;;
  track_open ;;
  file_hash <- try_finally (lift (read_loop (S (length (fh_data f))) f []).1)
                           track_close ;;
  ret (hash_hexdigest file_hash).

(** [if data: file_hash.update(data)] *)
Definition update_if_data (file_hash : hasher) (data : list byte) : hasher :=
  match data with
  | [] => file_hash
  | _ :: _ => hash_update file_hash data
  end.

(** the position of sample [i]; the quotient is taken exactly *)
Definition sample_pos (i sample_count file_size : Z) : Z :=
  if (1 <? sample_count)%Z then (i * file_size / (sample_count - 1))%Z
  else (file_size / 2)%Z.

Fixpoint sample_loop (indices : list nat) (sample_count file_size : Z)
                     (f : FileHandle) (file_hash : hasher)
  : result hasher * FileHandle :=
  match indices with
  | [] => (Ok file_hash, f)
  | i :: rest =>
      let pos := sample_pos (Z.of_nat i) sample_count file_size in
      match fh_read 16384 (fh_seek (Z.max 0 (pos - 8192)) f) with
      | (Raise e, f') => (Raise e, f')
      | (Ok sample_data, f') =>
          sample_loop rest sample_count file_size f'
                      (update_if_data file_hash sample_data)
      end
  end.

(** the reads of [_get_sampling_hash] on the open file *)
Definition sampling_reads (f : FileHandle) (file_size : Z) : result hasher :=
  match fh_read 65536 f with
  | (Raise e, _) => Raise e
  | (Ok start_data, f1) =>
      let sample_count := Z.min 8 (Z.max 3 (file_size / (5 * 1024 * 1024))) in
      match sample_loop (seq 0 (Z.to_nat sample_count)) sample_count file_size f1
                        (update_if_data [] start_data) with
      | (Raise e, _) => Raise e
      | (Ok file_hash, f2) =>
          if (65536 <? file_size)%Z then
            match fh_read 65536 (fh_seek (Z.max 0 (file_size - 65536)) f2) with
            | (Raise e, _) => Raise e
            | (Ok end_data, _) => Ok (update_if_data file_hash end_data)
            end
          else Ok file_hash
      end
  end.

Definition _get_sampling_hash (filepath : string) (file_size : Z) : M string :=
  try_except
    (f <- open_rb filepath ;;
     track_open ;;
     file_hash <- try_finally (lift (sampling_reads f file_size)) track_close ;;
     ret (hash_hexdigest file_hash))
    (fun e => ret "").

Definition hash_cache_get (key : HashKey) : M (option string) :=
  c <- gets (fun w => _file_hash_cache (caches (eng w))) ;;
  modify (with_eng (fun e =>
    set_caches (set_file_hash_cache (LRU.get key c).2 (caches e)) e)) ;;
  ret (LRU.get key c).1.

Definition hash_cache_put (key : HashKey) (value : string) : M unit :=
  modify (with_eng (fun e =>
    set_caches (set_file_hash_cache
                  (LRU.put key value (_file_hash_cache (caches e))) (caches e)) e)).

(** the computation of the hash after a cache miss *)
Definition hash_file (filepath : string) (file_size : Z) : M string :=
  cfg <- gets (fun w => config (eng w)) ;;
  if (file_size <=? max_file_size_for_full_hash cfg)%Z then full_hash filepath
  else _get_sampling_hash filepath file_size.

(** [if cached_result:] *)
Definition cached_truthy (cached_result : option string) : bool :=
  match cached_result with
  | Some c => PyStr.truthy c
  | None => false
  end.

Definition get_file_hash (filepath : string) : M string :=
  x <- path_exists filepath ;;
  if negb x then ret "" else
  try_except
    (modify (with_eng (fun e =>
       set_hash_calculations (Counter.incr (hash_calculations e)) e)) ;;
     st <- path_stat filepath ;;
     let cache_key : HashKey := (filepath, st.1, st.2) in
     cached_result <- hash_cache_get cache_key ;;
     if cached_truthy cached_result then ret (default "" cached_result) else
     hash_result <- hash_file filepath st.1 ;;
     hash_cache_put cache_key hash_result ;;
     ret hash_result)
    (fun e => ret "").

(** ** load_history and save_history *)

Definition default_statistics : Statistics :=
  mkStats (Some 0%Z) (Some 0%Z) (Some PyNone) (Some 0%Z) (Some PyNone)
          (Some PyNone) (Some 0%Z) (Some 0%Z) (Some 0%Z).

Definition default_history : History :=
  mkHistory (Some []) (Some []) (Some ∅) (Some default_statistics).

(** [if key not in d: d[key] = v] *)
Definition setdefault {A} (field : option A) (v : A) : option A :=
  match field with
  | Some x => Some x
  | None => Some v
  end.

Definition repair_statistics (s : Statistics) : Statistics :=
  mkStats (setdefault (total_opened s) 0%Z) (setdefault (total_failed s) 0%Z)
          (setdefault (last_reset s) PyNone) (setdefault (reset_count s) 0%Z)
          (setdefault (last_opened s) PyNone) (setdefault (last_opened_file s) PyNone)
          (setdefault (cleaned_opened s) 0%Z) (setdefault (cleaned_failed s) 0%Z)
          (setdefault (total_resets s) 0%Z).

(** the two repair loops of [load_history] *)
Definition repair_history (loaded : History) : History :=
  mkHistory (setdefault (opened_files loaded) [])
            (setdefault (failed_files loaded) [])
            (setdefault (file_signatures loaded) ∅)
            (Some (repair_statistics (default default_statistics (statistics loaded)))).

Definition load_history : M History :=
  try_except
    (p <- gets (fun w => history_file (eng w)) ;;
     fs_call "exists" p ;;
     d <- gets (fun w => history_disk (fs w)) ;;
     match d with
     | NoFile => ret default_history
     | Unreadable e => fs_call "open" p ;; raise e
     | JsonOther => fs_call "open" p ;; ret default_history
     | JsonDict loaded => fs_call "open" p ;; ret (repair_history loaded)
     end)
    (fun e => ret default_history).

(** a step of a save that raises when the file system says so *)
Definition faulty (name path : string) (fault : FileSystem -> option string) : M unit :=
  fs_call name path ;;
  w <- gets id ;;
  match fault (fs w) with
  | Some e => raise e
  | None => ret tt
  end.

Definition temp_file_name (w : World) (t : Qc) : string :=
  history_file (eng w) +:+ ".tmp." +:+ pretty (py_int t) +:+ "." +:+ pretty (pid (env w)).

(** the [finally] block of [save_history], [temp_file] being bound *)
Definition remove_temp_file (temp_file : string) : M unit :=
  try_except
    (modify (with_eng (fun e =>
       if bool_decide (temp_file ∈ _temp_files e)
       then set_temp_files (_temp_files e ∖ {[temp_file]}) e else e)) ;;
     fs_call "exists" temp_file ;;
     on_disk <- gets (fun w => bool_decide (temp_file ∈ temp_disk (fs w))) ;;
     if on_disk then
       faulty "remove" temp_file fault_remove ;;
       modify (with_fs (fun f => set_temp_disk (temp_disk f ∖ {[temp_file]}) f))
     else ret tt)
    (fun _ => ret tt).

Definition save_history (history : History) : M unit :=
  p <- gets (fun w => history_file (eng w)) ;;
  created <- try_except (faulty "mkdir" p fault_mkdir ;; ret true)
                        (fun _ => ret false) ;;
  (* when mkdir raises, temp_file is not bound: the finally block raises
     NameError at once and swallows it *)
  if negb created then ret tt else
  t <- time_time ;;
  temp_file <- gets (fun w => temp_file_name w t) ;;
  try_finally
    (try_except
       (modify (with_eng (fun e => set_temp_files ({[temp_file]} ∪ _temp_files e) e)) ;;
        faulty "open" temp_file fault_create ;;
        modify (with_fs (fun f => set_temp_disk ({[temp_file]} ∪ temp_disk f) f)) ;;
        faulty "write" temp_file fault_write ;;
        fs_call "exists" p ;;
        faulty "replace" p fault_replace ;;
        modify (with_fs (fun f =>
          set_history_disk (JsonDict history)
                           (set_temp_disk (temp_disk f ∖ {[temp_file]}) f))))
       (fun _ => ret tt))
    (remove_temp_file temp_file).

(** ** get_available_files *)

(** the loop that keeps the files that were not processed yet *)
Fixpoint available_loop (files : list string) (opened_set failed_set : gset string)
                        (available_files : list string) : list string :=
  match files with
  | [] => available_files
  | filename :: rest =>
      if bool_decide (filename ∈ opened_set) || bool_decide (filename ∈ failed_set)
      then available_loop rest opened_set failed_set available_files
      else available_loop rest opened_set failed_set (available_files ++ [filename])
  end.

Definition get_available_files : M (list string * History * bool * option string) :=
  history <- load_history ;;
  let opened_set : gset string := list_to_set (default [] (opened_files history)) in
  let failed_set : gset string := list_to_set (default [] (failed_files history)) in
  r <- scan_qualified_files false ;;
  let '(all_qualified_files, success, error_msg) := r in
  if negb success then ret ([], history, false, error_msg) else
  ret (available_loop all_qualified_files opened_set failed_set [],
       history, true, None).

(** ** open_file_with_retry *)

Definition launch_file (filename : string) (attempt : nat) : M bool :=
  w <- gets id ;; lift (launch (env w) (entry_path w filename) attempt).

Fixpoint retry_loop (attempts : list nat) (filename : string) : M bool :=
  match attempts with
  | [] => ret false
  | attempt :: rest =>
      success <- try_except (launch_file filename attempt) (fun _ => ret false) ;;
      if success then ret true else retry_loop rest filename
  end.

Definition open_file_with_retry (filename : string) : M bool :=
  cfg <- gets (fun w => config (eng w)) ;;
  retry_loop (seq 0 (max_retries cfg)) filename.

(** ** reset_history_if_needed *)

(** the dictionary [{}] *)
Definition empty_statistics : Statistics :=
  mkStats None None None None None None None None None.

Definition stats_of (history : History) : Statistics :=
  default empty_statistics (statistics history).

Definition reset_statistics (stats : Statistics) (now : string) : Statistics :=
  mkStats (total_opened stats) (total_failed stats) (Some (PyStr now))
          (Some (default 0 (reset_count stats) + 1)%Z)
          (last_opened stats) (last_opened_file stats)
          (cleaned_opened stats) (cleaned_failed stats)
          (Some (default 0 (total_resets stats) + 1)%Z).

Definition clear_caches (cs : Caches) : Caches :=
  mkCaches (LRU.clear (_file_hash_cache cs)) (LRU.clear (_exclude_patterns_cache cs))
           (LRU.clear (_encoding_cache cs)) (LRU.clear (_file_access_cache cs))
           (LRU.clear (_file_type_cache cs)).

Definition invalidate_caches (e : Engine) : Engine :=
  set_caches (clear_caches (caches e)) (set_qualified_files_cache None e).

(** In Python the [statistics] dictionary of [history] is updated in
  place and shared with the new record; the caller, [run], drops the old
  record, so only the new one is modelled. *)
Definition reset_history_if_needed (history : History) (available_files : list string)
  : M (list string * History) :=
  match available_files with
  | _ :: _ => ret (available_files, history)
  | [] =>
      r <- scan_qualified_files true ;;
      let '(all_qualified_files, success, error_msg) := r in
      if negb success then ret (available_files, history) else
      match all_qualified_files with
      | [] => ret (available_files, history)
      | _ :: _ =>
          now <- datetime_now_isoformat ;;
          let stats := reset_statistics (stats_of history) now in
          let new_history := mkHistory (Some []) (Some []) (Some ∅) (Some stats) in
          save_history new_history ;;
          modify (with_eng invalidate_caches) ;;
          ret (all_qualified_files, new_history)
      end
  end.

(** ** show_statistics: the scan and the clock reading behind the report *)

Definition show_statistics (history : History) : M unit :=
  r <- scan_qualified_files false ;;
  if negb r.1.2 then ret tt else time_time ;; ret tt.

(** ** _cleanup_all_temp_files *)

Fixpoint cleanup_loop (files_to_clean : list string) : M unit :=
  match files_to_clean with
  | [] => ret tt
  | temp_file :: rest =>
      try_except
        (fs_call "exists" temp_file ;;
         on_disk <- gets (fun w => bool_decide (temp_file ∈ temp_disk (fs w))) ;;
         if on_disk then
           faulty "unlink" temp_file fault_remove ;;
           modify (with_fs (fun f => set_temp_disk (temp_disk f ∖ {[temp_file]}) f))
         else ret tt)
        (fun _ => ret tt) ;;
      cleanup_loop rest
  end.

Definition _cleanup_all_temp_files : M unit :=
  files_to_clean <- gets (fun w => elements (_temp_files (eng w))) ;;
  cleanup_loop files_to_clean.

(** ** run *)

(** [l.remove(x)]: drops the first occurrence *)
Fixpoint list_remove (x : string) (l : list string) : list string :=
  match l with
  | [] => []
  | y :: r => if decide (y = x) then r else y :: list_remove x r
  end.

Definition set_opened_files (l : list string) (h : History) : History :=
  mkHistory (Some l) (failed_files h) (file_signatures h) (statistics h).
Definition set_failed_files (l : list string) (h : History) : History :=
  mkHistory (opened_files h) (Some l) (file_signatures h) (statistics h).
Definition set_statistics (s : Statistics) (h : History) : History :=
  mkHistory (opened_files h) (failed_files h) (file_signatures h) (Some s).

(** the update of the two lists after the attempt to open [selected_file] *)
Definition record_outcome (success : bool) (selected_file : string)
                          (history : History) : History :=
  if success then
    let opened := default [] (opened_files history) in
    let history1 :=
      if bool_decide (selected_file ∈ opened) then history
      else set_opened_files (opened ++ [selected_file]) history in
    let failed := default [] (failed_files history1) in
    if bool_decide (selected_file ∈ failed)
    then set_failed_files (list_remove selected_file failed) history1
    else history1
  else
    let failed := default [] (failed_files history) in
    let history1 :=
      if bool_decide (selected_file ∈ failed) then history
      else set_failed_files (failed ++ [selected_file]) history in
    let opened := default [] (opened_files history1) in
    if bool_decide (selected_file ∈ opened)
    then set_opened_files (list_remove selected_file opened) history1
    else history1.

Definition update_statistics (success : bool) (selected_file now : string)
                             (history : History) : History :=
  let stats := stats_of history in
  set_statistics
    (mkStats
       (if success then Some (default 0 (total_opened stats) + 1)%Z
        else total_opened stats)
       (if success then total_failed stats
        else Some (default 0 (total_failed stats) + 1)%Z)
       (last_reset stats) (reset_count stats)
       (Some (PyStr now))
       (if success then Some (PyStr selected_file) else last_opened_file stats)
       (cleaned_opened stats) (cleaned_failed stats) (total_resets stats))
    history.

(** [random.choice(available_files)] *)
Definition random_choice (available_files : list string) : M string :=
  w <- gets id ;;
  match available_files !! (random_index (env w) mod length available_files)%nat with
  | Some x => ret x
  | None => raise "IndexError"
  end.

(** the first half of [run]: the files to choose from and the history
    to record in, or [None] when [run] returns before choosing *)
Definition run_select : M (option (list string * History)) :=
  r <- get_available_files ;;
  let '(available_files, history, success, error_msg) := r in
  if negb success then ret None else
  r2 <- reset_history_if_needed history available_files ;;
  match r2.1 with
  | [] => show_statistics r2.2 ;; ret None
  | _ :: _ => ret (Some r2)
  end.

(** the second half: choose, open, record, persist, report *)
Definition run_record (available_files : list string) (history : History) : M unit :=
  selected_file <- random_choice available_files ;;
  success <- open_file_with_retry selected_file ;;
  let history1 := record_outcome success selected_file history in
  now <- datetime_now_isoformat ;;
  let history2 := update_statistics success selected_file now history1 in
  save_history history2 ;;
  show_statistics history2.

Definition run : M unit :=
  try_finally
    (try_except
       (s <- run_select ;;
        match s with
        | None => ret tt
        | Some (available_files, history) => run_record available_files history
        end)
       (fun _ => ret tt))
    _cleanup_all_temp_files.

(** ** The claim on the pattern rules, as the specification words it *)

(** a wildcard character occurs in [pattern] *)
Definition has_wildcard (pattern : string) : bool :=
  PyStr.has_char "*" pattern || PyStr.has_char "?" pattern.

(** "a pattern beginning with [*.] matches case-insensitively against
    the filename's suffix; otherwise, if the pattern contains no wildcard
    it is treated as substring containment; otherwise general glob
    matching is applied" *)
Definition spec_pattern_matches (filename pattern : string) : bool :=
  if PyStr.startswith pattern "*." then
    PyStr.endswith (PyStr.lower filename) (PyStr.lower (PyStr.drop_chars 1 pattern))
  else if negb (has_wildcard pattern) then PyStr.contains filename pattern
  else fnmatch filename pattern.

(** What the loop of [should_exclude] does with one pattern: an empty
    pattern is skipped; a pattern that does not begin with [*.] is first
    looked for as a substring, whatever its characters, and is matched
    as a glob only when it has a wildcard and is not a substring. *)
Definition code_pattern_matches (filename pattern : string) : bool :=
  PyStr.truthy pattern &&
  (if PyStr.startswith pattern "*." then
     PyStr.endswith (PyStr.lower filename) (PyStr.lower (PyStr.drop_chars 1 pattern))
   else PyStr.contains filename pattern
        || (has_wildcard pattern && fnmatch filename pattern)).

End RandomFileOpener.

(* ===================================================================== *)
(** * The vocabulary of the properties *)
(* ===================================================================== *)

Definition opened_of (h : History) : list string := default [] (opened_files h).
Definition failed_of (h : History) : list string := default [] (failed_files h).

(** no filename is both in [opened_files] and in [failed_files] *)
Definition exclusive (h : History) : Prop :=
  ∀ filename, ¬ (filename ∈ opened_of h ∧ filename ∈ failed_of h).

Definition disk_exclusive (d : DiskFile) : Prop :=
  match d with
  | JsonDict h => exclusive h
  | NoFile | Unreadable _ | JsonOther => True
  end.

Definition complete_statistics (s : Statistics) : Prop :=
  is_Some (total_opened s) ∧ is_Some (total_failed s) ∧ is_Some (last_reset s) ∧
  is_Some (reset_count s) ∧ is_Some (last_opened s) ∧ is_Some (last_opened_file s) ∧
  is_Some (cleaned_opened s) ∧ is_Some (cleaned_failed s) ∧ is_Some (total_resets s).

(** a record with all four keys and a complete [statistics] *)
Definition well_formed_history (h : History) : Prop :=
  is_Some (opened_files h) ∧ is_Some (failed_files h) ∧
  is_Some (file_signatures h) ∧
  ∃ s, statistics h = Some s ∧ complete_statistics s.

(** no step of a save fails *)
Definition save_succeeds (f : FileSystem) : Prop :=
  fault_mkdir f = None ∧ fault_create f = None ∧
  fault_write f = None ∧ fault_replace f = None.

(** a cache with no entry and its counters at zero *)
Definition lru_cleared {K V} (c : SimpleLRUCache K V) : Prop :=
  _cache c = [] ∧ Counter.get (_hits c) = 0%Z ∧ Counter.get (_misses c) = 0%Z.

Definition caches_cleared (cs : Caches) : Prop :=
  lru_cleared (_file_hash_cache cs) ∧ lru_cleared (_exclude_patterns_cache cs) ∧
  lru_cleared (_encoding_cache cs) ∧ lru_cleared (_file_access_cache cs) ∧
  lru_cleared (_file_type_cache cs).

(** the file at [path] as [open(path, 'rb')] hands it out *)
Definition handle_of (w : World) (path : string) : FileHandle :=
  mkHandle (nd_data (node_at w path)) 0 0 (nd_read_fault (node_at w path)).

(** a read of the file raises while [hash_file] hashes it *)
Definition read_error (w : World) (path : string) (file_size : Z) : Prop :=
  if (file_size <=? max_file_size_for_full_hash (config (eng w)))%Z
  then ∃ e, (read_loop (S (length (nd_data (node_at w path))))
                       (handle_of w path) []).1 = Raise e
  else ∃ e, sampling_reads (handle_of w path) file_size = Raise e.

(** what the hash cache answers for [key] *)
Definition cached_hash (w : World) (key : HashKey) : option string :=
  (LRU.get key (_file_hash_cache (caches (eng w)))).1.

(** what [hash_file] returns, read off the file: [open] and the reads
    decide, a failure of the sampling hash counting as the empty hash *)
Definition hash_file_outcome (w : World) (path : string) (file_size : Z) : result string :=
  if (file_size <=? max_file_size_for_full_hash (config (eng w)))%Z then
    match nd_open (node_at w path) with
    | Some e => Raise e
    | None =>
        match (read_loop (S (length (nd_data (node_at w path))))
                         (handle_of w path) []).1 with
        | Ok file_hash => Ok (hash_hexdigest file_hash)
        | Raise e => Raise e
        end
    end
  else
    match nd_open (node_at w path) with
    | Some e => Ok ""
    | None =>
        match sampling_reads (handle_of w path) file_size with
        | Ok file_hash => Ok (hash_hexdigest file_hash)
        | Raise e => Ok ""
        end
    end.

(** a world with one more call on the file system in its trace *)
Definition traced (name path : string) (w : World) : World :=
  with_fs (fun f => set_fs_trace (mkCall name path :: fs_trace f) f) w.

(** the calls made on the file system between [w] and [w'] include [c] *)
Definition called_since (w w' : World) (c : FsCall) : Prop :=
  ∃ calls, fs_trace (fs w') = calls ++ fs_trace (fs w) ∧ c ∈ calls.

(** [os.utime]: only the modification time of [path] changes *)
Definition set_mtime (mtime : Qc) (nd : FileNode) : FileNode :=
  mkNode (nd_exists nd) (nd_is_file nd) (nd_readable nd) (nd_is_symlink nd)
         (match nd_stat nd with
          | Ok (size, _) => Ok (size, mtime)
          | Raise e => Raise e
          end)
         (nd_open nd) (nd_data nd) (nd_read_fault nd).

Definition touch (path : string) (mtime : Qc) (w : World) : World :=
  with_fs (fun f => set_nodes (<[path := set_mtime mtime (node_at w path)]> (nodes f)) f) w.

(** the hash of a file that can be read: its content, whole or sampled *)
Definition content_hash (w : World) (path : string) (file_size : Z) : string :=
  if (file_size <=? max_file_size_for_full_hash (config (eng w)))%Z
  then hash_hexdigest (nd_data (node_at w path))
  else match sampling_reads (handle_of w path) file_size with
       | Ok file_hash => hash_hexdigest file_hash
       | Raise _ => ""
       end.

Section CacheInvariant.
Context {K V : Type} `{EqDecision K}.

(** The invariant of the keys of a cache, [lu] giving the last use of
    each key and [now] the number of calls made: the keys are distinct,
    at most [n], and stand in the order of their last use. *)
Definition keys_inv (n : Z) (lu : K → option nat) (now : nat) (ks : list K) : Prop :=
  NoDup ks ∧
  (Z.of_nat (length ks) ≤ n)%Z ∧
  StronglySorted (LRU.older lu) ks ∧
  Forall (λ k, ∃ t, lu k = Some t ∧ t < now) ks.

Definition lru_inv (n : Z) (lu : K → option nat) (now : nat)
                   (c : SimpleLRUCache K V) : Prop :=
  max_size c = n ∧ (0 < n)%Z ∧ keys_inv n lu now (LRU.keys c).

End CacheInvariant.

(** the lemmas on methods that leave the history file as it is *)
Create HintDb keeps.

(** [m] leaves the history file as it is *)
Definition keeps_history {A} (m : M A) : Prop :=
  ∀ w r w', m w = (r, w') → history_disk (fs w') = history_disk (fs w).

(** [m] keeps the history file exclusive and returns values that
    satisfy [Q] *)
Definition sound {A} (m : M A) (Q : A → Prop) : Prop :=
  ∀ w r w', m w = (r, w') →
    disk_exclusive (history_disk (fs w)) →
    disk_exclusive (history_disk (fs w')) ∧ ∀ a, r = Ok a → Q a.

(** the files on offer are in neither list of the record *)
Definition unprocessed (available : list string) (h : History) : Prop :=
  exclusive h ∧ ∀ f, f ∈ available → (f ∉ opened_of h) ∧ (f ∉ failed_of h).

(* ===================================================================== *)
(** * A small installation, used to run the methods *)
(* ===================================================================== *)

(** [fnmatch.fnmatchcase] on patterns made of literal characters, [*]
    and [?]. *)
Fixpoint glob_match (pat : string) : string -> bool :=
  match pat with
  | EmptyString => fun name => String.eqb name ""
  | String c pat' =>
      if Ascii.eqb c "*" then
        fix star (name : string) : bool :=
          glob_match pat' name ||
          match name with
          | EmptyString => false
          | String _ name' => star name'
          end
      else if Ascii.eqb c "?" then
        fun name => match name with
                    | EmptyString => false
                    | String _ name' => glob_match pat' name'
                    end
      else
        fun name => match name with
                    | EmptyString => false
                    | String d name' => Ascii.eqb c d && glob_match pat' name'
                    end
  end.

Definition plain_fnmatch (name pat : string) : bool := glob_match pat name.

Module Demo.

Definition cfg : Config :=
  mkConfig ".file_opener_history.json" 2 5 16 100 500 50 200
    ["*.pyc"; "*.tmp"; "~$*"; "Thumbs.db"; ".DS_Store"; "desktop.ini";
     "*.swp"; "*.swo"; "*.log"; "random_file_opener.py";
     ".file_opener_history.json"; ".file_opener_log.txt";
     ".file_opener_config.json"; ".file_opener_extended_log.json"]
    [".exe"; ".dll"; ".sys"; ".so"; ".bat"; ".cmd"; ".sh"; ".bin"]
    true.

(** the same configuration with other exclusion patterns *)
Definition cfg_with_patterns (patterns : list string) : Config :=
  mkConfig (history_filename cfg) (max_retries cfg) (cache_ttl cfg)
           (max_file_size_for_full_hash cfg) (hash_cache_size cfg)
           (pattern_cache_size cfg) (encoding_cache_size cfg)
           (file_type_cache_size cfg) patterns
           (system_executable_extensions cfg) (exclude_symlinks cfg).

Definition regular (content : string) (mtime : Z) : FileNode :=
  let data := list_byte_of_string content in
  mkNode (Ok true) (Ok true) true (Ok false)
         (Ok (Z.of_nat (length data), Qc_of_Z mtime)) None data None.

(** a file that is there and cannot be opened *)
Definition locked (content : string) (mtime : Z) : FileNode :=
  let data := list_byte_of_string content in
  mkNode (Ok true) (Ok true) false (Ok false)
         (Ok (Z.of_nat (length data), Qc_of_Z mtime))
         (Some "PermissionError") data None.

Definition new_cache {K V} (n : Z) : SimpleLRUCache K V :=
  mkLRU n [] (mkCounter 0) (mkCounter 0).

Definition engine_of (c : Config) (qualified : option (list string)) (stamp : Qc)
                     (hashes : list (HashKey * string)) : Engine :=
  mkEngine c "/d" "/d/.file_opener_history.json"
    (mkTracker 0 0 (mkCounter 0) (mkCounter 0)) ∅
    (mkCounter 0) (mkCounter 0) qualified stamp (mkCounter 0)
    (mkCaches (mkLRU 100 hashes (mkCounter 0) (mkCounter 0))
              (new_cache 500) (new_cache 50) (new_cache 50) (new_cache 200)).

Definition engine : Engine := engine_of cfg None 0%Qc [].

Definition files : gmap string FileNode :=
  <["/d/a.txt" := regular "alpha" 10]>
  (<["/d/b.txt" := regular "bravo" 11]>
  (<["/d/c.txt" := regular "a file of more than sixteen bytes" 12]>
  (<["/d/notes.tmp" := regular "scratch" 13]>
  (<["/d/locked.txt" := locked "secret" 14]> ∅)))).

Definition listing : list DirEntry :=
  [mkEntry "a.txt" (Ok true); mkEntry "sub" (Ok false);
   mkEntry "notes.tmp" (Ok true); mkEntry "b.txt" (Ok true);
   mkEntry "c.txt" (Ok true)].

Definition disk (d : DiskFile) : FileSystem :=
  mkFs true (Ok true) (Ok listing) files d ∅ None None None None None [].

Definition environment : Env :=
  mkEnv (fun n => Qc_of_Z (1000 + Z.of_nat n))
        (fun n => "2024-01-01T00:00:0" +:+ pretty n) 0 4242 "/" 1
        (fun _ _ => Ok true).

Definition world (d : DiskFile) : World := mkWorld engine (disk d) environment.

(** the installation with other exclusion patterns *)
Definition world_with_patterns (patterns : list string) : World :=
  mkWorld (engine_of (cfg_with_patterns patterns) None 0%Qc []) (disk NoFile)
          environment.

(** the installation two seconds after a scan *)
Definition scanned_world : World :=
  mkWorld (engine_of cfg (Some ["a.txt"; "b.txt"; "c.txt"]) (Qc_of_Z 998) [])
          (disk NoFile) environment.

(** the installation after a hash of [c.txt] that failed *)
Definition failed_hash_world : World :=
  mkWorld (engine_of cfg None 0%Qc [(("/d/c.txt", 33%Z, Qc_of_Z 12), "")])
          (disk NoFile) environment.

Definition statistics_after (opened failed : Z) : Statistics :=
  mkStats (Some opened) (Some failed) (Some PyNone) (Some 0%Z)
          (Some (PyStr "2023-12-31T23:59:59")) (Some (PyStr "a.txt"))
          (Some 0%Z) (Some 0%Z) (Some 0%Z).

(** one file opened, one failed, one left *)
Definition partly_done : History :=
  mkHistory (Some ["a.txt"]) (Some ["c.txt"]) (Some ∅) (Some (statistics_after 1 1)).

(** every file processed *)
Definition exhausted : History :=
  mkHistory (Some ["a.txt"; "b.txt"]) (Some ["c.txt"]) (Some ∅)
            (Some (statistics_after 2 1)).

(** calls on a cache of capacity two *)
Definition lru_calls : list (@LRU.op string nat) :=
  [LRU.Put "a" 1; LRU.Put "b" 2; LRU.Get "a"].

Definition lru_start : SimpleLRUCache string nat := new_cache 2.

End Demo.

(* ===================================================================== *)
(** * The other methods of the classes *)
(* ===================================================================== *)

(** ** SimpleLRUCache.stats and __len__ *)

(** The dictionary that [stats] returns; the two rates are floats. *)
Record CacheStats := mkCacheStats {
  cs_size : Z;
  cs_max_size : Z;
  cs_hits : Z;
  cs_misses : Z;
  cs_hit_rate : Qc;
  cs_fullness : Qc
}.

Module Cache.
Section Reports.
Context {K V : Type}.

Definition stats (c : SimpleLRUCache K V) : CacheStats :=
  let hits := Counter.get (_hits c) in
  let misses := Counter.get (_misses c) in
  let total := (hits + misses)%Z in
  let hit_rate := if (0 <? total)%Z then (Qc_of_Z hits / Qc_of_Z total)%Qc else 0%Qc in
  mkCacheStats (Z.of_nat (length (_cache c))) (max_size c) hits misses hit_rate
    (if (0 <? max_size c)%Z
     then (Qc_of_Z (Z.of_nat (length (_cache c))) / Qc_of_Z (max_size c))%Qc
     else 0%Qc).

Definition __len__ (c : SimpleLRUCache K V) : Z := LRU.size c.

(** the calls of [get] since the cache was built or last cleared *)
Definition lookups (ops : list (@LRU.op K V)) : Z :=
  foldl (fun n o => match o with
                    | LRU.Get _ => (n + 1)%Z
                    | LRU.Clear => 0%Z
                    | LRU.Put _ _ | LRU.Remove _ => n
                    end) 0%Z ops.
End Reports.
End Cache.

(** ** FileDescriptorTracker: the constructor and the two reports *)

(** The dictionary that [get_stats] returns. *)
Record FdStats := mkFdStats {
  fd_current : Z;
  fd_max : Z;
  fd_opened : Z;
  fd_closed : Z;
  fd_leaked : Z
}.

Module Tracker.
(** [FileDescriptorTracker()] *)
Definition init : FileDescriptorTracker :=
  mkTracker 0 0 (mkCounter 0) (mkCounter 0).

Definition get_count : M Z := gets (fun w => _count (fd_tracker (eng w))).

Definition get_stats : M FdStats :=
  gets (fun w =>
    let t := fd_tracker (eng w) in
    let opened := Counter.get (_opened_count t) in
    let closed := Counter.get (_closed_count t) in
    let leaked := Z.max 0 (opened - closed) in
    mkFdStats (_count t) (_max_count t) opened closed leaked).

(** A client's calls on the tracker. *)
Inductive event := Open | Close.

#[global] Instance event_eq_dec : EqDecision event.
Proof. solve_decision. Defined.

(** how often [e] occurs in [events] *)
Definition count (e : event) (events : list event) : Z :=
  Z.of_nat (length (filter (λ x, x = e) events)).

Fixpoint track (events : list event) : M unit :=
  match events with
  | [] => ret tt
  | Open :: rest => track_open ;; track rest
  | Close :: rest => track_close ;; track rest
  end.

(** the sequences in which no [track_close] comes without a
    [track_open] before it; [depth] descriptors are open *)
Fixpoint paired (depth : nat) (events : list event) : bool :=
  match events with
  | [] => true
  | Open :: rest => paired (S depth) rest
  | Close :: rest =>
      match depth with
      | O => false
      | S d => paired d rest
      end
  end.
End Tracker.

(** ** RandomFileOpener.__init__: the exclusion patterns and the caches *)

(** The loop over [essential_excludes]: a name that is not among the
    patterns yet is appended. *)
Fixpoint add_essential_excludes (essential_excludes patterns : list string)
  : list string :=
  match essential_excludes with
  | [] => patterns
  | exclude :: rest =>
      add_essential_excludes rest
        (if bool_decide (exclude ∈ patterns) then patterns else patterns ++ [exclude])
  end.

(** the configuration after that loop *)
Definition with_essential_excludes (essential_excludes : list string) (cfg : Config)
  : Config :=
  mkConfig (history_filename cfg) (max_retries cfg) (cache_ttl cfg)
           (max_file_size_for_full_hash cfg) (hash_cache_size cfg)
           (pattern_cache_size cfg) (encoding_cache_size cfg)
           (file_type_cache_size cfg)
           (add_essential_excludes essential_excludes (exclude_patterns cfg))
           (system_executable_extensions cfg) (exclude_symlinks cfg).

(** [_init_caches]: the five constructors in the order of the source;
    [None] is the [ValueError] of the first one that refuses its size. *)
Definition _init_caches (cfg : Config) : option Caches :=
  file_hash ← LRU.init (hash_cache_size cfg);
  exclude_patterns ← LRU.init (pattern_cache_size cfg);
  encoding ← LRU.init (encoding_cache_size cfg);
  file_access ← LRU.init (hash_cache_size cfg `div` 2);
  file_type ← LRU.init (file_type_cache_size cfg);
  Some (mkCaches file_hash exclude_patterns encoding file_access file_type).

(** the caches of the [except] branch of [__init__] *)
Definition fallback_caches : option Caches :=
  file_hash ← LRU.init 50;
  exclude_patterns ← LRU.init 100;
  encoding ← LRU.init 20;
  file_access ← LRU.init 50;
  file_type ← LRU.init 50;
  Some (mkCaches file_hash exclude_patterns encoding file_access file_type).

(** [try: self._init_caches() except Exception: ...] of [__init__]: the
    handler assigns all five attributes anew. *)
Definition init_caches (cfg : Config) : option Caches :=
  match _init_caches cfg with
  | Some cs => Some cs
  | None => fallback_caches
  end.

(** ** show_statistics: the four counts of the report *)

Record ReportCounts := mkCounts {
  opened_count : Z;
  failed_count : Z;
  total_count : Z;
  remaining_count : Z
}.

Definition report_counts (history : History) (all_qualified_files : list string)
  : ReportCounts :=
  let opened := default [] (opened_files history) in
  let failed := default [] (failed_files history) in
  let opened_set : gset string := list_to_set opened in
  let failed_set : gset string := list_to_set failed in
  let processed_files := opened_set ∪ failed_set in
  let total := Z.of_nat (length all_qualified_files) in
  mkCounts (Z.of_nat (length opened)) (Z.of_nat (length failed)) total
           (total - Z.of_nat (size processed_files)).

(** ** main: the option [--reset-history] and the batch of runs *)

(** the branch [if args.reset_history:] *)
Definition main_reset_history : M unit :=
  history <- load_history ;;
  now <- datetime_now_isoformat ;;
  let stats := reset_statistics (stats_of history) now in
  let new_history := mkHistory (Some []) (Some []) (Some ∅) (Some stats) in
  save_history new_history.

Section Batch.
Variable fnmatch : string -> string -> bool.

Fixpoint run_times (n : nat) : M unit :=
  match n with
  | O => ret tt
  | S n' => run fnmatch ;; run_times n'
  end.

(** [count = max(1, args.count)] and the loop over [range(count)] *)
Definition main_batch (args_count : Z) : M unit :=
  let count := Z.max 1 args_count in
  run_times (Z.to_nat count).
End Batch.

(* ===================================================================== *)
(** * More vocabulary *)
(* ===================================================================== *)

Create HintDb follows.
Create HintDb returns.

(** the worlds before and after [m] stand in the relation [R] *)
Definition follows {A} (R : World → World → Prop) (m : M A) : Prop :=
  ∀ w r w', m w = (r, w') → R w w'.

(** [f] is the same in both worlds *)
Definition same {B} (f : World → B) : World → World → Prop :=
  λ w w', f w' = f w.

(** [m] leaves [f] of the world as it is *)
Definition leaves {A B} (f : World → B) (m : M A) : Prop := follows (same f) m.

(** relations that do not look at the record of calls, at the clock, at
    the two counters of the scan, at the cached list and its time *)
Definition blind_to_calls (R : World → World → Prop) : Prop :=
  ∀ name path w, R w (traced name path w).
Definition blind_to_clock (R : World → World → Prop) : Prop :=
  ∀ w, R w (tick w).
Definition blind_to_scan_counters (R : World → World → Prop) : Prop :=
  ∀ c1 c2 w,
    R w (with_eng (λ e, set_total_files_scanned c1 (set_total_files_excluded c2 e)) w).
Definition blind_to_scan_cache (R : World → World → Prop) : Prop :=
  ∀ q t w,
    R w (with_eng (λ e, set_cache_timestamp t (set_qualified_files_cache q e)) w).

(** [m] returns a value: it raises nothing *)
Definition returns {A} (m : M A) : Prop :=
  ∀ w, ∃ a w', m w = (Ok a, w').

(** the file system without the record of the calls made on it *)
Definition untraced (f : FileSystem) : FileSystem := set_fs_trace [] f.

(** the files on disk *)
Definition on_disk (w : World) : FileSystem := untraced (fs w).

(** the world without the record of the calls made on the file system *)
Definition but_trace (w : World) : Engine * FileSystem * Env :=
  (eng w, untraced (fs w), env w).

(** the errors that the steps of a save and of a removal meet *)
Definition save_faults (w : World)
  : option string * option string * option string * option string * option string :=
  (fault_mkdir (fs w), fault_create (fs w), fault_write (fs w),
   fault_replace (fs w), fault_remove (fs w)).

(** what a scan depends on: the configuration, the directory and the
    files in it *)
Definition scene (w : World) : Config * string * string * gmap string FileNode :=
  (config (eng w), script_dir (eng w), os_sep (env w), nodes (fs w)).

Definition is_ok_true (r : result bool) : bool :=
  match r with
  | Ok true => true
  | Ok false | Raise _ => false
  end.

Definition is_ok_false (r : result bool) : bool :=
  match r with
  | Ok false => true
  | Ok true | Raise _ => false
  end.

Section Qualification.
Variable fnmatch : string -> string -> bool.

(** [filename] is hidden: it begins with a dot or a tilde *)
Definition hidden (filename : string) : bool :=
  PyStr.startswith filename "." || PyStr.startswith filename "~".

(** [filename] is excluded for its name alone *)
Definition excluded_by_name (cfg : Config) (filename : string) : bool :=
  negb (PyStr.truthy filename)
  || hidden filename
  || exclude_patterns_loop fnmatch (exclude_patterns cfg) filename
  || executable_extensions_loop (system_executable_extensions cfg) filename.

(** the file at [filepath] is a readable regular file and, when
    symbolic links are excluded, no symbolic link *)
Definition accessible (w : World) (filepath : string) : bool :=
  let nd := node_at w filepath in
  is_ok_true (nd_exists nd) && is_ok_true (nd_is_file nd) && nd_readable nd
  && (negb (exclude_symlinks (config (eng w))) || is_ok_false (nd_is_symlink nd)).

Definition qualifies_at (w : World) (filename filepath : string) : bool :=
  negb (excluded_by_name (config (eng w)) filename) && accessible w filepath.

(** [filename], an entry of the directory, qualifies *)
Definition qualifies (w : World) (filename : string) : bool :=
  qualifies_at w filename (entry_path w filename).
End Qualification.

(** the count of the files scanned and of those excluded *)
Definition scanned_of (w : World) : Z := Counter.get (total_files_scanned (eng w)).
Definition excluded_of (w : World) : Z := Counter.get (total_files_excluded (eng w)).

(** the names of the entries that [is_file] says are files *)
Definition file_names (entries : list DirEntry) : list string :=
  de_name <$> filter (λ entry, is_ok_true (de_is_file entry)) entries.

(** the counters of descriptors opened and closed, and those open *)
Definition fd_balance (w : World) : Z * Z :=
  let t := fd_tracker (eng w) in
  (_count t, (Counter.get (_opened_count t) - Counter.get (_closed_count t))%Z).

(** from a tracker that counts no descriptor below zero, the
    descriptors open and the balance of the two counters are the same *)
Definition balanced (w w' : World) : Prop :=
  (0 ≤ _count (fd_tracker (eng w)))%Z → fd_balance w' = fd_balance w.

(** the engine without its two counters of scanned and excluded files *)
Definition but_scan_counters (e : Engine) : Engine :=
  set_total_files_scanned (mkCounter 0) (set_total_files_excluded (mkCounter 0) e).

(** some attempt below [max_retries] launches the file *)
Definition launches (w : World) (filename : string) : Prop :=
  ∃ attempt, attempt < max_retries (config (eng w)) ∧
             launch (env w) (entry_path w filename) attempt = Ok true.

(** the record that [run] writes after the attempt on [selected_file] *)
Definition recorded (success : bool) (selected_file now : string) (history : History)
  : History :=
  update_statistics success selected_file now
    (record_outcome success selected_file history).

(** a key that [x] has keeps its value in [y] *)
Definition kept {A} (x y : option A) : Prop := ∀ v, x = Some v → y = Some v.

(** the statistics [s'] have every key of [s], with its value *)
Definition statistics_kept (s s' : Statistics) : Prop :=
  kept (total_opened s) (total_opened s') ∧ kept (total_failed s) (total_failed s') ∧
  kept (last_reset s) (last_reset s') ∧ kept (reset_count s) (reset_count s') ∧
  kept (last_opened s) (last_opened s') ∧
  kept (last_opened_file s) (last_opened_file s') ∧
  kept (cleaned_opened s) (cleaned_opened s') ∧
  kept (cleaned_failed s) (cleaned_failed s') ∧
  kept (total_resets s) (total_resets s').

(** the record [h'] has every key of [h], with its value *)
Definition history_kept (h h' : History) : Prop :=
  kept (opened_files h) (opened_files h') ∧ kept (failed_files h) (failed_files h') ∧
  kept (file_signatures h) (file_signatures h') ∧
  ∀ s, statistics h = Some s → ∃ s', statistics h' = Some s' ∧ statistics_kept s s'.

(** the capacities of the five caches *)
Definition capacities (cs : Caches) : Z * Z * Z * Z * Z :=
  (max_size (_file_hash_cache cs), max_size (_exclude_patterns_cache cs),
   max_size (_encoding_cache cs), max_size (_file_access_cache cs),
   max_size (_file_type_cache cs)).

(** the five caches hold nothing *)
Definition caches_empty (cs : Caches) : Prop :=
  _cache (_file_hash_cache cs) = [] ∧ _cache (_exclude_patterns_cache cs) = [] ∧
  _cache (_encoding_cache cs) = [] ∧ _cache (_file_access_cache cs) = [] ∧
  _cache (_file_type_cache cs) = [].

(** the hash cache was built by the constructor and used through its
    methods *)
Definition hash_cache_reachable (w : World) : Prop :=
  ∃ n c0 ops, LRU.init n = Some c0 ∧ _file_hash_cache (caches (eng w)) = LRU.run ops c0.

(** the bytes that a sampling hash reads at most: the head, eight
    samples and the tail *)
Definition sampling_budget : Z := 65536 + 8 * 16384 + 65536.

(** the invariant of a tracker: it counts no descriptor below zero and
    no more than its maximum, which is no more than the descriptors
    opened; and it counts at least the balance of the two counters *)
Definition tracker_inv (t : FileDescriptorTracker) : Prop :=
  (0 ≤ _count t ∧ _count t ≤ _max_count t ∧
   _max_count t ≤ Counter.get (_opened_count t) ∧
   0 ≤ Counter.get (_closed_count t) ∧
   Counter.get (_opened_count t) - Counter.get (_closed_count t) ≤ _count t)%Z.

(** the two calls on the file system that a lookup of a hash makes *)
Definition lookup_calls (path : string) : list FsCall :=
  [mkCall "stat" path; mkCall "exists" path].

(** ** More of the small installation *)

Module Scenario.

(** a directory that cannot be listed *)
Definition unlistable : FileSystem :=
mkFs true (Ok true) (Raise "PermissionError") Demo.files NoFile ∅
     None None None None None [].

(** a disk on which the history file cannot be replaced *)
Definition read_only (d : DiskFile) : FileSystem :=
mkFs true (Ok true) (Ok Demo.listing) Demo.files d ∅
     None None None (Some "PermissionError") None [].

(** a launcher that works at the second attempt *)
Definition stubborn : Env :=
mkEnv (clock Demo.environment) (now_iso Demo.environment) 0 4242 "/" 1
      (fun _ attempt => if decide (attempt = 1) then Ok true else Raise "OSError").

(** an installation that tracks a temporary file left on disk *)
Definition littered : World :=
mkWorld
  (set_temp_files {["/d/.file_opener_history.json.tmp.1.1"]} Demo.engine)
  (set_temp_disk {["/d/.file_opener_history.json.tmp.1.1"]} (Demo.disk NoFile))
  Demo.environment.

(** the hash of [a.txt] is in the cache *)
Definition cached_hash_world : World :=
mkWorld (Demo.engine_of Demo.cfg None 0%Qc
           [(("/d/a.txt", 5%Z, Qc_of_Z 10), "0123abcd")])
        (Demo.disk NoFile) Demo.environment.

Definition fd_events : list Tracker.event :=
[Tracker.Open; Tracker.Open; Tracker.Close; Tracker.Open; Tracker.Close].

End Scenario.

(* ===================================================================== *)
(** * Proofs *)
(* ===================================================================== *)

Set Warnings "-clear-no-such-hyp".

(** unfolds the plumbing of the monad *)
Ltac munfold :=
  unfold bind, ret, raise, gets, modify, lift, try_except, try_finally, fs_call in *.

(** ** hashlib.sha256 on the test vectors of FIPS 180-4 *)

Example sha256_of_empty :
  Sha256.hexdigest []
    = "e3b0c44298fc1c149afbf4c8996fb92427ae41e4649b934ca495991b7852b855".
Proof. vm_compute. reflexivity. Qed.

Example sha256_of_abc :
  Sha256.hexdigest (list_byte_of_string "abc")
    = "ba7816bf8f01cfea414140de5dae2223b00361a396177a9cb410ff61f20015ad".
Proof. vm_compute. reflexivity. Qed.

Example sha256_of_two_blocks :
  Sha256.hexdigest
    (list_byte_of_string "abcdbcdecdefdefgefghfghighijhijkijkljklmklmnlmnomnopnopq")
    = "248d6a61d20638b8e5c026930c3e6039a33ce45964ff2167f6ecedd419db06c1".
Proof. vm_compute. reflexivity. Qed.

(* ===================================================================== *)
(** * Facts on OrderedDict and SimpleLRUCache *)
(* ===================================================================== *)

Section OrderedDictFacts.
Context {K V : Type} `{EqDecision K}.
Implicit Types (d : list (K * V)) (k key : K).

Lemma od_contains_spec key d : od_contains key d = true ↔ key ∈ d.*1.
Proof. unfold od_contains. by rewrite bool_decide_eq_true. Qed.

Lemma od_contains_false key d : od_contains key d = false ↔ key ∉ d.*1.
Proof. unfold od_contains. by rewrite bool_decide_eq_false. Qed.

(** a present key splits the dictionary: [del] takes it out and leaves
    the order of the others *)
Lemma od_delitem_split key d :
  key ∈ d.*1 →
  ∃ l1 l2 v, d.*1 = l1 ++ key :: l2 ∧ (od_delitem key d).*1 = l1 ++ l2
             ∧ od_getitem key d = Some v.
Proof.
  induction d as [|[k v] d IH]; simpl; [by intros ?%elem_of_nil|].
  intros Hin. case_decide as Heq.
  - subst k. by exists [], d.*1, v.
  - apply elem_of_cons in Hin as [->|Hin]; [done|].
    destruct (IH Hin) as (l1 & l2 & v' & Hd & Hdel & Hget).
    exists (k :: l1), l2, v'. csimpl. by rewrite Hd, Hdel, Hget.
Qed.

Lemma od_delitem_absent key d : key ∉ d.*1 → od_delitem key d = d.
Proof.
  induction d as [|[k v] d IH]; simpl; [done|].
  intros [Hne Hin]%not_elem_of_cons. case_decide; [by subst|].
  f_equal. by apply IH.
Qed.

Lemma od_setitem_present key value d :
  key ∈ d.*1 → (od_setitem key value d).*1 = d.*1.
Proof.
  induction d as [|[k v] d IH]; simpl; [by intros ?%elem_of_nil|].
  intros Hin. case_decide as Heq; simpl; [by subst|].
  f_equal. apply IH. by apply elem_of_cons in Hin as [->|].
Qed.

Lemma od_setitem_absent key value d :
  key ∉ d.*1 → od_setitem key value d = d ++ [(key, value)].
Proof.
  induction d as [|[k v] d IH]; simpl; [done|].
  intros [Hne Hin]%not_elem_of_cons. case_decide; [by subst|].
  f_equal. by apply IH.
Qed.

Lemma od_move_to_end_keys key d l1 l2 :
  NoDup d.*1 → d.*1 = l1 ++ key :: l2 →
  (od_move_to_end key d).*1 = l1 ++ l2 ++ [key].
Proof.
  intros Hnd Hd.
  assert (key ∈ d.*1) as Hin by (rewrite Hd; set_solver).
  destruct (od_delitem_split key d Hin) as (l1' & l2' & v & Hd' & Hdel & Hget).
  unfold od_move_to_end. rewrite Hget, fmap_app, Hdel. simpl.
  rewrite Hd in Hd', Hnd.
  assert (l1 = l1' ∧ l2 = l2') as [-> ->]; [|by rewrite <-(assoc_L (++))].
  clear Hin Hdel Hget Hd. revert l1' Hnd Hd'.
  induction l1 as [|x l1 IH]; intros [|y l1'] Hnd Heq; simplify_eq/=.
  - done.
  - apply NoDup_cons in Hnd as [Hx _]. set_solver.
  - apply NoDup_cons in Hnd as [Hx _]. set_solver.
  - apply NoDup_cons in Hnd as [_ Hnd].
    match goal with Hl : l1 ++ _ = _ |- _ => by destruct (IH _ Hnd Hl) as [-> ->] end.
Qed.

End OrderedDictFacts.

Section LRUFacts.
Context {K V : Type} `{EqDecision K}.
Implicit Types (c : SimpleLRUCache K V) (k key e : K) (o : @LRU.op K V).

Lemma lru_run_snoc ops o c : LRU.run (ops ++ [o]) c = LRU.step o (LRU.run ops c).
Proof. unfold LRU.run. by rewrite foldl_app. Qed.

Lemma lru_last_use_bounds ops c t key u :
  LRU.last_use ops c t key = Some u → t ≤ u < t + length ops.
Proof.
  revert c t. induction ops as [|o ops IH]; intros c t; simpl; [done|].
  destruct (LRU.last_use ops _ _ _) eqn:Hr.
  - intros [= <-]. apply IH in Hr. lia.
  - case_match; intros [= <-]. lia.
Qed.

Lemma lru_last_use_snoc ops o c t key :
  LRU.last_use (ops ++ [o]) c t key =
    if LRU.uses o (LRU.run ops c) key then Some (t + length ops)
    else LRU.last_use ops c t key.
Proof.
  revert c t. induction ops as [|o' ops IH]; intros c t; simpl.
  - rewrite Nat.add_0_r. by destruct (LRU.uses o c key).
  - rewrite IH. fold (LRU.run ops (LRU.step o' c)).
    destruct (LRU.uses o _ key); [f_equal; lia|done].
Qed.

Lemma lru_inv_init n c : LRU.init n = Some c → lru_inv n (λ _, None) 0 c.
Proof.
  unfold LRU.init. case_match eqn:Hn; [done|]. intros [= <-].
  apply Z.leb_gt in Hn. repeat split; simpl; try done; try lia; constructor.
Qed.

(** the invariant stays when keys leave and the last uses of the kept
    keys stay *)
Lemma keys_inv_keep n lu lu' now now' ks ks' :
  ks' `sublist_of` ks → now ≤ now' →
  (∀ k, k ∈ ks' → lu' k = lu k) →
  keys_inv n lu now ks → keys_inv n lu' now' ks'.
Proof.
  intros Hsub Hnow Hsame (Hnd & Hlen & Hs & Hf). split_and!.
  - by eapply sublist_NoDup.
  - apply sublist_length in Hsub. lia.
  - assert (StronglySorted (LRU.older lu) ks') as Hs'.
    { clear Hsame Hf Hnd Hlen.
      induction Hsub as [|x l1 l2 Hsub IH|x l1 l2 Hsub IH].
      - constructor.
      - apply StronglySorted_cons in Hs as [Hx Hs]. apply StronglySorted_cons.
        split; [|by apply IH]. apply Forall_forall. intros y Hy.
        rewrite Forall_forall in Hx. apply Hx. by eapply elem_of_sublist.
      - apply StronglySorted_cons in Hs as [_ Hs]. by apply IH. }
    clear Hsub Hs Hf Hnd Hlen. induction Hs' as [|x l Hs' IH Hx]; [constructor|].
    apply StronglySorted_cons. split.
    + apply Forall_forall. intros y Hy. rewrite Forall_forall in Hx.
      destruct (Hx y Hy) as (t1 & t2 & ? & ? & ?). exists t1, t2.
      rewrite !Hsame; [done|set_solver..].
    + apply IH. intros k ?. apply Hsame. set_solver.
  - apply Forall_forall. intros k Hk.
    rewrite Forall_forall in Hf. destruct (Hf k) as (t & ? & ?).
    { by eapply elem_of_sublist. }
    exists t. rewrite Hsame by done. split; [done|lia].
Qed.

(** ... and when, besides, a key used now is put last *)
Lemma keys_inv_touch n lu lu' now ks ks' key :
  ks' `sublist_of` ks → key ∉ ks' →
  (Z.of_nat (length ks') + 1 ≤ n)%Z →
  (∀ k, k ∈ ks' → lu' k = lu k) → lu' key = Some now →
  keys_inv n lu now ks → keys_inv n lu' (S now) (ks' ++ [key]).
Proof.
  intros Hsub Hkey Hlen' Hsame Hnow Hinv.
  destruct (keys_inv_keep n lu lu' now now ks ks' Hsub (le_n _) Hsame Hinv)
    as (Hnd & _ & Hs & Hf).
  split_and!.
  - apply NoDup_app. split_and!; [done| |apply NoDup_singleton].
    by intros x Hx ->%list_elem_of_singleton.
  - rewrite length_app. simpl. lia.
  - apply StronglySorted_app. split_and!; [|done|repeat constructor].
    intros x1 x2 Hx1 ->%list_elem_of_singleton.
    rewrite Forall_forall in Hf. destruct (Hf x1 Hx1) as (t & ? & ?).
    by exists t, now.
  - apply Forall_app. split.
    + eapply Forall_impl; [done|]. intros k (t & ? & ?). exists t. split; [done|lia].
    + repeat constructor. exists now. split; [done|lia].
Qed.

Lemma lru_get_keys key c l1 l2 :
  NoDup (LRU.keys c) → LRU.keys c = l1 ++ key :: l2 →
  LRU.keys (LRU.get key c).2 = (l1 ++ l2) ++ [key].
Proof.
  intros Hnd Hk. unfold LRU.get.
  assert (od_contains key (_cache c) = true) as ->.
  { apply od_contains_spec. unfold LRU.keys, od_keys in Hk. rewrite Hk. set_solver. }
  simpl. unfold LRU.keys, od_keys. simpl.
  rewrite (od_move_to_end_keys key _ l1 l2) by done. by rewrite (assoc_L (++)).
Qed.

(** the keys after [put], case by case *)
Lemma lru_put_keys key value c :
  NoDup (LRU.keys c) → (0 < max_size c)%Z →
  (∃ l1 l2, LRU.keys c = l1 ++ key :: l2 ∧
            LRU.keys (LRU.put key value c) = (l1 ++ l2) ++ [key]) ∨
  ((key ∉ LRU.keys c) ∧ (max_size c ≤ Z.of_nat (length (LRU.keys c)))%Z ∧
   (∃ h tl, LRU.keys c = h :: tl ∧ LRU.keys (LRU.put key value c) = tl ++ [key])) ∨
  ((key ∉ LRU.keys c) ∧ (Z.of_nat (length (LRU.keys c)) < max_size c)%Z ∧
   LRU.keys (LRU.put key value c) = LRU.keys c ++ [key]).
Proof.
  intros Hnd Hpos. unfold LRU.put, LRU.keys, od_keys in *. simpl.
  destruct (od_contains key (_cache c)) eqn:Hc.
  - left. apply od_contains_spec in Hc.
    destruct (od_delitem_split key _ Hc) as (l1 & l2 & v & Hd & _ & _).
    exists l1, l2. split; [done|].
    rewrite od_setitem_present.
    + rewrite (od_move_to_end_keys key _ l1 l2) by done. by rewrite (assoc_L (++)).
    + rewrite (od_move_to_end_keys key _ l1 l2) by done. set_solver.
  - right. apply od_contains_false in Hc.
    rewrite length_fmap. destruct (_ <=? _)%Z eqn:Hfull.
    + left. apply Z.leb_le in Hfull. split_and!; [done..|].
      destruct (_cache c) as [|[h v] tl] eqn:Hd; simpl in *; [lia|].
      exists h, tl.*1. split; [done|].
      rewrite od_setitem_absent by set_solver. by rewrite fmap_app.
    + right. apply Z.leb_gt in Hfull. split_and!; [done..|].
      rewrite od_setitem_absent by done. by rewrite fmap_app.
Qed.

Lemma lru_inv_step n ops c0 o :
  lru_inv n (LRU.last_use ops c0 0) (length ops) (LRU.run ops c0) →
  lru_inv n (LRU.last_use (ops ++ [o]) c0 0) (S (length ops)) (LRU.run (ops ++ [o]) c0).
Proof.
  rewrite lru_run_snoc. set (c := LRU.run ops c0). set (lu := LRU.last_use ops c0 0).
  intros (Hmax & Hpos & Hinv).
  assert (∀ k, LRU.last_use (ops ++ [o]) c0 0 k =
               if LRU.uses o c k then Some (length ops) else lu k) as Hlu.
  { intros k. by rewrite lru_last_use_snoc. }
  pose proof Hinv as (Hnd & Hlen & _ & _).
  destruct o as [key|key value|key|]; simpl.
  - (* get *)
    destruct (od_contains key (_cache c)) eqn:Hc.
    + pose proof Hc as Hin. apply od_contains_spec in Hin.
      destruct (od_delitem_split key _ Hin) as (l1 & l2 & v & Hd & _ & _).
      fold (od_keys (_cache c)) in Hd. fold (LRU.keys c) in Hd.
      split_and!.
      { unfold LRU.get. by rewrite Hc. }
      { done. }
      rewrite (lru_get_keys key c l1 l2) by done.
      rewrite Hd in Hnd.
      eapply keys_inv_touch; [| | | | |exact Hinv].
      * rewrite Hd. apply sublist_app; [done|]. by apply sublist_cons.
      * apply NoDup_app in Hnd as (_ & Hn1 & Hn2%NoDup_cons).
        intros [?|?]%elem_of_app; [|naive_solver]. eapply Hn1; [done|set_solver].
      * rewrite Hd in Hlen. rewrite !length_app in *. simpl in *. lia.
      * intros k Hk. rewrite Hlu. simpl. rewrite Hc, andb_true_r.
        rewrite bool_decide_eq_false_2; [done|]. intros ->.
        apply NoDup_app in Hnd as (_ & Hn1 & Hn2%NoDup_cons).
        apply elem_of_app in Hk as [?|?]; [|naive_solver]. eapply Hn1; [done|set_solver].
      * rewrite Hlu. simpl. by rewrite Hc, bool_decide_eq_true_2.
    + split_and!.
      { unfold LRU.get. by rewrite Hc. }
      { done. }
      unfold LRU.get. rewrite Hc. simpl.
      eapply keys_inv_keep; [done| |..|exact Hinv]; [lia|].
      intros k _. rewrite Hlu. simpl. by rewrite Hc, andb_false_r.
  - (* put *)
    split_and!; [done..|].
    assert (∀ k, k ≠ key → LRU.last_use (ops ++ [LRU.Put key value]) c0 0 k = lu k)
      as Hother.
    { intros k Hk. rewrite Hlu. simpl. by rewrite bool_decide_eq_false_2. }
    assert (LRU.last_use (ops ++ [LRU.Put key value]) c0 0 key = Some (length ops))
      as Hkey.
    { rewrite Hlu. simpl. by rewrite bool_decide_eq_true_2. }
    destruct (lru_put_keys key value c Hnd) as
      [(l1 & l2 & Hd & ->)|[(Hout & Hfull & h & tl & Hd & ->)|(Hout & Hroom & ->)]];
      [lia|..].
    + rewrite Hd in Hnd.
      eapply keys_inv_touch; [| | | |exact Hkey|exact Hinv].
      * rewrite Hd. apply sublist_app; [done|]. by apply sublist_cons.
      * apply NoDup_app in Hnd as (_ & Hn1 & Hn2%NoDup_cons).
        intros [?|?]%elem_of_app; [|naive_solver]. eapply Hn1; [done|set_solver].
      * rewrite Hd in Hlen. rewrite !length_app in *. simpl in *. lia.
      * intros k Hk. apply Hother. intros ->.
        apply NoDup_app in Hnd as (_ & Hn1 & Hn2%NoDup_cons).
        apply elem_of_app in Hk as [?|?]; [|naive_solver]. eapply Hn1; [done|set_solver].
    + eapply keys_inv_touch; [| | | |exact Hkey|exact Hinv].
      * rewrite Hd. by apply sublist_cons.
      * rewrite Hd in Hout. set_solver.
      * rewrite Hd in Hlen. simpl in *. lia.
      * intros k Hk. apply Hother. intros ->. rewrite Hd in Hout. set_solver.
    + eapply keys_inv_touch; [done|done| | |exact Hkey|exact Hinv].
      * lia.
      * intros k Hk. apply Hother. by intros ->.
  - (* remove *)
    unfold LRU.remove. destruct (od_contains key (_cache c)) eqn:Hc; simpl.
    + apply od_contains_spec in Hc.
      destruct (od_delitem_split key _ Hc) as (l1 & l2 & v & Hd & Hdel & _).
      split_and!; [done..|]. unfold LRU.keys, od_keys in *. simpl. rewrite Hdel.
      eapply keys_inv_keep; [| | |exact Hinv].
      * rewrite Hd. apply sublist_app; [done|]. by apply sublist_cons.
      * lia.
      * intros k _. by rewrite Hlu.
    + split_and!; [done..|].
      eapply keys_inv_keep; [done| | |exact Hinv]; [lia|].
      intros k _. by rewrite Hlu.
  - (* clear *)
    split_and!; [done..|]. unfold LRU.keys, od_keys. simpl.
    split_and!; [apply NoDup_nil_2|simpl; lia|constructor|constructor].
Qed.

Lemma lru_inv_run n c0 ops :
  LRU.init n = Some c0 →
  lru_inv n (LRU.last_use ops c0 0) (length ops) (LRU.run ops c0).
Proof.
  intros Hinit. induction ops as [|o ops IH] using rev_ind.
  - by apply lru_inv_init.
  - rewrite length_app, Nat.add_1_r. by apply lru_inv_step.
Qed.

(** C7. A cache built with capacity [n] never holds more than [n]
    entries, whatever calls ([get], [put], [remove], [clear]) are made on
    it; and a [put] that evicts a key finds the cache full, inserts a new
    key, and evicts the key whose last use (a [get] that hit or a [put])
    is older than that of every other cached key. *)
Theorem lru_bounded_and_evicts_least_recent
    (n : Z) (c0 : SimpleLRUCache K V) (ops : list (@LRU.op K V)) :
  LRU.init n = Some c0 →
  (LRU.size (LRU.run ops c0) ≤ n)%Z ∧
  ∀ key value e,
    LRU.evicts key value (LRU.run ops c0) e →
    LRU.size (LRU.run ops c0) = n ∧
    (key ∉ LRU.keys (LRU.run ops c0)) ∧
    ∀ k, k ∈ LRU.keys (LRU.run ops c0) → k ≠ e →
         LRU.older (LRU.last_use ops c0 0) e k.
Proof.
  intros Hinit.
  destruct (lru_inv_run n c0 ops Hinit) as (Hmax & Hpos & Hnd & Hlen & Hs & _).
  set (c := LRU.run ops c0) in *.
  assert (LRU.size c = Z.of_nat (length (LRU.keys c))) as Hsize.
  { unfold LRU.size, LRU.keys, od_keys. by rewrite length_fmap. }
  split; [lia|].
  intros key value e [Hin Hout].
  destruct (lru_put_keys key value c Hnd) as
    [(l1 & l2 & Hd & Hk)|[(Hnew & Hfull & h & tl & Hd & Hk)|(Hnew & Hroom & Hk)]];
    [lia|..]; rewrite Hk in Hout.
  - exfalso. apply Hout. rewrite Hd in Hin. set_solver.
  - rewrite Hd in Hin, Hs.
    assert (e = h) as -> by set_solver.
    split_and!; [lia|done|].
    intros k Hk' Hne. rewrite Hd in Hk'.
    apply StronglySorted_cons in Hs as [Hh _]. rewrite Forall_forall in Hh.
    apply Hh. set_solver.
  - exfalso. apply Hout. set_solver.
Qed.

End LRUFacts.

Lemma available_loop_filter files (opened failed acc : list string) :
  available_loop files (list_to_set opened) (list_to_set failed) acc =
    acc ++ filter (λ f, (f ∉ opened) ∧ (f ∉ failed)) files.
Proof.
  revert acc. induction files as [|f files IH]; intros acc; simpl.
  - by rewrite app_nil_r.
  - destruct (decide (f ∈ opened)) as [Ho|Ho].
    + rewrite bool_decide_eq_true_2 by set_solver. simpl.
      rewrite filter_cons_False by tauto. apply IH.
    + rewrite (bool_decide_eq_false_2 (f ∈ list_to_set opened)) by set_solver. simpl.
      destruct (decide (f ∈ failed)) as [Hf|Hf].
      * rewrite bool_decide_eq_true_2 by set_solver.
        rewrite filter_cons_False by tauto. apply IH.
      * rewrite bool_decide_eq_false_2 by set_solver.
        rewrite filter_cons_True by tauto. rewrite IH.
        by rewrite <-(assoc_L (++)).
Qed.

Section ScannerFacts.
Variable fnmatch : string -> string -> bool.

Lemma tick_eng w : eng (tick w) = eng w.
Proof. done. Qed.
Lemma tick_fs w : fs (tick w) = fs w.
Proof. done. Qed.

(** C8. With a cached qualified set and no forced refresh, a scan made
    while the age of the cache is strictly below [cache_ttl] returns the
    cached list, success and no error; the engine and the file system
    (the trace of the calls made on it included) are as before, only the
    clock was read. *)
Theorem scan_cache_hit (w : World) (cached : list string) :
  _qualified_files_cache (eng w) = Some cached →
  (clock (env w) (clock_reads (env w)) - _cache_timestamp (eng w)
     < Qc_of_Z (cache_ttl (config (eng w))))%Qc →
  scan_qualified_files fnmatch false w = (Ok (cached, true, None), tick w)
  ∧ eng (tick w) = eng w
  ∧ fs (tick w) = fs w.
Proof.
  intros Hcache Hage. split; [|done].
  unfold scan_qualified_files, time_time. munfold. simpl.
  unfold cache_is_fresh. rewrite Hcache. simpl.
  by rewrite (bool_decide_eq_true_2 _ Hage).
Qed.

(** C1. When the scan succeeds, [get_available_files] returns the
    qualified filenames that are neither in [opened_files] nor in
    [failed_files] of the loaded record, in the order of the scan,
    together with that record, success and no error. *)
Theorem get_available_files_spec (w w1 w2 : World) (history : History)
    (qualified : list string) (msg : option string) :
  load_history w = (Ok history, w1) →
  scan_qualified_files fnmatch false w1 = (Ok (qualified, true, msg), w2) →
  get_available_files fnmatch w =
    (Ok (filter (λ f, (f ∉ opened_of history) ∧ (f ∉ failed_of history)) qualified,
         history, true, None), w2).
Proof.
  intros Hload Hscan. unfold get_available_files. munfold.
  rewrite Hload, Hscan. simpl.
  by rewrite available_loop_filter.
Qed.

End ScannerFacts.

Section ExclusionFacts.
Variable fnmatch : string -> string -> bool.

Lemma pattern_excludes_code filename pattern :
  pattern_excludes fnmatch filename pattern = code_pattern_matches fnmatch filename pattern.
Proof.
  unfold pattern_excludes, code_pattern_matches, has_wildcard.
  destruct (PyStr.truthy pattern); simpl; [|done].
  destruct (PyStr.startswith pattern "*."); [done|].
  destruct (PyStr.contains filename pattern); [done|]. simpl.
  by destruct (_ || _).
Qed.

Lemma exclude_patterns_loop_existsb patterns filename :
  exclude_patterns_loop fnmatch patterns filename =
    existsb (code_pattern_matches fnmatch filename) patterns.
Proof.
  induction patterns as [|p patterns IH]; simpl; [done|].
  rewrite pattern_excludes_code, IH. by destruct (code_pattern_matches _ _ _).
Qed.

(** the loop returns at the first pattern that matches *)
Lemma exclude_patterns_loop_first patterns filename :
  exclude_patterns_loop fnmatch patterns filename = true ↔
  ∃ before pattern after,
    patterns = before ++ pattern :: after ∧
    Forall (λ p, code_pattern_matches fnmatch filename p = false) before ∧
    code_pattern_matches fnmatch filename pattern = true.
Proof.
  induction patterns as [|p patterns IH]; simpl.
  - split; [done|]. intros (b & p & a & Heq & _). by destruct b.
  - rewrite pattern_excludes_code.
    destruct (code_pattern_matches fnmatch filename p) eqn:Hp.
    + split; [|done]. intros _. exists [], p, patterns. by repeat split.
    + rewrite IH. split.
      * intros (b & q & a & -> & Hb & Hq). exists (p :: b), q, a.
        split_and!; [done| |done]. by constructor.
      * intros (b & q & a & Heq & Hb & Hq). destruct b as [|p' b]; simplify_eq/=.
        { congruence. }
        apply Forall_cons in Hb as [_ Hb]. by exists b, q, a.
Qed.


End ExclusionFacts.

Section HistoryStoreFacts.

Lemma repair_history_well_formed h : well_formed_history h → repair_history h = h.
Proof.
  destruct h as [o f g s]. unfold well_formed_history. simpl.
  intros ([? ->] & [? ->] & [? ->] & st & -> & Hs).
  destruct st as [a b c d e f' g' h' i]. unfold complete_statistics in Hs.
  simpl in Hs.
  destruct Hs as ([? ->] & [? ->] & [? ->] & [? ->] & [? ->] & [? ->] & [? ->]
                  & [? ->] & [? ->]).
  done.
Qed.

(** [load_history] does not raise *)
Lemma load_history_ok w : ∃ h w', load_history w = (Ok h, w').
Proof.
  unfold load_history. munfold. simpl.
  destruct (history_disk (fs w)); simpl; eauto.
Qed.

Lemma load_history_dict w h :
  history_disk (fs w) = JsonDict h →
  (load_history w).1 = Ok (repair_history h).
Proof.
  intros Hd. unfold load_history. munfold. simpl. by rewrite Hd.
Qed.

Lemma remove_temp_file_spec temp_file w :
  ∃ w', remove_temp_file temp_file w = (Ok tt, w')
        ∧ history_disk (fs w') = history_disk (fs w).
Proof.
  unfold remove_temp_file, faulty. munfold. simpl.
  destruct (bool_decide (temp_file ∈ temp_disk (fs w))); simpl; [|by eexists].
  destruct (fault_remove (fs w)); simpl; by eexists.
Qed.

(** [save_history] does not raise; the history file is left as it was
    or holds the record, and holds the record when no step fails *)
Lemma save_history_spec h w :
  ∃ w', save_history h w = (Ok tt, w')
        ∧ (history_disk (fs w') = history_disk (fs w)
           ∨ history_disk (fs w') = JsonDict h)
        ∧ (save_succeeds (fs w) → history_disk (fs w') = JsonDict h).
Proof.
  unfold save_history, faulty, time_time. munfold. simpl.
  destruct (fault_mkdir (fs w)) eqn:Hm; simpl.
  { eexists. split_and!; [done|by left|]. intros (? & _). congruence. }
  destruct (fault_create (fs w)) eqn:Hc; simpl.
  { match goal with |- context [remove_temp_file ?t ?w0] =>
      destruct (remove_temp_file_spec t w0) as (w' & -> & Hd) end.
    eexists. split_and!; [done|by left|]. intros (_ & ? & _). congruence. }
  destruct (fault_write (fs w)) eqn:Hw; simpl.
  { match goal with |- context [remove_temp_file ?t ?w0] =>
      destruct (remove_temp_file_spec t w0) as (w' & -> & Hd) end.
    eexists. split_and!; [done|by left|]. intros (_ & _ & ? & _). congruence. }
  destruct (fault_replace (fs w)) eqn:Hr; simpl.
  { match goal with |- context [remove_temp_file ?t ?w0] =>
      destruct (remove_temp_file_spec t w0) as (w' & -> & Hd) end.
    eexists. split_and!; [done|by left|]. intros (_ & _ & _ & ?). congruence. }
  match goal with |- context [remove_temp_file ?t ?w0] =>
    destruct (remove_temp_file_spec t w0) as (w' & -> & Hd) end.
  eexists. split_and!; [done|by right|done].
Qed.


End HistoryStoreFacts.

Section ResetFacts.
Variable fnmatch : string -> string -> bool.

Lemma invalidate_caches_spec e :
  _qualified_files_cache (invalidate_caches e) = None ∧
  caches_cleared (caches (invalidate_caches e)).
Proof. by repeat split. Qed.

(** C2. [reset_history_if_needed] returns its arguments, and does
    nothing, when files are available.  With no file available it scans
    the directory with [force_refresh]; when that scan fails or finds no
    qualified file it returns its arguments.  When the scan finds
    qualified files it returns them with a new record whose two lists
    and signatures are empty and whose statistics are the old ones with
    [reset_count] and [total_resets] one higher and [last_reset] set to
    the time of the reset; the new record was handed to [save_history]
    (and is on disk when no step of the save fails), the cached
    qualified set is gone and the five caches are cleared. *)
Theorem reset_history_if_needed_spec (history : History) (w : World) :
  (∀ a l, reset_history_if_needed fnmatch history (a :: l) w
          = (Ok (a :: l, history), w)) ∧
  (∀ qualified ok msg w1,
     scan_qualified_files fnmatch true w = (Ok (qualified, ok, msg), w1) →
     (ok = false ∨ qualified = [] →
      reset_history_if_needed fnmatch history [] w = (Ok ([], history), w1)) ∧
     (ok = true → qualified ≠ [] →
      ∃ new_history stats w2 w3,
        reset_history_if_needed fnmatch history [] w
          = (Ok (qualified, new_history), w3) ∧
        new_history = mkHistory (Some []) (Some []) (Some ∅) (Some stats) ∧
        reset_count stats = Some (default 0 (reset_count (stats_of history)) + 1)%Z ∧
        total_resets stats = Some (default 0 (total_resets (stats_of history)) + 1)%Z ∧
        last_reset stats = Some (PyStr (now_iso (env w1) (clock_reads (env w1)))) ∧
        total_opened stats = total_opened (stats_of history) ∧
        total_failed stats = total_failed (stats_of history) ∧
        last_opened stats = last_opened (stats_of history) ∧
        last_opened_file stats = last_opened_file (stats_of history) ∧
        save_history new_history (tick w1) = (Ok tt, w2) ∧
        w3 = with_eng invalidate_caches w2 ∧
        (save_succeeds (fs w1) → history_disk (fs w3) = JsonDict new_history) ∧
        _qualified_files_cache (eng w3) = None ∧
        caches_cleared (caches (eng w3)))).
Proof.
  split; [done|].
  intros qualified ok msg w1 Hscan. split.
  - intros Hno. unfold reset_history_if_needed. munfold. rewrite Hscan. simpl.
    destruct ok; simpl; [|done]. by destruct Hno as [?| ->].
  - intros -> Hq. destruct qualified as [|q qs]; [done|].
    set (now := now_iso (env w1) (clock_reads (env w1))).
    set (stats := reset_statistics (stats_of history) now).
    set (new_history := mkHistory (Some []) (Some []) (Some ∅) (Some stats)).
    destruct (save_history_spec new_history (tick w1)) as (w2 & Hsave & _ & Hdisk).
    exists new_history, stats, w2, (with_eng invalidate_caches w2).
    split_and!; try done.
    unfold reset_history_if_needed, datetime_now_isoformat. munfold.
    rewrite Hscan. simpl. fold now. fold stats. fold new_history.
    by rewrite Hsave.
Qed.

End ResetFacts.

(** ** Methods that leave the history file alone *)

Section KeepsHistory.
Context {A B : Type}.

Lemma keeps_ret (a : A) : keeps_history (ret a).
Proof. by intros w r w' [= _ <-]. Qed.
Lemma keeps_raise e : keeps_history (@raise A e).
Proof. by intros w r w' [= _ <-]. Qed.
Lemma keeps_gets (f : World → A) : keeps_history (gets f).
Proof. by intros w r w' [= _ <-]. Qed.
Lemma keeps_lift (r : result A) : keeps_history (lift r).
Proof. by intros w r' w' [= _ <-]. Qed.
Lemma keeps_modify (f : World → World) :
  (∀ w, history_disk (fs (f w)) = history_disk (fs w)) → keeps_history (modify f).
Proof. intros Hf w r w' [= _ <-]. apply Hf. Qed.
Lemma keeps_bind (m : M A) (k : A → M B) :
  keeps_history m → (∀ a, keeps_history (k a)) → keeps_history (bind m k).
Proof.
  intros Hm Hk w r w'. unfold bind. destruct (m w) as [[a|e] w1] eqn:Hmw.
  - intros Hka. rewrite (Hk _ _ _ _ Hka). eauto.
  - intros [= _ <-]. eauto.
Qed.
Lemma keeps_try_except (m : M A) (h : string → M A) :
  keeps_history m → (∀ e, keeps_history (h e)) → keeps_history (try_except m h).
Proof.
  intros Hm Hh w r w'. unfold try_except. destruct (m w) as [[a|e] w1] eqn:Hmw.
  - intros [= _ <-]. eauto.
  - intros Hhe. rewrite (Hh _ _ _ _ Hhe). eauto.
Qed.
Lemma keeps_try_finally (m : M A) (f : M unit) :
  keeps_history m → keeps_history f → keeps_history (try_finally m f).
Proof.
  intros Hm Hf w r w'. unfold try_finally. destruct (m w) as [r1 w1] eqn:Hmw.
  destruct (f w1) as [[u|e] w2] eqn:Hfw; intros [= _ <-];
    rewrite (Hf _ _ _ Hfw); eauto.
Qed.
End KeepsHistory.

(** a method is taken apart along its structure *)
#[local] Hint Resolve keeps_ret keeps_raise keeps_gets keeps_lift keeps_modify
  keeps_bind keeps_try_except keeps_try_finally : keeps.
#[local] Hint Extern 0 (history_disk _ = history_disk _) => reflexivity : keeps.
#[local] Hint Extern 1 (keeps_history (if ?b then _ else _)) => destruct b : keeps.
#[local] Hint Extern 1 (keeps_history (match ?x with _ => _ end)) => destruct x : keeps.

Section RunFacts.
Variable fnmatch : string -> string -> bool.

Lemma keeps_fs_call name path : keeps_history (fs_call name path).
Proof. unfold fs_call. eauto with keeps. Qed.
Hint Resolve keeps_fs_call : keeps.

Lemma keeps_time_time : keeps_history time_time.
Proof. unfold time_time. eauto 10 with keeps. Qed.
Lemma keeps_datetime_now : keeps_history datetime_now_isoformat.
Proof. unfold datetime_now_isoformat. eauto 10 with keeps. Qed.
Hint Resolve keeps_time_time keeps_datetime_now : keeps.

Lemma keeps_path_exists path : keeps_history (path_exists path).
Proof. unfold path_exists. eauto 10 with keeps. Qed.
Lemma keeps_path_is_file path : keeps_history (path_is_file path).
Proof. unfold path_is_file. eauto 10 with keeps. Qed.
Lemma keeps_os_access path : keeps_history (os_access path).
Proof. unfold os_access. eauto 10 with keeps. Qed.
Lemma keeps_path_is_symlink path : keeps_history (path_is_symlink path).
Proof. unfold path_is_symlink. eauto 10 with keeps. Qed.
Hint Resolve keeps_path_exists keeps_path_is_file keeps_os_access
  keeps_path_is_symlink : keeps.

Lemma keeps_check_accessible path : keeps_history (check_accessible path).
Proof. unfold check_accessible. eauto 30 with keeps. Qed.
Hint Resolve keeps_check_accessible : keeps.

Lemma keeps_should_exclude filename filepath :
  keeps_history (should_exclude fnmatch filename filepath).
Proof. unfold should_exclude. eauto 20 with keeps. Qed.
Hint Resolve keeps_should_exclude : keeps.

Lemma keeps_scan_entries entries qualified :
  keeps_history (scan_entries fnmatch entries qualified).
Proof.
  revert qualified. induction entries as [|entry rest IH]; intros qualified; simpl;
    eauto 30 with keeps.
Qed.
Hint Resolve keeps_scan_entries : keeps.

Lemma keeps_scan_directory : keeps_history (scan_directory fnmatch).
Proof.
  unfold scan_directory, os_access_dir, script_dir_exists, os_scandir.
  eauto 40 with keeps.
Qed.
Hint Resolve keeps_scan_directory : keeps.

Lemma keeps_scan_qualified_files force :
  keeps_history (scan_qualified_files fnmatch force).
Proof. unfold scan_qualified_files. eauto 30 with keeps. Qed.
Hint Resolve keeps_scan_qualified_files : keeps.

Lemma keeps_show_statistics history : keeps_history (show_statistics fnmatch history).
Proof. unfold show_statistics. eauto 20 with keeps. Qed.

Lemma keeps_retry_loop attempts filename : keeps_history (retry_loop attempts filename).
Proof.
  induction attempts as [|a rest IH]; simpl; unfold launch_file; eauto 20 with keeps.
Qed.
Hint Resolve keeps_retry_loop : keeps.

Lemma keeps_open_file_with_retry filename :
  keeps_history (open_file_with_retry filename).
Proof. unfold open_file_with_retry. eauto 10 with keeps. Qed.

Lemma keeps_cleanup_loop files : keeps_history (cleanup_loop files).
Proof.
  induction files as [|t rest IH]; simpl; unfold faulty; eauto 30 with keeps.
Qed.
Hint Resolve keeps_cleanup_loop : keeps.

Lemma keeps_cleanup_all_temp_files : keeps_history _cleanup_all_temp_files.
Proof. unfold _cleanup_all_temp_files. eauto 10 with keeps. Qed.

Lemma keeps_random_choice available : keeps_history (random_choice available).
Proof. unfold random_choice. eauto 10 with keeps. Qed.

Lemma keeps_load_history : keeps_history load_history.
Proof. unfold load_history. eauto 20 with keeps. Qed.

Lemma keeps_invalidate : keeps_history (modify (with_eng invalidate_caches)).
Proof. eauto with keeps. Qed.

End RunFacts.

(** ** Mutual exclusion of the two lists *)

Section Sound.
Context {A B : Type}.

Lemma sound_keeps (m : M A) : keeps_history m → sound m (λ _, True).
Proof. intros Hm w r w' Hr Hd. by rewrite (Hm _ _ _ Hr). Qed.

Lemma sound_weaken (m : M A) (Q R : A → Prop) :
  sound m Q → (∀ a, Q a → R a) → sound m R.
Proof. intros Hm HQR w r w' Hr Hd. destruct (Hm _ _ _ Hr Hd). naive_solver. Qed.

Lemma sound_ret (a : A) (Q : A → Prop) : Q a → sound (ret a) Q.
Proof. intros Ha w r w' [= <- <-] Hd. naive_solver. Qed.

Lemma sound_bind (m : M A) (k : A → M B) (Q : A → Prop) (R : B → Prop) :
  sound m Q → (∀ a, Q a → sound (k a) R) → sound (bind m k) R.
Proof.
  intros Hm Hk w r w' Hr Hd. unfold bind in Hr.
  destruct (m w) as [[a|e] w1] eqn:Hmw.
  - destruct (Hm _ _ _ Hmw Hd) as [Hd1 HQ]. eapply Hk; eauto.
  - injection Hr as <- <-. destruct (Hm _ _ _ Hmw Hd) as [Hd1 _]. done.
Qed.

Lemma sound_try_except (m : M A) (h : string → M A) (Q : A → Prop) :
  sound m Q → (∀ e, sound (h e) Q) → sound (try_except m h) Q.
Proof.
  intros Hm Hh w r w' Hr Hd. unfold try_except in Hr.
  destruct (m w) as [[a|e] w1] eqn:Hmw.
  - injection Hr as <- <-. eauto.
  - destruct (Hm _ _ _ Hmw Hd) as [Hd1 _]. eapply Hh; eauto.
Qed.

Lemma sound_try_finally (m : M A) (f : M unit) (Q : A → Prop) :
  sound m Q → sound f (λ _, True) → sound (try_finally m f) Q.
Proof.
  intros Hm Hf w r w' Hr Hd. unfold try_finally in Hr.
  destruct (m w) as [r1 w1] eqn:Hmw. destruct (Hm _ _ _ Hmw Hd) as [Hd1 HQ].
  destruct (f w1) as [[u|e] w2] eqn:Hfw; injection Hr as <- <-;
    destruct (Hf _ _ _ Hfw Hd1) as [Hd2 _]; by split.
Qed.
End Sound.

Section ExclusionOfRecords.

Lemma exclusive_default : exclusive default_history.
Proof. intros f [Hf _]. by apply elem_of_nil in Hf. Qed.

Lemma exclusive_repair h : exclusive h → exclusive (repair_history h).
Proof.
  intros Hh f. specialize (Hh f). unfold opened_of, failed_of in *.
  destruct h as [[o|] [fl|] g s]; simpl in *; set_solver.
Qed.

Lemma sound_save_history h : exclusive h → sound (save_history h) (λ _, True).
Proof.
  intros Hh w r w' Hr Hd. destruct (save_history_spec h w) as (w2 & Hs & [Hk|Hk] & _).
  all: rewrite Hs in Hr; injection Hr as <- <-; rewrite Hk; by split.
Qed.

Lemma sound_load_history : sound load_history exclusive.
Proof.
  intros w r w' Hr Hd. split.
  - by rewrite (keeps_load_history _ _ _ Hr).
  - intros h ->. unfold load_history in Hr. munfold. simpl in Hr.
    destruct (history_disk (fs w)) eqn:Hdisk; simpl in *; simplify_eq.
    all: try apply exclusive_default.
    by apply exclusive_repair.
Qed.

Lemma unprocessed_filter h (qualified : list string) :
  exclusive h →
  unprocessed (filter (λ f, (f ∉ opened_of h) ∧ (f ∉ failed_of h)) qualified) h.
Proof. intros Hh. split; [done|]. by intros f [? _]%list_elem_of_filter. Qed.

Lemma unprocessed_nil h : exclusive h → unprocessed [] h.
Proof. intros Hh. split; [done|]. by intros f ?%elem_of_nil. Qed.

Lemma unprocessed_reset (qualified : list string) stats :
  unprocessed qualified (mkHistory (Some []) (Some []) (Some ∅) (Some stats)).
Proof.
  split.
  - intros f [Hf _]. by apply elem_of_nil in Hf.
  - intros f _. split; apply not_elem_of_nil.
Qed.

(** ** The record-outcome step *)

Lemma elem_of_list_remove (x y : string) l : y ∈ list_remove x l → y ∈ l.
Proof.
  induction l as [|z l IH]; simpl; [done|].
  case_decide; set_solver.
Qed.

Lemma list_remove_NoDup (x : string) l : NoDup l → x ∉ list_remove x l.
Proof.
  induction l as [|z l IH]; simpl; [intros _; apply not_elem_of_nil|].
  intros [Hz Hl]%NoDup_cons. case_decide; [by subst|].
  apply not_elem_of_cons. split; [done|by apply IH].
Qed.

(** recording the outcome for a file that is in neither list puts it in
    the list of the outcome and leaves the other list as it is *)
Lemma record_outcome_unprocessed success selected h :
  selected ∉ opened_of h → selected ∉ failed_of h →
  opened_of (record_outcome success selected h)
    = (if success then opened_of h ++ [selected] else opened_of h) ∧
  failed_of (record_outcome success selected h)
    = (if success then failed_of h else failed_of h ++ [selected]).
Proof.
  intros Ho Hf. unfold record_outcome, opened_of, failed_of in *.
  destruct success.
  - rewrite (bool_decide_eq_false_2 _ Ho). simpl.
    by rewrite (bool_decide_eq_false_2 _ Hf).
  - rewrite (bool_decide_eq_false_2 _ Hf). simpl.
    by rewrite (bool_decide_eq_false_2 _ Ho).
Qed.

Lemma record_outcome_exclusive success selected available h :
  unprocessed available h → selected ∈ available →
  exclusive (record_outcome success selected h) ∧
  selected ∈ (if success then opened_of (record_outcome success selected h)
              else failed_of (record_outcome success selected h)) ∧
  selected ∉ (if success then failed_of (record_outcome success selected h)
              else opened_of (record_outcome success selected h)).
Proof.
  intros [Hex Hav] Hsel. destruct (Hav _ Hsel) as [Ho Hf].
  destruct (record_outcome_unprocessed success selected h Ho Hf) as [Eo Ef].
  split_and!.
  - intros f. rewrite Eo, Ef. specialize (Hex f). destruct success; set_solver.
  - destruct success; [rewrite Eo|rewrite Ef]; set_solver.
  - destruct success; [by rewrite Ef|by rewrite Eo].
Qed.

Lemma exclusive_update_statistics success selected now h :
  exclusive h → exclusive (update_statistics success selected now h).
Proof. done. Qed.

(** on lists without repetition, recording an outcome also takes the
    file out of the other list when it is there *)
Lemma record_outcome_moves (success : bool) (selected : string) (h : History) :
  NoDup (opened_of h) → NoDup (failed_of h) →
  selected ∉ (if success then failed_of (record_outcome success selected h)
              else opened_of (record_outcome success selected h)).
Proof.
  intros Ho Hf. unfold record_outcome, opened_of, failed_of in *.
  destruct success; repeat case_bool_decide; simpl in *;
    try done; by apply list_remove_NoDup.
Qed.

End ExclusionOfRecords.

Section ExclusionInvariant.
Variable fnmatch : string -> string -> bool.

Lemma sound_get_available_files :
  sound (get_available_files fnmatch) (λ r, unprocessed r.1.1.1 r.1.1.2).
Proof.
  unfold get_available_files.
  eapply sound_bind; [apply sound_load_history|]. intros history Hh. simpl in Hh.
  eapply sound_bind.
  { apply sound_keeps, keeps_scan_qualified_files. }
  intros [[qualified ok] msg] _. destruct ok; simpl.
  - apply sound_ret. simpl. rewrite available_loop_filter. simpl.
    by apply unprocessed_filter.
  - apply sound_ret. by apply unprocessed_nil.
Qed.

Lemma sound_reset_history_if_needed history available :
  unprocessed available history →
  sound (reset_history_if_needed fnmatch history available)
        (λ r, unprocessed r.1 r.2).
Proof.
  intros Hu. unfold reset_history_if_needed.
  destruct available as [|a l]; [|by apply sound_ret].
  eapply sound_bind.
  { apply sound_keeps, keeps_scan_qualified_files. }
  intros [[qualified ok] msg] _. destruct ok; simpl; [|by apply sound_ret].
  destruct qualified as [|q qs]; [by apply sound_ret|].
  eapply sound_bind.
  { apply sound_keeps, keeps_datetime_now. }
  intros now _.
  eapply sound_bind.
  { apply sound_save_history.
    by destruct (unprocessed_reset [] (reset_statistics (stats_of history) now)). }
  intros _ _.
  eapply sound_bind.
  { apply sound_keeps, keeps_invalidate. }
  intros _ _. apply sound_ret. apply unprocessed_reset.
Qed.

Lemma sound_run_select :
  sound (run_select fnmatch)
        (λ s, ∀ available history, s = Some (available, history) →
                                   unprocessed available history).
Proof.
  unfold run_select.
  eapply sound_bind; [apply sound_get_available_files|].
  intros [[[available history] ok] msg] Hu. simpl in Hu.
  destruct ok; simpl; [|by apply sound_ret].
  eapply sound_bind; [by apply sound_reset_history_if_needed|].
  intros [available' history'] Hu'. simpl in *.
  destruct available' as [|a l].
  - eapply sound_bind.
    { apply sound_keeps, keeps_show_statistics. }
    intros _ _. by apply sound_ret.
  - apply sound_ret. by intros ?? [= <- <-].
Qed.

Lemma sound_run_record available history :
  unprocessed available history →
  sound (run_record fnmatch available history) (λ _, True).
Proof.
  intros Hu. unfold run_record.
  eapply sound_bind with (Q := λ x, x ∈ available).
  { intros w r w' Hr Hd. split.
    - by rewrite (keeps_random_choice _ _ _ _ Hr).
    - intros x ->. unfold random_choice in Hr. munfold. simpl in Hr.
      destruct (available !! _) eqn:Hl; simplify_eq. by eapply list_elem_of_lookup_2. }
  intros selected Hsel.
  eapply sound_bind.
  { apply sound_keeps, keeps_open_file_with_retry. }
  intros success _.
  eapply sound_bind.
  { apply sound_keeps, keeps_datetime_now. }
  intros now _.
  eapply sound_bind.
  { apply sound_save_history, exclusive_update_statistics.
    by eapply record_outcome_exclusive. }
  intros _ _. apply sound_keeps, keeps_show_statistics.
Qed.

Lemma sound_run : sound (run fnmatch) (λ _, True).
Proof.
  unfold run. apply sound_try_finally.
  - apply sound_try_except; [|intros ?; by apply sound_ret].
    eapply sound_bind; [apply sound_run_select|].
    intros [[available history]|] Hs; [|by apply sound_ret].
    apply sound_run_record. by apply Hs.
  - apply sound_keeps, keeps_cleanup_all_temp_files.
Qed.


End ExclusionInvariant.

Section HashFacts.

#[local] Arguments read_loop : simpl never.
#[local] Arguments sampling_reads : simpl never.

Lemma fs_call_spec name path w : fs_call name path w = (Ok tt, traced name path w).
Proof. done. Qed.

Lemma node_at_same w w' path : nodes (fs w') = nodes (fs w) → node_at w' path = node_at w path.
Proof. unfold node_at. by intros ->. Qed.

Lemma open_rb_spec path w :
  open_rb path w =
    (match nd_open (node_at w path) with
     | Some e => Raise e
     | None => Ok (handle_of w path)
     end, traced "open" path w).
Proof.
  unfold open_rb. munfold. simpl.
  change (node_at (with_fs _ w) path) with (node_at w path).
  by destruct (nd_open (node_at w path)).
Qed.

Lemma called_open w path : called_since w (traced "open" path w) (mkCall "open" path).
Proof. exists [mkCall "open" path]. split; [done|]. set_solver. Qed.

Lemma hash_file_spec w path file_size :
  ∃ w', hash_file path file_size w = (hash_file_outcome w path file_size, w')
        ∧ nodes (fs w') = nodes (fs w)
        ∧ config (eng w') = config (eng w)
        ∧ caches (eng w') = caches (eng w)
        ∧ called_since w w' (mkCall "open" path).
Proof.
  unfold hash_file, hash_file_outcome, full_hash, _get_sampling_hash.
  unfold bind at 1. unfold gets at 1. cbv beta iota.
  destruct (Z.leb file_size _).
  - unfold bind at 1. rewrite open_rb_spec.
    destruct (nd_open (node_at w path)).
    { eexists. split_and!; try done. apply called_open. }
    unfold track_open, track_close. munfold. simpl.
    destruct (read_loop _ _ _) as [[h|e] f]; simpl;
      (eexists; split_and!; try done; apply called_open).
  - unfold try_except, bind at 1. rewrite open_rb_spec.
    destruct (nd_open (node_at w path)).
    { eexists. split_and!; try done. apply called_open. }
    unfold track_open, track_close. munfold. simpl.
    destruct (sampling_reads _ _) as [h|e]; simpl;
      (eexists; split_and!; try done; apply called_open).
Qed.

Lemma called_since_extend w w0 w' w'' c pre :
  fs_trace (fs w0) = pre ++ fs_trace (fs w) →
  fs_trace (fs w'') = fs_trace (fs w') →
  called_since w0 w' c → called_since w w'' c.
Proof.
  intros H0 H2 (calls & Ht & Hc). exists (calls ++ pre).
  rewrite H2, Ht, H0. rewrite <-(assoc_L (++)). split; [done|set_solver].
Qed.

(** [get_file_hash] on a path that exists and can be stat'ed, when the
    cache has no usable entry: the hash is computed from the file *)
Lemma get_file_hash_miss w path size mtime :
  nd_exists (node_at w path) = Ok true →
  nd_stat (node_at w path) = Ok (size, mtime) →
  cached_truthy (cached_hash w (path, size, mtime)) = false →
  ∃ w', get_file_hash path w =
          (match hash_file_outcome w path size with
           | Ok h => Ok h
           | Raise _ => Ok ""
           end, w')
        ∧ nodes (fs w') = nodes (fs w)
        ∧ config (eng w') = config (eng w)
        ∧ called_since w w' (mkCall "open" path)
        ∧ ∀ h, hash_file_outcome w path size = Ok h →
               _file_hash_cache (caches (eng w')) =
                 LRU.put (path, size, mtime) h
                   (LRU.get (path, size, mtime) (_file_hash_cache (caches (eng w)))).2.
Proof.
  intros Hex Hst Hmiss.
  unfold get_file_hash, path_exists, path_stat, hash_cache_get, hash_cache_put.
  munfold. simpl.
  change (node_at (with_fs _ w) path) with (node_at w path). rewrite Hex. simpl.
  change (node_at (with_fs _ _) path) with (node_at w path). rewrite Hst. simpl.
  unfold cached_hash in Hmiss. rewrite Hmiss.
  match goal with |- context [hash_file path size ?w0] =>
    destruct (hash_file_spec w0 path size) as (w1 & -> & Hn & Hc & Hk & Hcall);
    change (hash_file_outcome w0 path size) with (hash_file_outcome w path size)
  end.
  destruct (hash_file_outcome w path size) as [h|e].
  - eexists. split_and!; [done|done|done| |].
    + eapply (called_since_extend _ _ _ _ _ [mkCall "stat" path; mkCall "exists" path]);
        [| |exact Hcall]; done.
    + intros ? [= <-]. simpl. by rewrite Hk.
  - eexists. split_and!; [done|done|done| |done].
    eapply (called_since_extend _ _ _ _ _ [mkCall "stat" path; mkCall "exists" path]);
      [| |exact Hcall]; done.
Qed.

Lemma get_file_hash_hit w path size mtime :
  nd_exists (node_at w path) = Ok true →
  nd_stat (node_at w path) = Ok (size, mtime) →
  cached_truthy (cached_hash w (path, size, mtime)) = true →
  (get_file_hash path w).1 = Ok (default "" (cached_hash w (path, size, mtime))).
Proof.
  intros Hex Hst Hhit.
  unfold get_file_hash, path_exists, path_stat, hash_cache_get, hash_cache_put.
  munfold. simpl.
  change (node_at (with_fs _ w) path) with (node_at w path). rewrite Hex. simpl.
  change (node_at (with_fs _ _) path) with (node_at w path). rewrite Hst. simpl.
  unfold cached_hash in *. by rewrite Hhit.
Qed.

Lemma get_file_hash_absent w path :
  nd_exists (node_at w path) = Ok false →
  get_file_hash path w = (Ok "", traced "exists" path w).
Proof.
  intros Hex. unfold get_file_hash, path_exists. munfold. simpl.
  change (node_at (with_fs _ w) path) with (node_at w path). by rewrite Hex.
Qed.

Lemma get_file_hash_stat_error w path e :
  nd_exists (node_at w path) = Ok true →
  nd_stat (node_at w path) = Raise e →
  (get_file_hash path w).1 = Ok "".
Proof.
  intros Hex Hst. unfold get_file_hash, path_exists, path_stat. munfold. simpl.
  change (node_at (with_fs _ w) path) with (node_at w path). rewrite Hex. simpl.
  change (node_at (with_fs _ _) path) with (node_at w path). by rewrite Hst.
Qed.

(** the existence check of [get_file_hash] is made outside its [try]:
    an error of that check is all that [get_file_hash] can raise *)
Lemma get_file_hash_raises w path e :
  (get_file_hash path w).1 = Raise e ↔ nd_exists (node_at w path) = Raise e.
Proof.
  destruct (nd_exists (node_at w path)) as [[|]|e'] eqn:Hex.
  - destruct (nd_stat (node_at w path)) as [[size mtime]|e''] eqn:Hst.
    + destruct (cached_truthy (cached_hash w (path, size, mtime))) eqn:Hc.
      * by rewrite (get_file_hash_hit w path size mtime).
      * destruct (get_file_hash_miss w path size mtime) as (w' & -> & _); [done..|].
        simpl. by destruct (hash_file_outcome w path size).
    + by rewrite (get_file_hash_stat_error w path e'').
  - by rewrite get_file_hash_absent.
  - unfold get_file_hash, path_exists. munfold. simpl.
    change (node_at (with_fs _ w) path) with (node_at w path). rewrite Hex.
    simpl. split; by intros [= ->].
Qed.


End HashFacts.

Section ReadLoop.

Lemma fh_read_ok n f :
  fh_fault f = None →
  fh_read n f =
    (Ok (take n (drop (fh_pos f) (fh_data f))),
     mkHandle (fh_data f) (fh_pos f + length (take n (drop (fh_pos f) (fh_data f))))
              (S (fh_reads f)) (fh_fault f)).
Proof. intros Hf. unfold fh_read. by rewrite Hf. Qed.

(** one turn more than the bytes left is enough fuel: the loop then ends
    on an empty read, having fed the hash all the bytes left *)
Lemma read_loop_enough fuel f file_hash :
  fh_fault f = None →
  length (fh_data f) - fh_pos f < fuel →
  (read_loop fuel f file_hash).1 = Ok (file_hash ++ drop (fh_pos f) (fh_data f)).
Proof.
  revert f file_hash. induction fuel as [|fuel IH]; intros f file_hash Hf Hlen; [lia|].
  cbn [read_loop]. rewrite fh_read_ok by done.
  match goal with |- context [take ?n _] => set (chunk_size := n) end.
  assert (chunk_size ≠ 0) as Hn by (subst chunk_size; intros Heq; vm_compute in Heq; discriminate).
  clearbody chunk_size.
  destruct (take chunk_size (drop (fh_pos f) (fh_data f))) as [|b chunk] eqn:Hchunk.
  - simpl. destruct (drop (fh_pos f) (fh_data f)) eqn:Hdrop.
    + by rewrite app_nil_r.
    + destruct chunk_size; [done|]. done.
  - rewrite IH; simpl; [|done|].
    + unfold hash_update. rewrite <-Hchunk, <-(assoc_L (++)). f_equal.
      rewrite <-(take_drop chunk_size (drop (fh_pos f) (fh_data f))) at 2.
      f_equal. rewrite drop_drop. f_equal.
      assert (S (length chunk) = chunk_size `min` (length (fh_data f) - fh_pos f))
        as Hl.
      { apply (f_equal length) in Hchunk.
        by rewrite length_take, length_drop in Hchunk. }
      destruct (decide (chunk_size ≤ length (fh_data f) - fh_pos f)).
      * f_equal. lia.
      * rewrite !drop_ge; [done|lia..].
    + apply (f_equal length) in Hchunk.
      rewrite length_take, length_drop in Hchunk. simpl in Hchunk. lia.
Qed.

(** a file that can be read hashes to the digest of its content *)
Lemma hash_file_outcome_readable w path size :
  nd_open (node_at w path) = None →
  nd_read_fault (node_at w path) = None →
  hash_file_outcome w path size = Ok (content_hash w path size).
Proof.
  intros Ho Hr. unfold hash_file_outcome, content_hash. rewrite Ho.
  destruct (Z.leb size _).
  - rewrite read_loop_enough; simpl; [|done|lia].
    by rewrite drop_0.
  - by destruct (sampling_reads _ _).
Qed.

End ReadLoop.

Section CacheKeys.
Context {K V : Type} `{EqDecision K}.
Implicit Types (d : list (K * V)) (c : SimpleLRUCache K V) (k key : K).

Lemma od_delitem_subseteq key d : (od_delitem key d).*1 ⊆ d.*1.
Proof.
  induction d as [|[k v] d IH]; simpl; [done|]. case_decide; set_solver.
Qed.

Lemma od_getitem_elem_of key d v : od_getitem key d = Some v → key ∈ d.*1.
Proof.
  induction d as [|[k v'] d IH]; simpl; [done|]. case_decide; set_solver.
Qed.

Lemma od_move_to_end_subseteq key d : (od_move_to_end key d).*1 ⊆ d.*1.
Proof.
  unfold od_move_to_end. destruct (od_getitem key d) as [v|] eqn:Hg; [|done].
  rewrite fmap_app. simpl. apply od_getitem_elem_of in Hg.
  pose proof (od_delitem_subseteq key d). set_solver.
Qed.

Lemma od_setitem_subseteq key value d : (od_setitem key value d).*1 ⊆ key :: d.*1.
Proof.
  induction d as [|[k v] d IH]; simpl; [set_solver|]. case_decide; set_solver.
Qed.

Lemma lru_get_absent key c : key ∉ LRU.keys c → (LRU.get key c).1 = None.
Proof.
  intros Hk. unfold LRU.get. by rewrite (proj2 (od_contains_false key _)).
Qed.

Lemma lru_get_keys_subseteq key c : LRU.keys (LRU.get key c).2 ⊆ LRU.keys c.
Proof.
  unfold LRU.get, LRU.keys, od_keys. destruct (od_contains _ _); simpl; [|done].
  apply od_move_to_end_subseteq.
Qed.

Lemma lru_put_keys_subseteq key value c :
  LRU.keys (LRU.put key value c) ⊆ key :: LRU.keys c.
Proof.
  unfold LRU.put, LRU.keys, od_keys. simpl.
  etrans; [apply od_setitem_subseteq|].
  destruct (od_contains _ _).
  - pose proof (od_move_to_end_subseteq key (_cache c)). set_solver.
  - destruct (Z.leb _ _); [|done]. destruct (_cache c); set_solver.
Qed.

End CacheKeys.

Section FingerprintFacts.

Local Abbreviation hash_cache w := (_file_hash_cache (caches (eng w))).

(** C10. When the hash cache answers the empty string for the key of a
    file, [get_file_hash] does not return that answer: it opens the file
    and returns the hash computed from it (the empty string again only
    if the computation fails anew), and stores a computed hash under
    the key. *)
Theorem get_file_hash_recomputes_cached_failure
    (w : World) (path : string) (size : Z) (mtime : Qc) :
  nd_exists (node_at w path) = Ok true →
  nd_stat (node_at w path) = Ok (size, mtime) →
  cached_hash w (path, size, mtime) = Some "" →
  ∃ w', get_file_hash path w =
          (match hash_file_outcome w path size with
           | Ok h => Ok h
           | Raise _ => Ok ""
           end, w')
        ∧ called_since w w' (mkCall "open" path)
        ∧ ∀ h, hash_file_outcome w path size = Ok h →
               hash_cache w' =
                 LRU.put (path, size, mtime) h
                         (LRU.get (path, size, mtime) (hash_cache w)).2.
Proof.
  intros Hex Hst Hc.
  destruct (get_file_hash_miss w path size mtime) as (w' & Hg & _ & _ & Hcall & Hput);
    [done|done|by rewrite Hc|].
  by exists w'.
Qed.

Lemma node_at_touch w path mtime :
  node_at (touch path mtime w) path = set_mtime mtime (node_at w path).
Proof. unfold touch, node_at. simpl. by rewrite lookup_insert_eq. Qed.

Lemma content_hash_same w w' path size :
  nd_data (node_at w' path) = nd_data (node_at w path) →
  nd_read_fault (node_at w' path) = nd_read_fault (node_at w path) →
  config (eng w') = config (eng w) →
  content_hash w' path size = content_hash w path size.
Proof.
  intros Hd Hr Hc. unfold content_hash, handle_of. by rewrite Hd, Hr, Hc.
Qed.

(** the hash of a file that can be read, when the cache does not hold
    another value for it: the digest of its content *)
Lemma get_file_hash_readable w path size mtime :
  nd_exists (node_at w path) = Ok true →
  nd_stat (node_at w path) = Ok (size, mtime) →
  nd_open (node_at w path) = None →
  nd_read_fault (node_at w path) = None →
  (∀ v, cached_hash w (path, size, mtime) = Some v → v = content_hash w path size) →
  ∃ w', get_file_hash path w = (Ok (content_hash w path size), w')
        ∧ nodes (fs w') = nodes (fs w)
        ∧ config (eng w') = config (eng w)
        ∧ LRU.keys (hash_cache w') ⊆ (path, size, mtime) :: LRU.keys (hash_cache w)
        ∧ (cached_truthy (cached_hash w (path, size, mtime)) = false →
           called_since w w' (mkCall "open" path)).
Proof.
  intros Hex Hst Ho Hr Hcons.
  destruct (cached_truthy (cached_hash w (path, size, mtime))) eqn:Hc.
  - unfold get_file_hash, path_exists, path_stat, hash_cache_get, hash_cache_put.
    munfold. simpl.
    change (node_at (with_fs _ w) path) with (node_at w path). rewrite Hex. simpl.
    change (node_at (with_fs _ _) path) with (node_at w path). rewrite Hst. simpl.
    unfold cached_hash in *. rewrite Hc.
    destruct (LRU.get _ _).1 as [v|] eqn:Hv; [|done].
    rewrite (Hcons v eq_refl). eexists. split_and!; [done..| |done].
    simpl. etrans; [apply lru_get_keys_subseteq|]. set_solver.
  - destruct (get_file_hash_miss w path size mtime) as (w' & Hg & Hn & Hcfg & Hcall & Hput);
      [done..|].
    rewrite hash_file_outcome_readable in Hg, Hput by done.
    exists w'. split_and!; [done..| |done].
    rewrite (Hput _ eq_refl).
    etrans; [apply lru_put_keys_subseteq|].
    pose proof (lru_get_keys_subseteq (path, size, mtime) (hash_cache w)). set_solver.
Qed.


End FingerprintFacts.

(* ===================================================================== *)
(** * The properties at work on the small installation *)
(* ===================================================================== *)

(** C7 on a cache of capacity two: after [put a], [put b], [get a], the
    cache is within its capacity and [put c] evicts [b], whose last use is
    older than that of [a]. *)
Lemma lru_evicts_b :
  (LRU.size (LRU.run Demo.lru_calls Demo.lru_start) ≤ 2)%Z ∧
  LRU.older (LRU.last_use Demo.lru_calls Demo.lru_start 0) "b" "a".
Proof.
  destruct (lru_bounded_and_evicts_least_recent 2 Demo.lru_start Demo.lru_calls eq_refl)
    as [Hsize Hevict].
  split; [exact Hsize|].
  destruct (Hevict "c" 3 "b") as (_ & _ & Holder).
  - split; vm_compute; set_solver.
  - apply Holder; [vm_compute; set_solver|discriminate].
Defined.

(** C8: two seconds after a scan, with a time to live of five, the next
    scan answers from the cache. *)
Lemma scan_cache_hit_demo :
  scan_qualified_files plain_fnmatch false Demo.scanned_world
    = (Ok (["a.txt"; "b.txt"; "c.txt"], true, None), tick Demo.scanned_world).
Proof.
  apply (scan_cache_hit plain_fnmatch Demo.scanned_world ["a.txt"; "b.txt"; "c.txt"]).
  - reflexivity.
  - vm_compute. reflexivity.
Defined.

(** C1: with [a.txt] opened and [c.txt] failed, [b.txt] is what is left. *)
Lemma get_available_files_demo :
  (get_available_files plain_fnmatch (Demo.world (JsonDict Demo.partly_done))).1
    = Ok (["b.txt"], Demo.partly_done, true, None).
Proof.
  rewrite (get_available_files_spec plain_fnmatch
             (Demo.world (JsonDict Demo.partly_done))
             (load_history (Demo.world (JsonDict Demo.partly_done))).2
             (scan_qualified_files plain_fnmatch false
                (load_history (Demo.world (JsonDict Demo.partly_done))).2).2
             Demo.partly_done ["a.txt"; "b.txt"; "c.txt"] None).
  - vm_compute. reflexivity.
  - vm_compute. reflexivity.
  - vm_compute. reflexivity.
Defined.

(** C2: with every file processed, the history is reset: the three
    qualified files are available again, the lists of the new record are
    empty, it counts one reset, and it is the record on disk. *)
Lemma reset_demo :
  ∃ new_history stats w3,
    reset_history_if_needed plain_fnmatch Demo.exhausted []
      (Demo.world (JsonDict Demo.exhausted))
      = (Ok (["a.txt"; "b.txt"; "c.txt"], new_history), w3) ∧
    new_history = mkHistory (Some []) (Some []) (Some ∅) (Some stats) ∧
    reset_count stats = Some 1%Z ∧
    total_resets stats = Some 1%Z ∧
    history_disk (fs w3) = JsonDict new_history ∧
    _qualified_files_cache (eng w3) = None ∧
    caches_cleared (caches (eng w3)).
Proof.
  destruct (reset_history_if_needed_spec plain_fnmatch Demo.exhausted
              (Demo.world (JsonDict Demo.exhausted))) as [_ Hreset].
  destruct (Hreset ["a.txt"; "b.txt"; "c.txt"] true None
              (scan_qualified_files plain_fnmatch true
                 (Demo.world (JsonDict Demo.exhausted))).2) as [_ Hfound].
  { vm_compute. reflexivity. }
  destruct Hfound as (new_history & stats & w2 & w3 & Hr & Hn & Hc & Ht & _ & _ & _
                      & _ & _ & _ & _ & Hdisk & Hq & Hcl); [reflexivity|discriminate|].
  exists new_history, stats, w3. split_and!; try done.
  apply Hdisk. by repeat split.
Defined.






(** C10: the empty hash cached for [c.txt] is not served; the file is
    hashed again. *)
Lemma cached_failure_demo :
  ∃ w', get_file_hash "/d/c.txt" Demo.failed_hash_world
          = (Ok "d0d22994c8f475291598eff372d44c3fcc39ca74e78473222671aa4095ed5bd2", w')
        ∧ called_since Demo.failed_hash_world w' (mkCall "open" "/d/c.txt").
Proof.
  destruct (get_file_hash_recomputes_cached_failure Demo.failed_hash_world
              "/d/c.txt" 33 (Qc_of_Z 12)) as (w' & Hg & Hcall & _);
    [reflexivity|reflexivity|vm_compute; reflexivity|].
  exists w'. split; [|exact Hcall]. rewrite Hg. vm_compute. reflexivity.
Defined.



(* ===================================================================== *)
(** * SimpleLRUCache as a store of values *)
(* ===================================================================== *)

Section OrderedDictLookups.
Context {K V : Type} `{EqDecision K}.
Implicit Types (d : list (K * V)) (k key : K).

Lemma od_getitem_None key d : od_getitem key d = None ↔ key ∉ d.*1.
Proof.
  induction d as [|[k v] d IH]; simpl.
  - split; [intros _; apply not_elem_of_nil|done].
  - case_decide as Hk.
    + subst. split; [done|]. intros []. set_solver.
    + rewrite IH. set_solver.
Qed.

Lemma od_getitem_app key d1 d2 :
  od_getitem key (d1 ++ d2) =
    match od_getitem key d1 with
    | Some v => Some v
    | None => od_getitem key d2
    end.
Proof.
  induction d1 as [|[k v] d1 IH]; simpl; [done|]. by case_decide.
Qed.

Lemma od_getitem_setitem key value d :
  od_getitem key (od_setitem key value d) = Some value.
Proof.
  induction d as [|[k v] d IH]; simpl.
  - by rewrite decide_True.
  - case_decide as Hk; simpl.
    + by rewrite decide_True.
    + by rewrite decide_False.
Qed.

Lemma od_getitem_setitem_ne k key value d :
  k ≠ key → od_getitem k (od_setitem key value d) = od_getitem k d.
Proof.
  intros Hne. induction d as [|[k' v] d IH]; simpl.
  - by rewrite decide_False.
  - case_decide as Hk; simpl.
    + subst k'. by rewrite !decide_False.
    + case_decide; [done|apply IH].
Qed.

Lemma od_getitem_delitem_ne k key d :
  k ≠ key → od_getitem k (od_delitem key d) = od_getitem k d.
Proof.
  intros Hne. induction d as [|[k' v] d IH]; simpl; [done|].
  case_decide as Hk; simpl.
  - subst k'. by rewrite decide_False.
  - case_decide; [done|apply IH].
Qed.

Lemma od_getitem_delitem key d :
  NoDup d.*1 → od_getitem key (od_delitem key d) = None.
Proof.
  induction d as [|[k v] d IH]; simpl; [done|].
  intros [Hk Hd]%NoDup_cons. case_decide as Heq; simpl.
  - subst. by apply od_getitem_None.
  - rewrite decide_False by done. by apply IH.
Qed.

Lemma od_getitem_move_to_end k key d :
  NoDup d.*1 → od_getitem k (od_move_to_end key d) = od_getitem k d.
Proof.
  intros Hnd. unfold od_move_to_end.
  destruct (od_getitem key d) as [v|] eqn:Hg; [|done].
  rewrite od_getitem_app. destruct (decide (k = key)) as [->|Hne].
  - rewrite od_getitem_delitem by done. simpl. by rewrite decide_True.
  - rewrite od_getitem_delitem_ne by done. simpl. rewrite decide_False by done.
    by destruct (od_getitem k d).
Qed.

Lemma od_delitem_length key d :
  key ∈ d.*1 → S (length (od_delitem key d)) = length d.
Proof.
  induction d as [|[k v] d IH]; simpl; [by intros ?%elem_of_nil|].
  intros Hin. case_decide as Hk; simpl; [done|].
  f_equal. apply IH. set_solver.
Qed.

End OrderedDictLookups.

Section CacheAsStore.
Context {K V : Type} `{EqDecision K}.
Implicit Types (c : SimpleLRUCache K V) (k key : K) (ops : list (@LRU.op K V)).

(** what [get] answers is the entry of the dictionary *)
Lemma lru_get_answer key c :
  NoDup (LRU.keys c) → (LRU.get key c).1 = od_getitem key (_cache c).
Proof.
  intros Hnd. unfold LRU.get. destruct (od_contains key (_cache c)) eqn:Hc; simpl.
  - by apply od_getitem_move_to_end.
  - symmetry. apply od_getitem_None. by apply od_contains_false.
Qed.

(** the caches that the calls of a client reach have distinct keys and
    a positive capacity *)
Lemma lru_reachable n c0 ops :
  LRU.init n = Some c0 →
  NoDup (LRU.keys (LRU.run ops c0)) ∧ max_size (LRU.run ops c0) = n ∧ (0 < n)%Z
  ∧ (LRU.size (LRU.run ops c0) ≤ n)%Z.
Proof.
  intros Hinit. destruct (lru_inv_run n c0 ops Hinit) as (? & ? & ? & Hlen & _).
  split_and!; try done. unfold LRU.size.
  unfold LRU.keys, od_keys in Hlen. by rewrite length_fmap in Hlen.
Qed.

Lemma lru_reachable_step n c0 ops o :
  LRU.init n = Some c0 → NoDup (LRU.keys (LRU.step o (LRU.run ops c0))).
Proof.
  intros Hinit. rewrite <-lru_run_snoc. by apply (lru_reachable n).
Qed.

(** X1. Whatever calls were made on a cache before, the value that
    [put] stores under a key is what the next [get] of that key
    returns. *)
Theorem lru_put_then_get (n : Z) (c0 : SimpleLRUCache K V)
    (ops : list (@LRU.op K V)) (key : K) (value : V) :
  LRU.init n = Some c0 →
  (LRU.get key (LRU.put key value (LRU.run ops c0))).1 = Some value.
Proof.
  intros Hinit.
  rewrite lru_get_answer
    by exact (lru_reachable_step n c0 ops (LRU.Put key value) Hinit).
  unfold LRU.put. simpl. apply od_getitem_setitem.
Qed.

(** X2. [put] leaves the values of the other keys as they are: a key
    other than the one put, when it is still cached after the [put],
    has the value it had before. *)
Theorem lru_put_keeps_other_values (n : Z) (c0 : SimpleLRUCache K V)
    (ops : list (@LRU.op K V)) (key k : K) (value : V) :
  LRU.init n = Some c0 →
  k ≠ key →
  k ∈ LRU.keys (LRU.put key value (LRU.run ops c0)) →
  (LRU.get k (LRU.put key value (LRU.run ops c0))).1
    = (LRU.get k (LRU.run ops c0)).1.
Proof.
  intros Hinit Hne Hin.
  destruct (lru_reachable n c0 ops Hinit) as (Hnd & Hmax & Hpos & _).
  rewrite lru_get_answer
    by exact (lru_reachable_step n c0 ops (LRU.Put key value) Hinit).
  rewrite (lru_get_answer k (LRU.run ops c0)) by done.
  set (c := LRU.run ops c0) in *.
  unfold LRU.keys, od_keys in Hnd.
  destruct (lru_put_keys key value c) as
    [(l1 & l2 & Hd & Hk)|[(Hnew & Hfull & h & tl & Hd & Hk)|(Hnew & Hroom & Hk)]];
    [done|lia|..].
  - unfold LRU.put. simpl. rewrite od_getitem_setitem_ne by done.
    assert (od_contains key (_cache c) = true) as ->.
    { apply od_contains_spec. unfold LRU.keys, od_keys in Hd. rewrite Hd. set_solver. }
    by apply od_getitem_move_to_end.
  - unfold LRU.put. simpl. rewrite od_getitem_setitem_ne by done.
    assert (od_contains key (_cache c) = false) as ->
      by by apply od_contains_false.
    assert ((max_size c <=? Z.of_nat (length (_cache c)))%Z = true) as ->.
    { apply Z.leb_le. unfold LRU.keys, od_keys in Hfull.
      by rewrite length_fmap in Hfull. }
    unfold od_popitem_first. unfold LRU.keys, od_keys in Hd.
    destruct (_cache c) as [|[h' v'] d]; simplify_eq/=.
    rewrite decide_False; [done|]. intros ->.
    rewrite Hk in Hin. apply NoDup_cons in Hnd as [Hh _]. set_solver.
  - unfold LRU.put. simpl. rewrite od_getitem_setitem_ne by done.
    assert (od_contains key (_cache c) = false) as ->
      by by apply od_contains_false.
    assert ((max_size c <=? Z.of_nat (length (_cache c)))%Z = false) as ->.
    { apply Z.leb_gt. unfold LRU.keys, od_keys in Hroom.
      by rewrite length_fmap in Hroom. }
    done.
Qed.

(** X3. [remove] answers whether the key was cached; afterwards a
    [get] of the key misses, the other keys have the values they had,
    and the cache holds one entry less when the key was there and as
    many as before when it was not. *)
Theorem lru_remove_forgets_one_key (n : Z) (c0 : SimpleLRUCache K V)
    (ops : list (@LRU.op K V)) (key : K) :
  LRU.init n = Some c0 →
  (LRU.remove key (LRU.run ops c0)).1 = bool_decide (key ∈ LRU.keys (LRU.run ops c0)) ∧
  (LRU.get key (LRU.remove key (LRU.run ops c0)).2).1 = None ∧
  (∀ k, k ≠ key →
        (LRU.get k (LRU.remove key (LRU.run ops c0)).2).1
          = (LRU.get k (LRU.run ops c0)).1) ∧
  LRU.size (LRU.remove key (LRU.run ops c0)).2
    = (LRU.size (LRU.run ops c0)
       - if bool_decide (key ∈ LRU.keys (LRU.run ops c0)) then 1 else 0)%Z.
Proof.
  intros Hinit.
  destruct (lru_reachable n c0 ops Hinit) as (Hnd & _).
  pose proof (lru_reachable_step n c0 ops (LRU.Remove key) Hinit) as Hnd'.
  simpl in Hnd'. set (c := LRU.run ops c0) in *.
  split_and!.
  - unfold LRU.remove, od_contains, LRU.keys, od_keys. by case_bool_decide.
  - rewrite lru_get_answer by done. unfold LRU.remove.
    destruct (od_contains key (_cache c)) eqn:Hc; simpl.
    + by apply od_getitem_delitem.
    + apply od_getitem_None. by apply od_contains_false.
  - intros k Hne. rewrite !lru_get_answer by done. unfold LRU.remove.
    destruct (od_contains key (_cache c)) eqn:Hc; simpl; [|done].
    by apply od_getitem_delitem_ne.
  - unfold LRU.remove, od_contains, LRU.keys, od_keys, LRU.size.
    case_bool_decide as Hin; simpl; [|lia].
    apply od_delitem_length in Hin. lia.
Qed.


End CacheAsStore.

Section CacheReports.
Context {K V : Type} `{EqDecision K}.
Implicit Types (c : SimpleLRUCache K V) (ops : list (@LRU.op K V)).

Lemma lookups_snoc ops (o : @LRU.op K V) :
  Cache.lookups (ops ++ [o]) =
    match o with
    | LRU.Get _ => (Cache.lookups ops + 1)%Z
    | LRU.Clear => 0%Z
    | LRU.Put _ _ | LRU.Remove _ => Cache.lookups ops
    end.
Proof. unfold Cache.lookups. by rewrite foldl_app. Qed.

(** the two counters count the hits and the misses of the lookups *)
Lemma lru_counters n c0 ops :
  LRU.init n = Some c0 →
  (0 ≤ Counter.get (_hits (LRU.run ops c0)))%Z ∧
  (0 ≤ Counter.get (_misses (LRU.run ops c0)))%Z ∧
  (Counter.get (_hits (LRU.run ops c0)) + Counter.get (_misses (LRU.run ops c0))
   = Cache.lookups ops)%Z.
Proof.
  intros Hinit. induction ops as [|o ops IH] using rev_ind.
  - unfold LRU.init in Hinit. case_match; simplify_eq. done.
  - rewrite lru_run_snoc, lookups_snoc. set (c := LRU.run ops c0) in *.
    destruct IH as (Hh & Hm & Hsum).
    destruct o as [key|key value|key|]; simpl.
    + unfold LRU.get, Counter.get, Counter.incr, Counter.increment in *.
      destruct (od_contains key (_cache c)); simpl in *; lia.
    + done.
    + unfold LRU.remove. by destruct (od_contains key (_cache c)).
    + done.
Qed.

Lemma Qc_ratio_bounds (a b : Z) :
  (0 ≤ a)%Z → (a ≤ b)%Z → (0 < b)%Z →
  (0 ≤ Qc_of_Z a / Qc_of_Z b)%Qc ∧ (Qc_of_Z a / Qc_of_Z b ≤ 1)%Qc.
Proof.
  intros Ha Hab Hb.
  assert (0 < Qc_of_Z b)%Qc as Hb'.
  { rewrite <-Z2Qc_inj_0. by apply (proj1 (Z2Qc_inj_lt 0 b)). }
  assert (0 ≤ Qc_of_Z a)%Qc as Ha'.
  { rewrite <-Z2Qc_inj_0. by apply (proj1 (Z2Qc_inj_le 0 a)). }
  assert (Qc_of_Z a ≤ Qc_of_Z b)%Qc as Hab' by by apply (proj1 (Z2Qc_inj_le a b)).
  assert (0 < / Qc_of_Z b)%Qc as Hinv by by apply Qcinv_pos.
  unfold Qcdiv. split.
  - rewrite <-(Qcmult_0_l (/ Qc_of_Z b)).
    apply Qcmult_le_mono_nonneg_r; [by apply Qclt_le_weak|done].
  - rewrite <-(Qcmult_inv_r (Qc_of_Z b)).
    + apply Qcmult_le_mono_nonneg_r; [by apply Qclt_le_weak|done].
    + intros Heq. rewrite Heq in Hb'. by apply Qclt_not_eq in Hb'.
Qed.

(** X5. The statistics of a cache, whatever calls were made on it: the
    hits and the misses add up to the calls of [get] made since the
    cache was built or last cleared, the size is within the capacity,
    and the hit rate and the fullness lie between 0 and 1. *)
Theorem lru_stats_are_consistent (n : Z) (c0 : SimpleLRUCache K V)
    (ops : list (@LRU.op K V)) :
  LRU.init n = Some c0 →
  (0 ≤ cs_hits (Cache.stats (LRU.run ops c0)))%Z ∧
  (0 ≤ cs_misses (Cache.stats (LRU.run ops c0)))%Z ∧
  (cs_hits (Cache.stats (LRU.run ops c0)) + cs_misses (Cache.stats (LRU.run ops c0))
   = Cache.lookups ops)%Z ∧
  cs_size (Cache.stats (LRU.run ops c0)) = Cache.__len__ (LRU.run ops c0) ∧
  cs_max_size (Cache.stats (LRU.run ops c0)) = n ∧
  (0 ≤ cs_size (Cache.stats (LRU.run ops c0)) ≤ n)%Z ∧
  (0 ≤ cs_hit_rate (Cache.stats (LRU.run ops c0)))%Qc ∧
  (cs_hit_rate (Cache.stats (LRU.run ops c0)) ≤ 1)%Qc ∧
  (0 ≤ cs_fullness (Cache.stats (LRU.run ops c0)))%Qc ∧
  (cs_fullness (Cache.stats (LRU.run ops c0)) ≤ 1)%Qc.
Proof.
  intros Hinit.
  destruct (lru_counters n c0 ops Hinit) as (Hh & Hm & Hsum).
  destruct (lru_inv_run n c0 ops Hinit) as (Hmax & Hpos & _ & Hlen & _).
  set (c := LRU.run ops c0) in *.
  unfold LRU.keys, od_keys in Hlen. rewrite length_fmap in Hlen.
  unfold Cache.stats, Cache.__len__, LRU.size, Counter.get in *. simpl.
  split_and!; try done; try lia.
  - destruct (0 <? _)%Z eqn:Ht; [|done].
    apply Z.ltb_lt in Ht. apply Qc_ratio_bounds; lia.
  - destruct (0 <? _)%Z eqn:Ht; [|done].
    apply Z.ltb_lt in Ht. apply Qc_ratio_bounds; lia.
  - rewrite Hmax. destruct (0 <? n)%Z eqn:Ht; [|done].
    apply Qc_ratio_bounds; lia.
  - rewrite Hmax. destruct (0 <? n)%Z eqn:Ht; [|done].
    apply Qc_ratio_bounds; lia.
Qed.

End CacheReports.

(* ===================================================================== *)
(** * What the methods leave alone, and which of them raise nothing *)
(* ===================================================================== *)

Section Follows.
Set Default Proof Using "Type*".
Context (R : World → World → Prop) `{!PreOrder R}.
Context {A : Type}.

Lemma follows_ret (a : A) : follows R (ret a).
Proof. intros w r w' [= _ <-]. reflexivity. Qed.
Lemma follows_raise e : follows R (@raise A e).
Proof. intros w r w' [= _ <-]. reflexivity. Qed.
Lemma follows_gets (f : World → A) : follows R (gets f).
Proof. intros w r w' [= _ <-]. reflexivity. Qed.
Lemma follows_lift (x : result A) : follows R (lift x).
Proof. intros w r w' [= _ <-]. reflexivity. Qed.
Lemma follows_bind {B} (m : M B) (k : B → M A) :
  follows R m → (∀ b, follows R (k b)) → follows R (bind m k).
Proof.
  intros Hm Hk w r w' Hr. unfold bind in Hr.
  destruct (m w) as [[b|e] w1] eqn:Hmw.
  - etrans; [by eapply Hm|by eapply Hk].
  - injection Hr as <- <-. by eapply Hm.
Qed.
Lemma follows_try_except (m : M A) (h : string → M A) :
  follows R m → (∀ e, follows R (h e)) → follows R (try_except m h).
Proof.
  intros Hm Hh w r w' Hr. unfold try_except in Hr.
  destruct (m w) as [[a|e] w1] eqn:Hmw.
  - injection Hr as <- <-. by eapply Hm.
  - etrans; [by eapply Hm|by eapply Hh].
Qed.
Lemma follows_try_finally (m : M A) (f : M unit) :
  follows R m → follows R f → follows R (try_finally m f).
Proof.
  intros Hm Hf w r w' Hr. unfold try_finally in Hr.
  destruct (m w) as [r1 w1] eqn:Hmw. destruct (f w1) as [[[]|e] w2] eqn:Hfw.
  - injection Hr as <- <-. etrans; [by eapply Hm|by eapply Hf].
  - injection Hr as <- <-. etrans; [by eapply Hm|by eapply Hf].
Qed.
End Follows.

Lemma follows_modify (R : World → World → Prop) (g : World → World) :
  (∀ w, R w (g w)) → follows R (modify g).
Proof. intros Hg w r w' [= _ <-]. apply Hg. Qed.

#[global] Instance same_preorder {B} (f : World → B) : PreOrder (same f).
Proof.
  split.
  - by intros w.
  - intros w1 w2 w3 H12 H23. unfold same in *. congruence.
Qed.

#[global] Instance balanced_preorder : PreOrder balanced.
Proof.
  split.
  - by intros w _.
  - intros w1 w2 w3 H12 H23 H1. specialize (H12 H1). rewrite <-H12. apply H23.
    unfold fd_balance in H12. injection H12 as Hc _. by rewrite Hc.
Qed.

#[global] Hint Resolve follows_ret follows_raise follows_gets follows_lift
  follows_bind follows_try_except follows_try_finally follows_modify : follows.
#[global] Hint Extern 0 (PreOrder _) => apply _ : follows.
#[global] Hint Extern 0 (same _ _ _) => reflexivity : follows.
#[global] Hint Extern 1 (leaves _ _) => unfold leaves : follows.
#[global] Hint Extern 1 (follows _ (if ?b then _ else _)) => destruct b : follows.
#[global] Hint Extern 1 (follows _ (match ?x with _ => _ end)) => destruct x : follows.

Section Returns.
Context {A : Type}.

Lemma returns_ret (a : A) : returns (ret a).
Proof. intros w. by eexists _, _. Qed.
Lemma returns_gets (f : World → A) : returns (gets f).
Proof. intros w. by eexists _, _. Qed.
Lemma returns_lift_ok (a : A) : returns (lift (Ok a)).
Proof. intros w. by eexists _, _. Qed.
Lemma returns_bind {B} (m : M B) (k : B → M A) :
  returns m → (∀ b, returns (k b)) → returns (bind m k).
Proof.
  intros Hm Hk w. destruct (Hm w) as (b & w1 & Hmw).
  destruct (Hk b w1) as (a & w2 & Hkw). exists a, w2.
  unfold bind. by rewrite Hmw.
Qed.
(** a handler that returns makes the whole [try] return *)
Lemma returns_try_except (m : M A) (h : string → M A) :
  (∀ e, returns (h e)) → returns (try_except m h).
Proof.
  intros Hh w. unfold try_except. destruct (m w) as [[a|e] w1]; [by eexists _, _|].
  apply Hh.
Qed.
Lemma returns_try_finally (m : M A) (f : M unit) :
  returns m → returns f → returns (try_finally m f).
Proof.
  intros Hm Hf w. destruct (Hm w) as (a & w1 & Hmw).
  destruct (Hf w1) as ([] & w2 & Hfw). exists a, w2.
  unfold try_finally. by rewrite Hmw, Hfw.
Qed.
End Returns.

Lemma returns_modify (g : World → World) : returns (modify g).
Proof. intros w. by eexists _, _. Qed.

#[global] Hint Resolve returns_ret returns_gets returns_lift_ok returns_bind
  returns_try_except returns_try_finally returns_modify : returns.
#[global] Hint Extern 1 (returns (if ?b then _ else _)) => destruct b : returns.
#[global] Hint Extern 1 (returns (match ?x with _ => _ end)) => destruct x : returns.

(** ** The primitives *)

Section Primitives.
Set Default Proof Using "Type*".
Context (R : World → World → Prop) `{!PreOrder R}.

Lemma follows_fs_call name path : blind_to_calls R → follows R (fs_call name path).
Proof. intros Hb. apply follows_modify. intros w. apply Hb. Qed.

Lemma follows_path_exists path : blind_to_calls R → follows R (path_exists path).
Proof. intros Hb. unfold path_exists. eauto 10 using follows_fs_call with follows. Qed.
Lemma follows_path_is_file path : blind_to_calls R → follows R (path_is_file path).
Proof. intros Hb. unfold path_is_file. eauto 10 using follows_fs_call with follows. Qed.
Lemma follows_os_access path : blind_to_calls R → follows R (os_access path).
Proof. intros Hb. unfold os_access. eauto 10 using follows_fs_call with follows. Qed.
Lemma follows_path_is_symlink path : blind_to_calls R → follows R (path_is_symlink path).
Proof. intros Hb. unfold path_is_symlink. eauto 10 using follows_fs_call with follows. Qed.
Lemma follows_path_stat path : blind_to_calls R → follows R (path_stat path).
Proof. intros Hb. unfold path_stat. eauto 10 using follows_fs_call with follows. Qed.
Lemma follows_open_rb path : blind_to_calls R → follows R (open_rb path).
Proof. intros Hb. unfold open_rb. eauto 10 using follows_fs_call with follows. Qed.
Lemma follows_faulty name path fault : blind_to_calls R → follows R (faulty name path fault).
Proof. intros Hb. unfold faulty. eauto 10 using follows_fs_call with follows. Qed.

Lemma follows_time_time : blind_to_clock R → follows R time_time.
Proof.
  intros Hb. unfold time_time. eauto 10 using follows_modify with follows.
Qed.
Lemma follows_datetime_now : blind_to_clock R → follows R datetime_now_isoformat.
Proof.
  intros Hb. unfold datetime_now_isoformat. eauto 10 using follows_modify with follows.
Qed.

Lemma follows_check_accessible path : blind_to_calls R → follows R (check_accessible path).
Proof.
  intros Hb. unfold check_accessible.
  eauto 30 using follows_path_exists, follows_path_is_file, follows_os_access,
    follows_path_is_symlink with follows.
Qed.

Lemma follows_load_history : blind_to_calls R → follows R load_history.
Proof.
  intros Hb. unfold load_history. eauto 20 using follows_fs_call with follows.
Qed.
End Primitives.

Lemma same_blind_to_calls {B} (f : World → B) :
  (∀ name path w, f (traced name path w) = f w) → blind_to_calls (same f).
Proof. intros Hf name path w. apply Hf. Qed.

Lemma same_blind_to_clock {B} (f : World → B) :
  (∀ w, f (tick w) = f w) → blind_to_clock (same f).
Proof. intros Hf w. apply Hf. Qed.

Lemma but_trace_blind : blind_to_calls (same but_trace).
Proof. by intros name path w. Qed.

Lemma save_faults_blind : blind_to_calls (same save_faults).
Proof. by intros name path w. Qed.

Lemma save_faults_blind_to_clock : blind_to_clock (same save_faults).
Proof. by intros w. Qed.

Lemma scene_blind : blind_to_calls (same scene).
Proof. by intros name path w. Qed.

Lemma scene_blind_to_clock : blind_to_clock (same scene).
Proof. by intros w. Qed.

#[global] Hint Resolve but_trace_blind save_faults_blind save_faults_blind_to_clock
  scene_blind scene_blind_to_clock : follows.
#[global] Hint Resolve follows_fs_call follows_path_exists follows_path_is_file
  follows_os_access follows_path_is_symlink follows_path_stat follows_open_rb
  follows_faulty follows_time_time follows_datetime_now follows_check_accessible
  follows_load_history : follows.

(** ** should_exclude and the scan *)

Section ScanFrames.
Set Default Proof Using "Type*".
Variable fnmatch : string -> string -> bool.
Context (R : World → World → Prop) `{!PreOrder R}.

Lemma follows_should_exclude filename filepath :
  blind_to_calls R → follows R (should_exclude fnmatch filename filepath).
Proof. intros Hb. unfold should_exclude. eauto 20 with follows. Qed.

Lemma blind_scanned c w :
  blind_to_scan_counters R → R w (with_eng (set_total_files_scanned c) w).
Proof.
  intros Hb. pose proof (Hb c (total_files_excluded (eng w)) w) as Hw.
  revert Hw. by destruct w as [[] f v].
Qed.

Lemma blind_excluded c w :
  blind_to_scan_counters R → R w (with_eng (set_total_files_excluded c) w).
Proof.
  intros Hb. pose proof (Hb (total_files_scanned (eng w)) c w) as Hw.
  revert Hw. by destruct w as [[] f v].
Qed.

Lemma follows_scan_entries entries qualified :
  blind_to_calls R → blind_to_scan_counters R →
  follows R (scan_entries fnmatch entries qualified).
Proof.
  intros Hb Hc. revert qualified.
  induction entries as [|entry rest IH]; intros qualified; simpl.
  - eauto with follows.
  - apply follows_bind; try apply _; [eauto with follows|intros ?].
    destruct (de_is_file entry) as [[|]|e]; [|apply IH..].
    apply follows_bind; try apply _; [ |intros ?].
    { apply follows_modify. intros w. by apply blind_scanned. }
    apply follows_bind; try apply _; [eauto with follows|intros item_path].
    apply follows_bind; try apply _; [by apply follows_should_exclude|intros x].
    destruct (x.1); [|apply IH].
    apply follows_bind; try apply _; [|intros ?; apply IH].
    apply follows_modify. intros w. by apply blind_excluded.
Qed.

Lemma follows_scan_directory :
  blind_to_calls R → blind_to_scan_counters R → follows R (scan_directory fnmatch).
Proof.
  intros Hb Hc. unfold scan_directory, os_access_dir, script_dir_exists, os_scandir.
  eauto 40 using follows_scan_entries with follows.
Qed.

Lemma follows_scan_qualified_files force :
  blind_to_calls R → blind_to_clock R → blind_to_scan_counters R →
  blind_to_scan_cache R →
  follows R (scan_qualified_files fnmatch force).
Proof.
  intros Hb Ht Hc Hq. unfold scan_qualified_files.
  apply follows_bind; try apply _; [eauto with follows|intros current_time].
  apply follows_bind; try apply _; [eauto with follows|intros e].
  destruct (cache_is_fresh _ _ _); [eauto with follows|].
  apply follows_bind; try apply _; [by apply follows_scan_directory|intros [returned|qualified]].
  - eauto with follows.
  - apply follows_bind; try apply _; [|eauto with follows].
    apply follows_modify. intros w. apply Hq.
Qed.

Lemma follows_show_statistics history :
  blind_to_calls R → blind_to_clock R → blind_to_scan_counters R →
  blind_to_scan_cache R →
  follows R (show_statistics fnmatch history).
Proof.
  intros Hb Ht Hc Hq. unfold show_statistics.
  eauto 10 using follows_scan_qualified_files with follows.
Qed.

Lemma follows_get_available_files :
  blind_to_calls R → blind_to_clock R → blind_to_scan_counters R →
  blind_to_scan_cache R →
  follows R (get_available_files fnmatch).
Proof.
  intros Hb Ht Hc Hq. unfold get_available_files.
  apply follows_bind; try apply _; [eauto with follows|intros history].
  apply follows_bind; try apply _; [by apply follows_scan_qualified_files|intros [[q s] m]].
  eauto with follows.
Qed.
End ScanFrames.

Lemma on_disk_blind : blind_to_calls (same on_disk).
Proof. by intros name path w. Qed.
Lemma on_disk_blind_to_clock : blind_to_clock (same on_disk).
Proof. by intros w. Qed.
Lemma on_disk_blind_to_scan_counters : blind_to_scan_counters (same on_disk).
Proof. by intros c1 c2 w. Qed.
Lemma on_disk_blind_to_scan_cache : blind_to_scan_cache (same on_disk).
Proof. by intros q t w. Qed.
Lemma scene_blind_to_scan_counters : blind_to_scan_counters (same scene).
Proof. by intros c1 c2 w. Qed.
Lemma scene_blind_to_scan_cache : blind_to_scan_cache (same scene).
Proof. by intros q t w. Qed.
Lemma save_faults_blind_to_scan_counters : blind_to_scan_counters (same save_faults).
Proof. by intros c1 c2 w. Qed.
Lemma save_faults_blind_to_scan_cache : blind_to_scan_cache (same save_faults).
Proof. by intros q t w. Qed.

#[global] Hint Resolve on_disk_blind on_disk_blind_to_clock
  on_disk_blind_to_scan_counters on_disk_blind_to_scan_cache
  scene_blind_to_scan_counters scene_blind_to_scan_cache
  save_faults_blind_to_scan_counters save_faults_blind_to_scan_cache : follows.

(** ** The methods that raise nothing *)

Section NoRaise.
Variable fnmatch : string -> string -> bool.

Lemma returns_fs_call name path : returns (fs_call name path).
Proof. apply returns_modify. Qed.
Hint Resolve returns_fs_call : returns.

Lemma returns_time_time : returns time_time.
Proof. unfold time_time. eauto 10 with returns. Qed.
Lemma returns_datetime_now : returns datetime_now_isoformat.
Proof. unfold datetime_now_isoformat. eauto 10 with returns. Qed.
Hint Resolve returns_time_time returns_datetime_now : returns.

Lemma returns_check_accessible path : returns (check_accessible path).
Proof. unfold check_accessible. eauto with returns. Qed.

Lemma returns_should_exclude filename filepath :
  returns (should_exclude fnmatch filename filepath).
Proof.
  unfold should_exclude. eauto 10 using returns_check_accessible with returns.
Qed.

Lemma returns_scan_entries entries qualified :
  returns (scan_entries fnmatch entries qualified).
Proof.
  revert qualified. induction entries as [|entry rest IH]; intros qualified; simpl.
  - eauto with returns.
  - apply returns_bind; [eauto with returns|intros ?].
    destruct (de_is_file entry) as [[|]|e]; [|apply IH..].
    apply returns_bind; [eauto with returns|intros ?].
    apply returns_bind; [eauto with returns|intros item_path].
    apply returns_bind; [apply returns_should_exclude|intros x].
    destruct (x.1); [|apply IH].
    apply returns_bind; [eauto with returns|intros ?; apply IH].
Qed.

Lemma returns_scan_directory : returns (scan_directory fnmatch).
Proof. unfold scan_directory. eauto with returns. Qed.

Lemma returns_scan_qualified_files force :
  returns (scan_qualified_files fnmatch force).
Proof.
  unfold scan_qualified_files.
  apply returns_bind; [eauto with returns|intros current_time].
  apply returns_bind; [eauto with returns|intros e].
  destruct (cache_is_fresh _ _ _); [eauto with returns|].
  apply returns_bind; [apply returns_scan_directory|intros [returned|qualified]];
    eauto with returns.
Qed.

Lemma returns_load_history : returns load_history.
Proof. unfold load_history. eauto with returns. Qed.

Lemma returns_remove_temp_file temp_file : returns (remove_temp_file temp_file).
Proof. unfold remove_temp_file. eauto with returns. Qed.

Lemma returns_save_history history : returns (save_history history).
Proof.
  unfold save_history.
  apply returns_bind; [eauto with returns|intros p].
  apply returns_bind; [eauto with returns|intros created].
  destruct created; simpl; [|eauto with returns].
  apply returns_bind; [eauto with returns|intros t].
  apply returns_bind; [eauto with returns|intros temp_file].
  apply returns_try_finally; [eauto with returns|apply returns_remove_temp_file].
Qed.

Lemma returns_get_available_files : returns (get_available_files fnmatch).
Proof.
  unfold get_available_files.
  apply returns_bind; [apply returns_load_history|intros history].
  apply returns_bind; [apply returns_scan_qualified_files|intros [[q s] m]].
  eauto with returns.
Qed.

Lemma returns_retry_loop attempts filename : returns (retry_loop attempts filename).
Proof.
  induction attempts as [|attempt rest IH]; simpl; [eauto with returns|].
  apply returns_bind; [eauto with returns|intros success].
  destruct success; [eauto with returns|apply IH].
Qed.

Lemma returns_open_file_with_retry filename : returns (open_file_with_retry filename).
Proof.
  unfold open_file_with_retry. eauto using returns_retry_loop with returns.
Qed.

Lemma returns_show_statistics history : returns (show_statistics fnmatch history).
Proof.
  unfold show_statistics.
  apply returns_bind; [apply returns_scan_qualified_files|intros r].
  eauto 10 with returns.
Qed.

Lemma returns_reset_history_if_needed history available :
  returns (reset_history_if_needed fnmatch history available).
Proof.
  unfold reset_history_if_needed. destruct available; [|eauto with returns].
  apply returns_bind; [apply returns_scan_qualified_files|intros [[q s] m]].
  destruct s; simpl; [|eauto with returns].
  destruct q; [eauto with returns|].
  apply returns_bind; [eauto with returns|intros now].
  apply returns_bind; [apply returns_save_history|intros ?].
  eauto with returns.
Qed.

Lemma returns_cleanup_loop files : returns (cleanup_loop files).
Proof.
  induction files as [|temp_file rest IH]; simpl; [eauto with returns|].
  apply returns_bind; [eauto with returns|intros ?; apply IH].
Qed.

Lemma returns_cleanup_all_temp_files : returns _cleanup_all_temp_files.
Proof.
  unfold _cleanup_all_temp_files. eauto using returns_cleanup_loop with returns.
Qed.

Lemma returns_run : returns (run fnmatch).
Proof.
  unfold run. apply returns_try_finally; [|apply returns_cleanup_all_temp_files].
  eauto with returns.
Qed.

End NoRaise.

(* ===================================================================== *)
(** * should_exclude and scan_qualified_files, in full *)
(* ===================================================================== *)

Section Verdicts.
Variable fnmatch : string -> string -> bool.

Lemma node_at_traced name path w p : node_at (traced name path w) p = node_at w p.
Proof. done. Qed.

Lemma path_exists_spec p w :
  path_exists p w = (nd_exists (node_at w p), traced "exists" p w).
Proof. done. Qed.
Lemma path_is_file_spec p w :
  path_is_file p w = (nd_is_file (node_at w p), traced "is_file" p w).
Proof. done. Qed.
Lemma os_access_spec p w :
  os_access p w = (Ok (nd_readable (node_at w p)), traced "access" p w).
Proof. done. Qed.
Lemma path_is_symlink_spec p w :
  path_is_symlink p w = (nd_is_symlink (node_at w p), traced "is_symlink" p w).
Proof. done. Qed.

(** the verdict on the file behind a name that passed the tests on
    names *)
Lemma check_accessible_verdict w filepath :
  ∃ reason w',
    check_accessible filepath w = (Ok (negb (accessible w filepath), reason), w')
    ∧ (is_Some reason ↔ accessible w filepath = false)
    ∧ but_trace w' = but_trace w.
Proof.
  unfold check_accessible, accessible, try_except.
  unfold bind at 1, gets at 1. unfold bind at 1. rewrite path_exists_spec.
  destruct (nd_exists (node_at w filepath)) as [[|]|e1]; simpl;
    [|by eexists _, _; split_and!; [done|split; eauto|done]..].
  unfold bind at 1. rewrite path_is_file_spec, node_at_traced.
  destruct (nd_is_file (node_at w filepath)) as [[|]|e2]; simpl;
    [|by eexists _, _; split_and!; [done|split; eauto|done]..].
  unfold bind at 1. rewrite os_access_spec, !node_at_traced.
  destruct (nd_readable (node_at w filepath)); simpl;
    [|by eexists _, _; split_and!; [done|split; eauto|done]].
  destruct (exclude_symlinks (config (eng w))); simpl.
  - unfold bind at 1. rewrite path_is_symlink_spec, !node_at_traced.
    destruct (nd_is_symlink (node_at w filepath)) as [[|]|e4]; simpl.
    + by eexists _, _; split_and!; [done|split; eauto|done].
    + eexists _, _; split_and!; [done| |done].
      split; [by intros [? ?]|done].
    + by eexists _, _; split_and!; [done|split; eauto|done].
  - eexists _, _; split_and!; [done| |done].
    split; [by intros [? ?]|done].
Qed.

Lemma should_exclude_verdict w filename filepath :
  ∃ reason w',
    should_exclude fnmatch filename filepath w
      = (Ok (negb (qualifies_at fnmatch w filename filepath), reason), w')
    ∧ (is_Some reason ↔ qualifies_at fnmatch w filename filepath = false)
    ∧ but_trace w' = but_trace w.
Proof.
  unfold should_exclude, qualifies_at, excluded_by_name, hidden.
  destruct (PyStr.truthy filename); simpl;
    [|by eexists _, _; split_and!; [done|split; eauto|done]].
  destruct (PyStr.startswith filename "." || PyStr.startswith filename "~"); simpl;
    [by eexists _, _; split_and!; [done|split; eauto|done]|].
  unfold bind at 1, gets at 1.
  destruct (exclude_patterns_loop _ _ _); simpl;
    [by eexists _, _; split_and!; [done|split; eauto|done]|].
  destruct (executable_extensions_loop _ _); simpl;
    [by eexists _, _; split_and!; [done|split; eauto|done]|].
  apply check_accessible_verdict.
Qed.


Lemma should_exclude_name_only w filename filepath :
  excluded_by_name fnmatch (config (eng w)) filename = true →
  ∃ reason, should_exclude fnmatch filename filepath w = (Ok (true, Some reason), w).
Proof.
  unfold excluded_by_name, hidden, should_exclude.
  destruct (PyStr.truthy filename); simpl; [|by eexists].
  destruct (PyStr.startswith filename "." || PyStr.startswith filename "~"); simpl;
    [by eexists|].
  unfold bind at 1, gets at 1.
  destruct (exclude_patterns_loop _ _ _); simpl; [by eexists|].
  destruct (executable_extensions_loop _ _); simpl; [by eexists|done].
Qed.

(** X7. A name that is excluded for the name alone (empty, hidden,
    matched by a pattern or by an executable extension) is excluded
    without any call on the file system: the world is as before. *)
Theorem should_exclude_by_name_asks_no_file (w : World) (filename filepath : string) :
  excluded_by_name fnmatch (config (eng w)) filename = true →
  ∃ reason, should_exclude fnmatch filename filepath w = (Ok (true, Some reason), w).
Proof. apply should_exclude_name_only. Qed.

End Verdicts.

(** ** The patterns that __init__ adds *)

Section EssentialExcludes.

Lemma add_essential_excludes_elem_of essential patterns x :
  x ∈ add_essential_excludes essential patterns ↔ x ∈ patterns ∨ x ∈ essential.
Proof.
  revert patterns. induction essential as [|e rest IH]; intros patterns; simpl.
  - set_solver.
  - rewrite IH. case_bool_decide; set_solver.
Qed.

Lemma add_essential_excludes_prefix essential patterns :
  patterns `prefix_of` add_essential_excludes essential patterns.
Proof.
  revert patterns. induction essential as [|e rest IH]; intros patterns; simpl.
  - done.
  - case_bool_decide; [apply IH|].
    etrans; [|apply IH]. by apply prefix_app_r.
Qed.

Lemma add_essential_excludes_NoDup essential patterns :
  NoDup patterns → NoDup (add_essential_excludes essential patterns).
Proof.
  revert patterns. induction essential as [|e rest IH]; intros patterns Hnd; simpl.
  - done.
  - apply IH. case_bool_decide; [done|].
    apply NoDup_app. split_and!; [done| |apply NoDup_singleton].
    by intros x Hx ->%list_elem_of_singleton.
Qed.

Lemma add_essential_excludes_length essential patterns :
  length (add_essential_excludes essential patterns)
    ≤ length patterns + length essential.
Proof.
  revert patterns. induction essential as [|e rest IH]; intros patterns; simpl.
  - lia.
  - etrans; [apply IH|]. case_bool_decide; [lia|]. rewrite length_app. simpl. lia.
Qed.

(** X8. The loop of [__init__] over the essential names: afterwards
    the patterns are the configured ones, in their order, followed by
    the essential names that were not among them; a name is a pattern
    afterwards exactly when it was one or is essential, and patterns
    that were distinct stay distinct. *)
Theorem essential_excludes_are_appended (essential patterns : list string) :
  patterns `prefix_of` add_essential_excludes essential patterns ∧
  (∀ x, x ∈ add_essential_excludes essential patterns ↔ x ∈ patterns ∨ x ∈ essential) ∧
  (NoDup patterns → NoDup (add_essential_excludes essential patterns)) ∧
  length (add_essential_excludes essential patterns)
    ≤ length patterns + length essential.
Proof.
  split_and!.
  - apply add_essential_excludes_prefix.
  - intros x. apply add_essential_excludes_elem_of.
  - apply add_essential_excludes_NoDup.
  - apply add_essential_excludes_length.
Qed.

End EssentialExcludes.

Section OwnFiles.
Variable fnmatch : string -> string -> bool.

Lemma string_prefix_refl (s : string) : String.prefix s s = true.
Proof.
  induction s as [|a s IH]; [done|]. cbn.
  destruct (ascii_dec a a); [exact IH|congruence].
Qed.

Lemma contains_refl (s : string) : PyStr.contains s s = true.
Proof. destruct s; [done|]. cbn [PyStr.contains]. by rewrite string_prefix_refl. Qed.

Lemma string_length_lower s : String.length (PyStr.lower s) = String.length s.
Proof. induction s; simpl; [done|]. by f_equal. Qed.

Lemma drop_chars_all s : PyStr.drop_chars (String.length s) s = "".
Proof. induction s; simpl; done. Qed.

(** the suffix of a name after its first character ends the name *)
Lemma endswith_tail a s : PyStr.endswith (String a s) s = true.
Proof.
  unfold PyStr.endswith. simpl.
  assert ((String.length s <=? S (String.length s)) = true) as ->
    by (apply Nat.leb_le; lia).
  replace (S (String.length s) - String.length s) with 1 by lia. simpl.
  by rewrite String.eqb_refl.
Qed.

(** a pattern that is not empty matches the name that is spelled like
    it *)
Lemma pattern_excludes_itself name :
  name ≠ "" → pattern_excludes fnmatch name name = true.
Proof.
  intros Hne. unfold pattern_excludes, PyStr.truthy.
  destruct (String.eqb name "") eqn:Hempty; [by apply String.eqb_eq in Hempty|].
  simpl. destruct (PyStr.startswith name "*."); [|by rewrite contains_refl].
  destruct name as [|a s]; [done|]. simpl. apply endswith_tail.
Qed.

Lemma exclude_patterns_loop_elem_of patterns name :
  name ≠ "" → name ∈ patterns → exclude_patterns_loop fnmatch patterns name = true.
Proof.
  intros Hne. induction patterns as [|p rest IH]; simpl; [by intros ?%elem_of_nil|].
  intros [->|Hin]%elem_of_cons.
  - by rewrite pattern_excludes_itself.
  - destruct (pattern_excludes _ _ _); [done|by apply IH].
Qed.

Lemma excluded_by_name_listed cfg name :
  name ∈ exclude_patterns cfg → excluded_by_name fnmatch cfg name = true.
Proof.
  intros Hin. unfold excluded_by_name, PyStr.truthy.
  destruct (String.eqb name "") eqn:Hempty; [done|]. simpl.
  apply String.eqb_neq in Hempty.
  rewrite (exclude_patterns_loop_elem_of _ _ Hempty Hin).
  by destruct (hidden name).
Qed.

(** X9. The files of the program itself are never selected: a name
    that [__init__] made essential is excluded by [should_exclude] for
    its name alone, whatever the configured patterns are and whatever
    the file system says. *)
Theorem essential_names_are_excluded (w : World) (cfg : Config)
    (essential : list string) (name filepath : string) :
  config (eng w) = with_essential_excludes essential cfg →
  name ∈ essential →
  ∃ reason, should_exclude fnmatch name filepath w = (Ok (true, Some reason), w).
Proof.
  intros Hcfg Hin. apply should_exclude_name_only.
  apply excluded_by_name_listed. rewrite Hcfg. simpl.
  apply add_essential_excludes_elem_of. by right.
Qed.

End OwnFiles.

(** ** The scan of the directory *)

Section Scan.
Variable fnmatch : string -> string -> bool.

Lemma qualifies_ext w w' name :
  scene w' = scene w → qualifies fnmatch w' name = qualifies fnmatch w name.
Proof.
  unfold scene, qualifies, qualifies_at, accessible, entry_path, node_at.
  by intros [= -> -> -> ->].
Qed.

Lemma filter_qualifies_ext w w' (l : list string) :
  scene w' = scene w →
  filter (qualifies fnmatch w') l = filter (qualifies fnmatch w) l.
Proof.
  intros Hs. apply list_filter_iff. intros x. by rewrite (qualifies_ext w w').
Qed.

Lemma scene_of_but_trace w w' : but_trace w' = but_trace w → scene w' = scene w.
Proof.
  intros H.
  assert (eng w' = eng w) as He by exact (f_equal (λ x, x.1.1) H).
  assert (nodes (fs w') = nodes (fs w)) as Hn by exact (f_equal (λ x, nodes x.1.2) H).
  assert (env w' = env w) as Hv by exact (f_equal (λ x, x.2) H).
  unfold scene. by rewrite He, Hv, Hn.
Qed.

Lemma file_names_cons entry rest :
  file_names (entry :: rest) =
    if is_ok_true (de_is_file entry) then de_name entry :: file_names rest
    else file_names rest.
Proof.
  unfold file_names. rewrite filter_cons.
  by destruct (is_ok_true (de_is_file entry)).
Qed.

Lemma scan_entries_spec entries : ∀ qualified w,
  ∃ w',
    scan_entries fnmatch entries qualified w
      = (Ok (qualified ++ filter (qualifies fnmatch w) (file_names entries)), w')
    ∧ scene w' = scene w
    ∧ on_disk w' = on_disk w
    ∧ but_scan_counters (eng w') = but_scan_counters (eng w)
    ∧ scanned_of w' = (scanned_of w + Z.of_nat (length (file_names entries)))%Z
    ∧ excluded_of w' =
        (excluded_of w + Z.of_nat (length (file_names entries))
         - Z.of_nat (length (filter (qualifies fnmatch w) (file_names entries))))%Z.
Proof.
  induction entries as [|entry rest IH]; intros qualified w.
  - exists w. simpl. rewrite app_nil_r. split_and!; try done; lia.
  - rewrite file_names_cons. simpl.
    unfold bind at 1. rewrite fs_call_spec.
    set (w1 := traced "DirEntry.is_file" (de_name entry) w).
    assert (scene w1 = scene w) as Hs1 by done.
    destruct (de_is_file entry) as [[|]|e]; simpl.
    2,3: destruct (IH qualified w1) as (w' & Hr & Hs & Hd & He & Hn & Hx);
         exists w'; rewrite Hr;
         rewrite (filter_qualifies_ext w w1) by done;
         split_and!; [done|by rewrite Hs|done|done|done|done].
    munfold. simpl.
    set (w2 := with_eng _ w1).
    destruct (should_exclude_verdict fnmatch w2 (de_name entry)
                (entry_path w2 (de_name entry))) as (reason & w3 & Hse & _ & Hw3).
    rewrite Hse. simpl.
    assert (scene w2 = scene w) as Hs2 by done.
    pose proof (scene_of_but_trace _ _ Hw3) as Hs3.
    assert (qualifies_at fnmatch w2 (de_name entry) (entry_path w2 (de_name entry))
            = qualifies fnmatch w (de_name entry)) as ->.
    { symmetry. by apply (qualifies_ext w w2). }
    assert (eng w3 = eng w2) as He3 by exact (f_equal (λ x, x.1.1) Hw3).
    assert (on_disk w3 = on_disk w) as Hd3 by exact (f_equal (λ x, x.1.2) Hw3).
    assert (but_scan_counters (eng w3) = but_scan_counters (eng w)) as Hb3
      by (by rewrite He3).
    assert (scanned_of w3 = (scanned_of w + 1)%Z) as Hn3
      by (unfold scanned_of; by rewrite He3).
    assert (excluded_of w3 = excluded_of w) as Hx3
      by (unfold excluded_of; by rewrite He3).
    assert (scene w3 = scene w) as Hs3' by (by rewrite Hs3).
    clearbody w2 w1. clear Hse.
    rewrite filter_cons.
    destruct (qualifies fnmatch w (de_name entry)) eqn:Hq; simpl.
    + destruct (IH (qualified ++ [de_name entry]) w3)
        as (w' & Hr & Hs & Hd & He & Hn & Hx).
      exists w'. rewrite Hr.
      rewrite (filter_qualifies_ext w w3) by done.
      rewrite (filter_qualifies_ext w w3) in Hx by done.
      rewrite <-(assoc_L (++)). simpl.
      split_and!; [done|congruence|congruence|congruence|lia|lia].
    + set (w4 := with_eng _ w3).
      assert (scene w4 = scene w) as Hs4 by done.
      assert (on_disk w4 = on_disk w) as Hd4 by done.
      assert (but_scan_counters (eng w4) = but_scan_counters (eng w)) as Hb4.
      { etrans; [|exact Hb3]. done. }
      assert (scanned_of w4 = (scanned_of w + 1)%Z) as Hn4 by done.
      assert (excluded_of w4 = (excluded_of w + 1)%Z) as Hx4.
      { rewrite <-Hx3. done. }
      clearbody w4.
      destruct (IH qualified w4) as (w' & Hr & Hs & Hd & He & Hn & Hx).
      exists w'. rewrite Hr.
      rewrite (filter_qualifies_ext w w4) by done.
      rewrite (filter_qualifies_ext w w4) in Hx by done.
      split_and!; [done|congruence|congruence|congruence|lia|lia].
Qed.

Lemma scan_directory_listing w entries :
  dir_access (fs w) = true → dir_exists (fs w) = Ok true →
  dir_scandir (fs w) = Ok entries →
  ∃ w',
    scan_directory fnmatch w
      = (Ok (inr (filter (qualifies fnmatch w) (file_names entries))), w')
    ∧ scene w' = scene w
    ∧ on_disk w' = on_disk w
    ∧ but_scan_counters (eng w') = but_scan_counters (eng w)
    ∧ scanned_of w' = (scanned_of w + Z.of_nat (length (file_names entries)))%Z
    ∧ excluded_of w' =
        (excluded_of w + Z.of_nat (length (file_names entries))
         - Z.of_nat (length (filter (qualifies fnmatch w) (file_names entries))))%Z.
Proof.
  intros Ha Hx Hl.
  unfold scan_directory, os_access_dir, script_dir_exists, os_scandir.
  munfold. simpl. rewrite Ha. simpl. rewrite Hx. simpl. rewrite Hl.
  match goal with |- context [scan_entries fnmatch entries [] ?w0] =>
    destruct (scan_entries_spec entries [] w0) as (w' & -> & Hs & Hd & He & Hn & Hc);
    rewrite (filter_qualifies_ext w w0) in * by done
  end.
  exists w'. by split_and!.
Qed.

(** what the [try] block of the scan can return early *)
Lemma scan_directory_failure w :
  dir_access (fs w) = false ∨ dir_exists (fs w) ≠ Ok true
    ∨ (∃ e, dir_scandir (fs w) = Raise e) →
  ∃ msg w',
    scan_directory fnmatch w = (Ok (inl ([], false, Some msg)), w')
    ∧ eng w' = eng w ∧ on_disk w' = on_disk w ∧ env w' = env w.
Proof.
  intros Hfail.
  unfold scan_directory, os_access_dir, script_dir_exists, os_scandir.
  munfold. simpl.
  destruct (dir_access (fs w)); simpl; [|by eexists _, _].
  destruct (dir_exists (fs w)) as [[|]|e]; simpl; [|by eexists _, _..].
  destruct (dir_scandir (fs w)) as [entries|e]; simpl; [|by eexists _, _].
  by destruct Hfail as [?|[?|[? ?]]].
Qed.

Lemma scan_qualified_files_miss w force :
  cache_is_fresh force (clock (env w) (clock_reads (env w))) (eng w) = false →
  scan_qualified_files fnmatch force w =
    match scan_directory fnmatch (tick w) with
    | (Ok (inl returned), w') => (Ok returned, w')
    | (Ok (inr qualified), w') =>
        (Ok (qualified, true, None),
         with_eng (λ e, set_cache_timestamp (clock (env w) (clock_reads (env w)))
                          (set_qualified_files_cache (Some qualified) e)) w')
    | (Raise e, w') => (Raise e, w')
    end.
Proof.
  intros Hmiss. unfold scan_qualified_files, time_time. munfold. simpl.
  rewrite Hmiss. destruct (scan_directory fnmatch (tick w)) as [[[?|?]|?] ?]; done.
Qed.

(** X10. A scan that does not answer from the cache, in a directory
    that can be listed, returns the names of the entries that are
    files and that [should_exclude] lets pass, in the order in which
    the directory lists them, with success and no error.  The list is
    cached under the time at which the scan began, and no file on disk
    is changed. *)
Theorem scan_lists_the_qualifying_files (w : World) (force_refresh : bool)
    (entries : list DirEntry) :
  cache_is_fresh force_refresh (clock (env w) (clock_reads (env w))) (eng w) = false →
  dir_access (fs w) = true →
  dir_exists (fs w) = Ok true →
  dir_scandir (fs w) = Ok entries →
  ∃ w',
    scan_qualified_files fnmatch force_refresh w
      = (Ok (filter (qualifies fnmatch w) (file_names entries), true, None), w') ∧
    _qualified_files_cache (eng w')
      = Some (filter (qualifies fnmatch w) (file_names entries)) ∧
    _cache_timestamp (eng w') = clock (env w) (clock_reads (env w)) ∧
    on_disk w' = on_disk w.
Proof.
  intros Hmiss Ha Hx Hl. rewrite (scan_qualified_files_miss w force_refresh Hmiss).
  destruct (scan_directory_listing (tick w) entries) as (w' & -> & Hs & Hd & _);
    [done..|].
  rewrite (filter_qualifies_ext w (tick w)) by done.
  eexists. by split_and!.
Qed.

(** X11. The two counters of the scan: a scan that lists the
    directory counts every entry that is a file as scanned, and every
    such entry that it does not return as excluded; entries that are no
    files, or whose kind cannot be told, are not counted. *)
Theorem scan_counts_the_files (w : World) (force_refresh : bool)
    (entries : list DirEntry) :
  cache_is_fresh force_refresh (clock (env w) (clock_reads (env w))) (eng w) = false →
  dir_access (fs w) = true →
  dir_exists (fs w) = Ok true →
  dir_scandir (fs w) = Ok entries →
  ∃ qualified ok msg w',
    scan_qualified_files fnmatch force_refresh w = (Ok (qualified, ok, msg), w') ∧
    scanned_of w' = (scanned_of w + Z.of_nat (length (file_names entries)))%Z ∧
    excluded_of w' =
      (excluded_of w + Z.of_nat (length (file_names entries))
       - Z.of_nat (length qualified))%Z ∧
    (length qualified ≤ length (file_names entries) ≤ length entries).
Proof.
  intros Hmiss Ha Hx Hl. rewrite (scan_qualified_files_miss w force_refresh Hmiss).
  destruct (scan_directory_listing (tick w) entries)
    as (w' & -> & Hs & Hd & _ & Hn & Hc); [done..|].
  rewrite (filter_qualifies_ext w (tick w)) in * by done.
  eexists _, _, _, _. split_and!; [done|exact Hn|exact Hc| |].
  - apply length_filter.
  - unfold file_names. rewrite length_fmap. apply length_filter.
Qed.

(** X12. A scan that cannot list the directory (the directory is not
    readable, does not exist, or listing it raises) answers with the
    empty list, failure and a message, and raises nothing; the cached
    list and its time, the counters and the files on disk are as
    before, so an older cached list stays in place. *)
Theorem scan_failure_keeps_the_cache (w : World) (force_refresh : bool) :
  cache_is_fresh force_refresh (clock (env w) (clock_reads (env w))) (eng w) = false →
  dir_access (fs w) = false ∨ dir_exists (fs w) ≠ Ok true
    ∨ (∃ e, dir_scandir (fs w) = Raise e) →
  ∃ msg w',
    scan_qualified_files fnmatch force_refresh w = (Ok ([], false, Some msg), w') ∧
    eng w' = eng w ∧
    on_disk w' = on_disk w.
Proof.
  intros Hmiss Hfail. rewrite (scan_qualified_files_miss w force_refresh Hmiss).
  destruct (scan_directory_failure (tick w) Hfail) as (msg & w' & -> & He & Hd & _).
  by exists msg, w'.
Qed.

(** X13. After a scan that listed the directory, an unforced scan
    made before [cache_ttl] seconds have passed since the first one
    began returns the same list, and does so from the cache: the
    file system is not asked. *)
Theorem rescan_within_ttl_repeats_the_list (w : World) (force_refresh : bool)
    (entries : list DirEntry) :
  cache_is_fresh force_refresh (clock (env w) (clock_reads (env w))) (eng w) = false →
  dir_access (fs w) = true →
  dir_exists (fs w) = Ok true →
  dir_scandir (fs w) = Ok entries →
  (clock (env w) (S (clock_reads (env w))) - clock (env w) (clock_reads (env w))
     < Qc_of_Z (cache_ttl (config (eng w))))%Qc →
  ∃ qualified w',
    scan_qualified_files fnmatch force_refresh w = (Ok (qualified, true, None), w') ∧
    scan_qualified_files fnmatch false w' = (Ok (qualified, true, None), tick w').
Proof.
  intros Hmiss Ha Hx Hl Hage.
  rewrite (scan_qualified_files_miss w force_refresh Hmiss).
  destruct (scan_directory_listing (tick w) entries)
    as (w' & Hscan & Hs & Hd & _); [done..|].
  assert (env w' = env (tick w)) as Hv.
  { eapply (follows_scan_directory fnmatch (same env)); [| |exact Hscan]; done. }
  rewrite Hscan. eexists _, _. split; [done|].
  unfold scan_qualified_files, time_time. munfold. simpl.
  unfold cache_is_fresh. simpl. rewrite Hv. simpl.
  assert (config (eng w') = config (eng w)) as -> by exact (f_equal (λ x, x.1.1.1) Hs).
  by rewrite (bool_decide_eq_true_2 _ Hage).
Qed.

Lemma scan_directory_shape w r w' :
  scan_directory fnmatch w = (r, w') →
  (∃ msg, r = Ok (inl ([], false, Some msg))) ∨ (∃ qualified, r = Ok (inr qualified)).
Proof.
  unfold scan_directory, os_access_dir, script_dir_exists, os_scandir.
  munfold. simpl.
  destruct (dir_access (fs w)); simpl; [|intros [= <- _]; by left; eexists].
  destruct (dir_exists (fs w)) as [[|]|e]; simpl;
    [|intros [= <- _]; by left; eexists..].
  destruct (dir_scandir (fs w)) as [entries|e]; simpl;
    [|intros [= <- _]; by left; eexists].
  match goal with |- context [scan_entries fnmatch entries [] ?w0] =>
    destruct (scan_entries_spec entries [] w0) as (w1 & -> & _)
  end.
  intros [= <- _]. right. by eexists.
Qed.

(** X14. [scan_qualified_files] raises nothing, whatever the file
    system does: it answers with a list, success and no message, or with
    the empty list, failure and a message; and it changes no file on
    disk. *)
Theorem scan_always_answers (w : World) (force_refresh : bool) :
  ∃ qualified ok msg w',
    scan_qualified_files fnmatch force_refresh w = (Ok (qualified, ok, msg), w') ∧
    (ok = true → msg = None) ∧
    (ok = false → qualified = [] ∧ is_Some msg) ∧
    on_disk w' = on_disk w.
Proof.
  destruct (scan_qualified_files fnmatch force_refresh w) as [r w'] eqn:Hscan.
  assert (on_disk w' = on_disk w) as Hd.
  { eapply (follows_scan_qualified_files fnmatch (same on_disk)); [..|exact Hscan];
      eauto with follows. }
  revert Hscan. unfold scan_qualified_files, time_time. munfold. simpl.
  destruct (cache_is_fresh _ _ _).
  { intros [= <- _]. eexists _, _, _, _. by split_and!. }
  destruct (scan_directory fnmatch (tick w)) as [r1 w1] eqn:Hdir.
  destruct (scan_directory_shape _ _ _ Hdir) as [[msg ->]|[qualified ->]].
  - intros [= <- _]. eexists _, _, _, _. split_and!; [done|done| |done].
    intros _. by split.
  - intros [= <- _]. eexists _, _, _, _. by split_and!.
Qed.

End Scan.

(* ===================================================================== *)
(** * The history file: loading, saving, cleaning up *)
(* ===================================================================== *)

Section HistoryFile.

Lemma kept_setdefault {A} (x : option A) (v : A) : kept x (setdefault x v).
Proof. by intros a ->. Qed.

Lemma repair_statistics_complete s : complete_statistics (repair_statistics s).
Proof.
  unfold complete_statistics, repair_statistics, setdefault. simpl.
  split_and!; by case_match.
Qed.

Lemma repair_history_well_formed' loaded : well_formed_history (repair_history loaded).
Proof.
  unfold well_formed_history, repair_history, setdefault. simpl.
  split_and!; [by case_match..|].
  eexists. split; [done|]. apply repair_statistics_complete.
Qed.

Lemma repair_history_kept loaded : history_kept loaded (repair_history loaded).
Proof.
  unfold history_kept, repair_history. simpl.
  split_and!; [apply kept_setdefault..|].
  intros s ->. eexists. split; [done|]. simpl.
  unfold statistics_kept, repair_statistics. simpl.
  split_and!; apply kept_setdefault.
Qed.

Lemma default_history_well_formed : well_formed_history default_history.
Proof.
  unfold well_formed_history, default_history, complete_statistics. simpl.
  split_and!; [done..|]. eexists. split; [done|]. simpl. by split_and!.
Qed.

Lemma load_history_spec w :
  ∃ history w',
    load_history w = (Ok history, w') ∧
    well_formed_history history ∧
    (∀ loaded, history_disk (fs w) = JsonDict loaded → history_kept loaded history) ∧
    ((∀ loaded, history_disk (fs w) ≠ JsonDict loaded) → history = default_history) ∧
    but_trace w' = but_trace w.
Proof.
  unfold load_history. munfold. simpl.
  destruct (history_disk (fs w)) as [|e| |loaded] eqn:Hd; simpl.
  - eexists _, _. split_and!; [done|apply default_history_well_formed|done..].
  - eexists _, _. split_and!; [done|apply default_history_well_formed|done..].
  - eexists _, _. split_and!; [done|apply default_history_well_formed|done..].
  - eexists _, _. split_and!; [done|apply repair_history_well_formed'| | |done].
    + intros ? [= <-]. apply repair_history_kept.
    + intros Hno. by destruct (Hno loaded).
Qed.


(** the [finally] block of a save *)
Lemma remove_temp_file_effect temp_file w :
  ∃ w', remove_temp_file temp_file w = (Ok tt, w')
        ∧ history_disk (fs w') = history_disk (fs w)
        ∧ save_faults w' = save_faults w
        ∧ _temp_files (eng w') = _temp_files (eng w) ∖ {[temp_file]}
        ∧ temp_disk (fs w') =
            match fault_remove (fs w) with
            | Some _ => temp_disk (fs w)
            | None => temp_disk (fs w) ∖ {[temp_file]}
            end.
Proof.
  unfold remove_temp_file, faulty. munfold. simpl.
  assert (_temp_files
            (if bool_decide (temp_file ∈ _temp_files (eng w))
             then set_temp_files (_temp_files (eng w) ∖ {[temp_file]}) (eng w)
             else eng w) = _temp_files (eng w) ∖ {[temp_file]}) as Ht.
  { case_bool_decide; simpl; [done|]. set_solver. }
  destruct (bool_decide (temp_file ∈ temp_disk (fs w))) eqn:Hin; simpl.
  - destruct (fault_remove (fs w)) eqn:Hf; simpl; eexists; by split_and!.
  - eexists. split_and!; [done..|].
    apply bool_decide_eq_false in Hin. destruct (fault_remove (fs w)); set_solver.
Qed.

Lemma save_history_effect h w :
  ∃ w', save_history h w = (Ok tt, w')
        ∧ history_disk (fs w') =
            (if bool_decide (save_succeeds (fs w)) then JsonDict h
             else history_disk (fs w))
        ∧ save_faults w' = save_faults w
        ∧ _temp_files (eng w') ⊆ _temp_files (eng w)
        ∧ (fault_remove (fs w) = None → temp_disk (fs w') ⊆ temp_disk (fs w)).
Proof.
  set (ok := bool_decide (save_succeeds (fs w))).
  assert (save_succeeds (fs w) → ok = true) as Hyes
    by (intros ?; by apply bool_decide_eq_true_2).
  assert (¬ save_succeeds (fs w) → ok = false) as Hno
    by (intros ?; by apply bool_decide_eq_false_2).
  clearbody ok.
  unfold save_history, faulty, time_time. munfold. simpl.
  destruct (fault_mkdir (fs w)) eqn:Hm; simpl.
  { assert (ok = false) as ->.
    { apply Hno. unfold save_succeeds. rewrite Hm. by intros (? & _). }
    eexists. by split_and!. }
  destruct (fault_create (fs w)) eqn:Hc; simpl.
  { assert (ok = false) as ->.
    { apply Hno. unfold save_succeeds. rewrite Hc. by intros (_ & ? & _). }
    match goal with |- context [remove_temp_file ?t ?w0] =>
      destruct (remove_temp_file_effect t w0) as (w' & -> & Hd & Hf & Ht & Hk) end.
    eexists. split_and!; [done|done|done| |].
    - rewrite Ht. simpl. set_solver.
    - intros Hr. rewrite Hk. simpl. rewrite Hr. set_solver. }
  destruct (fault_write (fs w)) eqn:Hw; simpl.
  { assert (ok = false) as ->.
    { apply Hno. unfold save_succeeds. rewrite Hw. by intros (_ & _ & ? & _). }
    match goal with |- context [remove_temp_file ?t ?w0] =>
      destruct (remove_temp_file_effect t w0) as (w' & -> & Hd & Hf & Ht & Hk) end.
    eexists. split_and!; [done|done|done| |].
    - rewrite Ht. simpl. set_solver.
    - intros Hr. rewrite Hk. simpl. rewrite Hr. set_solver. }
  destruct (fault_replace (fs w)) eqn:Hr; simpl.
  { assert (ok = false) as ->.
    { apply Hno. unfold save_succeeds. rewrite Hr. by intros (_ & _ & _ & ?). }
    match goal with |- context [remove_temp_file ?t ?w0] =>
      destruct (remove_temp_file_effect t w0) as (w' & -> & Hd & Hf & Ht & Hk) end.
    eexists. split_and!; [done|done|done| |].
    - rewrite Ht. simpl. set_solver.
    - intros Hr'. rewrite Hk. simpl. rewrite Hr'. set_solver. }
  assert (ok = true) as -> by (by apply Hyes).
  match goal with |- context [remove_temp_file ?t ?w0] =>
    destruct (remove_temp_file_effect t w0) as (w' & -> & Hd & Hf & Ht & Hk) end.
  eexists. split_and!; [done|done|done| |].
  - rewrite Ht. simpl. set_solver.
  - intros Hr'. rewrite Hk. simpl. rewrite Hr'. set_solver.
Qed.


(** X17. [save_history] cleans up after itself: when files can be
    removed, no temporary file is on disk after the call that was not
    there before, whether the save succeeded or not; and the set of
    temporary files that the engine tracks has not grown. *)
Theorem save_history_leaves_no_temporary_file (history : History) (w : World) :
  fault_remove (fs w) = None →
  temp_disk (fs (save_history history w).2) ⊆ temp_disk (fs w) ∧
  _temp_files (eng (save_history history w).2) ⊆ _temp_files (eng w).
Proof.
  intros Hr. destruct (save_history_effect history w) as (w' & -> & _ & _ & Ht & Hk).
  simpl. split; [by apply Hk|done].
Qed.

Lemma cleanup_loop_effect files : ∀ w,
  ∃ w', cleanup_loop files w = (Ok tt, w')
        ∧ eng w' = eng w
        ∧ history_disk (fs w') = history_disk (fs w)
        ∧ save_faults w' = save_faults w
        ∧ temp_disk (fs w') =
            match fault_remove (fs w) with
            | Some _ => temp_disk (fs w)
            | None => temp_disk (fs w) ∖ list_to_set files
            end.
Proof.
  induction files as [|temp_file rest IH]; intros w.
  - exists w. split_and!; [done..|]. destruct (fault_remove (fs w)); set_solver.
  - simpl. unfold faulty. munfold. simpl.
    destruct (bool_decide (temp_file ∈ temp_disk (fs w))) eqn:Hin; simpl.
    + destruct (fault_remove (fs w)) eqn:Hf; simpl.
      * match goal with |- context [cleanup_loop rest ?w0] =>
          destruct (IH w0) as (w' & -> & He & Hd & Hs & Ht) end.
        exists w'. split_and!; [done..|]. rewrite Ht. simpl. by rewrite Hf.
      * match goal with |- context [cleanup_loop rest ?w0] =>
          destruct (IH w0) as (w' & -> & He & Hd & Hs & Ht) end.
        exists w'. split_and!; [done..|]. rewrite Ht. simpl. rewrite Hf. set_solver.
    + match goal with |- context [cleanup_loop rest ?w0] =>
        destruct (IH w0) as (w' & -> & He & Hd & Hs & Ht) end.
      exists w'. split_and!; [done..|]. rewrite Ht. simpl.
      apply bool_decide_eq_false in Hin. destruct (fault_remove (fs w)); set_solver.
Qed.

(** X18. [_cleanup_all_temp_files] raises nothing.  When files can be
    removed it removes from the disk exactly the temporary files that
    the engine tracks; when they cannot, the errors are swallowed and
    the disk is as before.  The history file and the engine (the set of
    tracked names included) are untouched. *)
Theorem cleanup_removes_the_tracked_files (w : World) :
  ∃ w',
    _cleanup_all_temp_files w = (Ok tt, w') ∧
    temp_disk (fs w') =
      match fault_remove (fs w) with
      | Some _ => temp_disk (fs w)
      | None => temp_disk (fs w) ∖ _temp_files (eng w)
      end ∧
    history_disk (fs w') = history_disk (fs w) ∧
    eng w' = eng w.
Proof.
  unfold _cleanup_all_temp_files. unfold bind, gets.
  destruct (cleanup_loop_effect (elements (_temp_files (eng w))) w)
    as (w' & -> & He & Hd & _ & Ht).
  exists w'. split_and!; [done| |done..].
  rewrite Ht. by rewrite list_to_set_elements_L.
Qed.

End HistoryFile.

(** ** main --reset-history *)

Lemma available_loop_fresh files acc :
  available_loop files ∅ ∅ acc = acc ++ files.
Proof.
  revert acc. induction files as [|f files IH]; intros acc; simpl.
  - by rewrite app_nil_r.
  - rewrite !bool_decide_eq_false_2 by set_solver. simpl.
    rewrite IH. by rewrite <-(assoc_L (++)).
Qed.

Section ResetCommand.
Variable fnmatch : string -> string -> bool.

(** X19. The option [--reset-history]: when the save succeeds, the
    history file holds a record with empty lists whose statistics are
    those loaded, with [reset_count] and [total_resets] one higher and
    [last_reset] set; and the next [get_available_files] offers every
    file that its scan returns. *)
Theorem reset_history_makes_every_file_available (w : World) :
  save_succeeds (fs w) →
  ∃ loaded stats w',
    (load_history w).1 = Ok loaded ∧
    main_reset_history w = (Ok tt, w') ∧
    history_disk (fs w')
      = JsonDict (mkHistory (Some []) (Some []) (Some ∅) (Some stats)) ∧
    reset_count stats = Some (default 0 (reset_count (stats_of loaded)) + 1)%Z ∧
    total_resets stats = Some (default 0 (total_resets (stats_of loaded)) + 1)%Z ∧
    is_Some (last_reset stats) ∧
    total_opened stats = total_opened (stats_of loaded) ∧
    total_failed stats = total_failed (stats_of loaded) ∧
    ∀ qualified msg w2,
      scan_qualified_files fnmatch false (load_history w').2
        = (Ok (qualified, true, msg), w2) →
      ∃ history,
        get_available_files fnmatch w' = (Ok (qualified, history, true, None), w2).
Proof.
  intros Hok.
  destruct (load_history_spec w) as (loaded & w1 & Hl & _ & _ & _ & Hw1).
  set (now := now_iso (env w1) (clock_reads (env w1))).
  set (stats := reset_statistics (stats_of loaded) now).
  set (new_history := mkHistory (Some []) (Some []) (Some ∅) (Some stats)).
  destruct (save_history_effect new_history (tick w1)) as (w' & Hs & Hd & _).
  assert (save_succeeds (fs (tick w1))) as Hok1.
  { assert (untraced (fs w1) = untraced (fs w)) as Hf
      by exact (f_equal (λ x, x.1.2) Hw1).
    unfold save_succeeds in *. simpl.
    assert (fault_mkdir (fs w1) = fault_mkdir (fs w)) as ->
      by exact (f_equal fault_mkdir Hf).
    assert (fault_create (fs w1) = fault_create (fs w)) as ->
      by exact (f_equal fault_create Hf).
    assert (fault_write (fs w1) = fault_write (fs w)) as ->
      by exact (f_equal fault_write Hf).
    assert (fault_replace (fs w1) = fault_replace (fs w)) as ->
      by exact (f_equal fault_replace Hf).
    done. }
  rewrite bool_decide_eq_true_2 in Hd by done.
  exists loaded, stats, w'. split_and!; try done.
  - by rewrite Hl.
  - unfold main_reset_history, datetime_now_isoformat. munfold. rewrite Hl. simpl.
    fold now. fold stats. fold new_history. by rewrite Hs.
  - intros qualified msg w2 Hscan.
    unfold get_available_files. munfold.
    pose proof (load_history_dict w' new_history Hd) as Hload.
    destruct (load_history w') as [r wl] eqn:Hlw. simpl in Hload, Hscan. subst r.
    rewrite Hscan. simpl. rewrite available_loop_fresh. by eexists.
Qed.

End ResetCommand.

(* ===================================================================== *)
(** * Opening a file and recording the outcome *)
(* ===================================================================== *)

Section Retry.

Lemma retry_loop_spec attempts filename w :
  ∃ success,
    retry_loop attempts filename w = (Ok success, w) ∧
    (success = true ↔
     ∃ attempt, attempt ∈ attempts ∧
                launch (env w) (entry_path w filename) attempt = Ok true).
Proof.
  induction attempts as [|attempt rest IH]; simpl.
  - exists false. split; [done|]. split; [done|]. intros (a & Ha & _).
    by apply elem_of_nil in Ha.
  - unfold launch_file. munfold. simpl.
    destruct (launch (env w) (entry_path w filename) attempt) as [[|]|e] eqn:Hl.
    + exists true. split; [done|]. split; [|done]. intros _. exists attempt.
      split; [by left|done].
    + destruct IH as (success & -> & Hs). exists success. split; [done|].
      rewrite Hs. split.
      * intros (a & Ha & Hla). exists a. split; [by right|done].
      * intros (a & [->|Ha]%elem_of_cons & Hla); [congruence|by exists a].
    + destruct IH as (success & -> & Hs). exists success. split; [done|].
      rewrite Hs. split.
      * intros (a & Ha & Hla). exists a. split; [by right|done].
      * intros (a & [->|Ha]%elem_of_cons & Hla); [congruence|by exists a].
Qed.

Lemma open_file_with_retry_spec w filename :
  ∃ success,
    open_file_with_retry filename w = (Ok success, w) ∧
    (success = true ↔ launches w filename) ∧
    (max_retries (config (eng w)) = 0 → success = false).
Proof.
  unfold open_file_with_retry. unfold bind at 1, gets at 1.
  destruct (retry_loop_spec (seq 0 (max_retries (config (eng w)))) filename w)
    as (success & -> & Hs).
  exists success. split_and!; [done| |].
  - rewrite Hs. unfold launches. split.
    + intros (a & Ha%elem_of_seq & Hl). exists a. split; [lia|done].
    + intros (a & Ha & Hl). exists a. split; [|done]. apply elem_of_seq. lia.
  - intros H0. destruct success; [|done].
    destruct (proj1 Hs eq_refl) as (a & Ha%elem_of_seq & _). lia.
Qed.

(** X20. [open_file_with_retry] raises nothing and returns [True]
    exactly when one of the [max_retries] attempts launches the file, an
    attempt that raises counting as one that failed; with [max_retries]
    at 0 no attempt is made and the answer is [False].  The engine and
    the file system are as before. *)
Theorem open_file_with_retry_succeeds_iff_some_attempt_does
    (w : World) (filename : string) :
  ∃ success,
    open_file_with_retry filename w = (Ok success, w) ∧
    (success = true ↔ launches w filename) ∧
    (max_retries (config (eng w)) = 0 → success = false).
Proof. apply open_file_with_retry_spec. Qed.

End Retry.

Section Recording.

Lemma elem_of_list_remove_ne (x y : string) l :
  y ≠ x → y ∈ list_remove x l ↔ y ∈ l.
Proof.
  intros Hne. induction l as [|z l IH]; simpl; [done|].
  case_decide; set_solver.
Qed.

Lemma NoDup_list_remove (x : string) l : NoDup l → NoDup (list_remove x l).
Proof.
  induction l as [|z l IH]; simpl; [done|].
  intros [Hz Hl]%NoDup_cons. case_decide; [done|].
  apply NoDup_cons. split; [|by apply IH].
  intros Hin. apply Hz. by eapply elem_of_list_remove.
Qed.

Lemma NoDup_snoc (x : string) l : NoDup l → x ∉ l → NoDup (l ++ [x]).
Proof.
  intros Hl Hx. apply NoDup_app. split_and!; [done| |apply NoDup_singleton].
  by intros y Hy ->%list_elem_of_singleton.
Qed.

(** X21. Recording the outcome of an attempt touches the selected
    file only: the file is afterwards in the list of the outcome, every
    other name is in the lists it was in, and the signatures and the
    statistics are as before.  Lists without repetition stay so, and
    then the selected file is not in the other list. *)
Theorem record_outcome_moves_only_the_selected_file
    (success : bool) (selected : string) (history : History) :
  selected ∈ (if success then opened_of (record_outcome success selected history)
              else failed_of (record_outcome success selected history)) ∧
  (∀ f, f ≠ selected →
        (f ∈ opened_of (record_outcome success selected history) ↔ f ∈ opened_of history) ∧
        (f ∈ failed_of (record_outcome success selected history) ↔ f ∈ failed_of history)) ∧
  file_signatures (record_outcome success selected history) = file_signatures history ∧
  statistics (record_outcome success selected history) = statistics history ∧
  (NoDup (opened_of history) → NoDup (failed_of history) →
   NoDup (opened_of (record_outcome success selected history)) ∧
   NoDup (failed_of (record_outcome success selected history)) ∧
   selected ∉ (if success then failed_of (record_outcome success selected history)
               else opened_of (record_outcome success selected history))).
Proof.
  unfold record_outcome, opened_of, failed_of.
  destruct history as [o f g s]. simpl.
  set (ol := default [] o). set (fl := default [] f).
  destruct success; simpl.
  - destruct (bool_decide (selected ∈ ol)) eqn:Ho; simpl; fold fl;
      destruct (bool_decide (selected ∈ fl)) eqn:Hf; simpl; fold ol; fold fl;
      try apply bool_decide_eq_true in Ho; try apply bool_decide_eq_false in Ho;
      try apply bool_decide_eq_true in Hf; try apply bool_decide_eq_false in Hf.
    all: split_and!; try done; try set_solver.
    all: try (intros x Hx; split; [done|]; by apply elem_of_list_remove_ne).
    all: try (intros x Hx; split; [set_solver|]; by apply elem_of_list_remove_ne).
    all: try (intros x Hx; split; [set_solver|done]).
    all: intros Hno Hnf; split_and!;
      auto using NoDup_list_remove, NoDup_snoc, list_remove_NoDup.
  - destruct (bool_decide (selected ∈ fl)) eqn:Hf; simpl; fold ol;
      destruct (bool_decide (selected ∈ ol)) eqn:Ho; simpl; fold ol; fold fl;
      try apply bool_decide_eq_true in Ho; try apply bool_decide_eq_false in Ho;
      try apply bool_decide_eq_true in Hf; try apply bool_decide_eq_false in Hf.
    all: split_and!; try done; try set_solver.
    all: try (intros x Hx; split; [|done]; by apply elem_of_list_remove_ne).
    all: try (intros x Hx; split; [|set_solver]; by apply elem_of_list_remove_ne).
    all: try (intros x Hx; split; [done|set_solver]).
    all: intros Hno Hnf; split_and!;
      auto using NoDup_list_remove, NoDup_snoc, list_remove_NoDup.
Qed.

End Recording.

(** ** One run, from the choice to the history file *)

Section OneRun.
Variable fnmatch : string -> string -> bool.

Lemma leaves_save_faults_save_history h : leaves save_faults (save_history h).
Proof.
  intros w r w' Hr. destruct (save_history_effect h w) as (w2 & Hs & _ & Hf & _).
  rewrite Hs in Hr. by injection Hr as _ <-.
Qed.

Lemma leaves_save_faults_reset history available :
  leaves save_faults (reset_history_if_needed fnmatch history available).
Proof.
  unfold leaves, reset_history_if_needed. destruct available; [|eauto with follows].
  apply follows_bind; try apply _.
  { apply follows_scan_qualified_files; eauto with follows. }
  intros [[q s] m]. destruct s; simpl; [|eauto with follows].
  destruct q; [eauto with follows|].
  apply follows_bind; try apply _; [eauto with follows|intros now].
  apply follows_bind; try apply _; [apply leaves_save_faults_save_history|intros ?].
  eauto with follows.
Qed.

Lemma leaves_save_faults_run_select : leaves save_faults (run_select fnmatch).
Proof.
  unfold leaves, run_select.
  apply follows_bind; try apply _.
  { apply follows_get_available_files; eauto with follows. }
  intros [[[a h] s] m]. destruct s; simpl; [|eauto with follows].
  apply follows_bind; try apply _; [apply leaves_save_faults_reset|intros r2].
  destruct (r2.1); [|eauto with follows].
  apply follows_bind; try apply _; [|eauto with follows].
  apply follows_show_statistics; eauto with follows.
Qed.

(** a run that gets to choose has something to choose from *)
Lemma run_select_nonempty w available history w1 :
  run_select fnmatch w = (Ok (Some (available, history)), w1) → available ≠ [].
Proof.
  unfold run_select. unfold bind at 1.
  destruct (get_available_files fnmatch w) as [[[[[a h] s] m]|e] w0]; [|done].
  destruct s; simpl; [|done].
  unfold bind at 1.
  destruct (reset_history_if_needed fnmatch h a w0) as [[[a' h']|e] w2]; [|done].
  simpl. destruct a' as [|x l].
  - unfold bind. by destruct (show_statistics fnmatch h' w2) as [[?|?] ?].
  - by intros [= <- _ _].
Qed.

Lemma random_choice_spec available w :
  available ≠ [] →
  ∃ selected, random_choice available w = (Ok selected, w) ∧ selected ∈ available.
Proof.
  intros Hne. unfold random_choice. munfold. simpl.
  destruct (available !! _) as [x|] eqn:Hl.
  - exists x. split; [done|]. by eapply list_elem_of_lookup_2.
  - apply lookup_ge_None in Hl. destruct available; [done|]. simpl in Hl.
    pose proof (Nat.mod_upper_bound (random_index (env w)) (S (length available))).
    lia.
Qed.

Lemma run_record_spec available history w :
  available ≠ [] → save_succeeds (fs w) →
  ∃ selected success w',
    run_record fnmatch available history w = (Ok tt, w') ∧
    selected ∈ available ∧
    (success = true ↔ launches w selected) ∧
    history_disk (fs w') =
      JsonDict (recorded success selected (now_iso (env w) (clock_reads (env w)))
                         history).
Proof.
  intros Hne Hok. unfold run_record.
  destruct (random_choice_spec available w Hne) as (selected & Hc & Hin).
  destruct (open_file_with_retry_spec w selected)
    as (success & Ho & Hs & _).
  exists selected, success.
  unfold bind at 1. rewrite Hc. unfold bind at 1. rewrite Ho.
  unfold datetime_now_isoformat. munfold. simpl.
  set (h2 := update_statistics _ _ _ _).
  destruct (save_history_effect h2 (tick w)) as (w2 & -> & Hd & _).
  rewrite bool_decide_eq_true_2 in Hd by done.
  destruct (returns_show_statistics fnmatch h2 w2) as ([] & w3 & Hshow).
  rewrite Hshow. exists w3. split_and!; [done..|].
  by rewrite (keeps_show_statistics fnmatch h2 _ _ _ Hshow).
Qed.


Lemma run_ok w : ∃ w', run fnmatch w = (Ok tt, w').
Proof. destruct (returns_run fnmatch w) as ([] & w' & Hr). by exists w'. Qed.

Lemma run_times_spec n : ∀ w,
  ∃ w', run_times fnmatch n w = (Ok tt, w') ∧
        (disk_exclusive (history_disk (fs w)) → disk_exclusive (history_disk (fs w'))).
Proof.
  induction n as [|n IH]; intros w; simpl.
  - by exists w.
  - destruct (run_ok w) as (w1 & Hr). destruct (IH w1) as (w2 & Hn & Hex).
    exists w2. unfold bind. rewrite Hr. split; [done|].
    intros Hd. apply Hex. by destruct (sound_run fnmatch _ _ _ Hr Hd).
Qed.

(** X23. The batch of [main]: whatever [--count] is given, the runs
    raise nothing and leave a history file whose two lists share no
    name when they shared none before; a count of one, of zero or below
    makes exactly one run. *)
Theorem main_batch_runs_at_least_once (args_count : Z) (w : World) :
  (∃ w', main_batch fnmatch args_count w = (Ok tt, w') ∧
         (disk_exclusive (history_disk (fs w)) →
          disk_exclusive (history_disk (fs w')))) ∧
  ((args_count ≤ 1)%Z → main_batch fnmatch args_count w = run fnmatch w).
Proof.
  split.
  - unfold main_batch. apply run_times_spec.
  - intros Hc. unfold main_batch.
    replace (Z.to_nat (1 `max` args_count)) with 1 by lia. simpl.
    destruct (run_ok w) as (w' & Hr). unfold bind, ret. by rewrite Hr.
Qed.

End OneRun.

(** ** The counts that show_statistics reports *)

Section Report.

(** the names of a list without repetition that are not in a set *)
Lemma length_filter_not_in (P : gset string) (l : list string) :
  NoDup l →
  length (filter (λ f, f ∉ P) l) = size (list_to_set l ∖ P : gset string).
Proof.
  induction l as [|x l IH]; intros Hnd.
  - change (0 = size ((∅ : gset string) ∖ P)).
    replace (∅ ∖ P) with (∅ : gset string) by set_solver.
    by rewrite size_empty.
  - apply NoDup_cons in Hnd as [Hx Hl]. rewrite filter_cons.
    cbn [list_to_set foldr].
    destruct (decide (x ∉ P)) as [Hin|Hin].
    + replace (({[x]} ∪ list_to_set l) ∖ P)
        with ({[x]} ∪ (list_to_set l ∖ P) : gset string) by set_solver.
      rewrite size_union by set_solver. rewrite size_singleton. simpl.
      by rewrite IH.
    + replace (({[x]} ∪ list_to_set l) ∖ P)
        with (list_to_set l ∖ P : gset string).
      * by apply IH.
      * apply dec_stable in Hin. set_solver.
Qed.

(** X24. The number of remaining files that [show_statistics]
    reports, for a directory listing without repeated names: it never
    exceeds the number of files that [get_available_files] would offer,
    and equals it when every file of the history is still among the
    qualified ones.  When the history names files that are gone the
    report falls short, and can be negative. *)
Theorem remaining_count_is_a_lower_bound (history : History)
    (all_qualified_files : list string) :
  NoDup all_qualified_files →
  (remaining_count (report_counts history all_qualified_files)
   ≤ Z.of_nat (length (filter (λ f, (f ∉ opened_of history) ∧ (f ∉ failed_of history))
                              all_qualified_files)))%Z ∧
  ((∀ f, f ∈ opened_of history ∨ f ∈ failed_of history → f ∈ all_qualified_files) →
   remaining_count (report_counts history all_qualified_files)
   = Z.of_nat (length (filter (λ f, (f ∉ opened_of history) ∧ (f ∉ failed_of history))
                              all_qualified_files))).
Proof.
  intros Hnd. unfold report_counts, opened_of, failed_of. simpl.
  set (ol := default [] (opened_files history)).
  set (fl := default [] (failed_files history)).
  set (P := (list_to_set ol ∪ list_to_set fl : gset string)).
  set (A := (list_to_set all_qualified_files : gset string)).
  assert (filter (λ f, (f ∉ ol) ∧ (f ∉ fl)) all_qualified_files
          = filter (λ f, f ∉ P) all_qualified_files) as ->.
  { apply list_filter_iff. intros x. subst P. set_solver. }
  rewrite length_filter_not_in by done. fold A.
  assert (length all_qualified_files = size A) as ->.
  { subst A. by rewrite size_list_to_set. }
  assert (size A = size (A ∖ P) + size (A ∩ P)) as Hsplit.
  { rewrite <-size_union by set_solver. f_equal. apply set_eq. intros x.
    destruct (decide (x ∈ P)); set_solver. }
  split.
  - assert (size (A ∩ P) ≤ size P) by (apply subseteq_size; set_solver). lia.
  - intros Hall. assert (A ∩ P = P) as Heq.
    { apply set_eq. intros x. split; [set_solver|]. intros Hx.
      apply elem_of_intersection. split; [|done].
      subst A. apply elem_of_list_to_set. apply Hall. subst P. set_solver. }
    rewrite Heq in Hsplit. lia.
Qed.

End Report.

(* ===================================================================== *)
(** * The tracker of file descriptors *)
(* ===================================================================== *)

Section TrackerFacts.

Lemma count_cons e x events :
  Tracker.count e (x :: events) =
    ((if decide (x = e) then 1 else 0) + Tracker.count e events)%Z.
Proof.
  unfold Tracker.count. rewrite filter_cons. case_decide; simpl; lia.
Qed.

Lemma track_spec events : ∀ w,
  ∃ w',
    Tracker.track events w = (Ok tt, w') ∧
    Counter.get (_opened_count (fd_tracker (eng w')))
      = (Counter.get (_opened_count (fd_tracker (eng w)))
         + Tracker.count Tracker.Open events)%Z ∧
    Counter.get (_closed_count (fd_tracker (eng w')))
      = (Counter.get (_closed_count (fd_tracker (eng w)))
         + Tracker.count Tracker.Close events)%Z ∧
    (tracker_inv (fd_tracker (eng w)) → tracker_inv (fd_tracker (eng w'))) ∧
    (∀ depth, Tracker.paired depth events = true →
              (Z.of_nat depth ≤ _count (fd_tracker (eng w)))%Z →
              (_count (fd_tracker (eng w'))
               - (Counter.get (_opened_count (fd_tracker (eng w')))
                  - Counter.get (_closed_count (fd_tracker (eng w'))))
               = _count (fd_tracker (eng w))
                 - (Counter.get (_opened_count (fd_tracker (eng w)))
                    - Counter.get (_closed_count (fd_tracker (eng w)))))%Z).
Proof.
  induction events as [|e events IH]; intros w.
  - exists w. unfold Tracker.count. simpl. split_and!; [done|lia|lia|done|done].
  - rewrite !count_cons. destruct e; simpl.
    + unfold bind at 1, track_open at 1, modify at 1.
      match goal with |- context [Tracker.track events ?w0] =>
        set (w1 := w0); destruct (IH w1) as (w' & -> & Ho & Hc & Hinv & Hp) end.
      exists w'.
      unfold tracker_inv, Counter.get, Counter.incr, Counter.increment in *.
      subst w1. simpl in *.
      split_and!; [done|lia|lia| |].
      * intros Hi. apply Hinv. destruct (_ <? _)%Z eqn:Hlt; lia.
      * intros depth Hpaired Hd.
        pose proof (Hp (S depth) Hpaired ltac:(lia)). lia.
    + unfold bind at 1, track_close at 1, modify at 1.
      match goal with |- context [Tracker.track events ?w0] =>
        set (w1 := w0); destruct (IH w1) as (w' & -> & Ho & Hc & Hinv & Hp) end.
      exists w'.
      unfold tracker_inv, Counter.get, Counter.incr, Counter.increment in *.
      subst w1. simpl in *.
      split_and!; [done|lia|lia| |].
      * intros Hi. apply Hinv. destruct (0 <? _)%Z eqn:Hlt; lia.
      * intros [|depth] Hpaired Hd; [done|].
        assert ((0 <? _count (fd_tracker (eng w)))%Z = true) as Hlt
          by (apply Z.ltb_lt; lia).
        rewrite Hlt in *.
        pose proof (Hp depth Hpaired ltac:(lia)). lia.
Qed.

(** X25. The statistics of a new tracker after any sequence of
    [track_open] and [track_close]: the two counters count the calls;
    the descriptors counted as open are never negative, never above the
    maximum, which is never above the number opened; and the leak that
    is reported never exceeds the descriptors counted as open.  When no
    [track_close] came without a [track_open] before it, the leak is the
    number open, which is the opened minus the closed. *)
Theorem tracker_statistics_are_consistent (w : World) (events : list Tracker.event) :
  fd_tracker (eng w) = Tracker.init →
  ∃ stats w',
    (Tracker.track events ;; Tracker.get_stats) w = (Ok stats, w') ∧
    fd_opened stats = Tracker.count Tracker.Open events ∧
    fd_closed stats = Tracker.count Tracker.Close events ∧
    (0 ≤ fd_leaked stats ≤ fd_current stats)%Z ∧
    (fd_current stats ≤ fd_max stats ≤ fd_opened stats)%Z ∧
    (Tracker.paired 0 events = true →
     fd_leaked stats = fd_current stats ∧
     fd_current stats = (fd_opened stats - fd_closed stats)%Z).
Proof.
  intros Hinit. destruct (track_spec events w) as (w' & Ht & Ho & Hc & Hinv & Hp).
  unfold bind. rewrite Ht. unfold Tracker.get_stats, gets.
  eexists _, w'. split; [done|]. simpl.
  rewrite Hinit in *. unfold Tracker.init in *. simpl in *.
  destruct Hinv as (H1 & H2 & H3 & H4 & H5).
  { unfold tracker_inv. simpl. lia. }
  unfold Counter.get in *. simpl in *.
  split_and!; try lia.
  intros Hpaired. specialize (Hp 0 Hpaired). lia.
Qed.

Lemma balanced_blind : blind_to_calls balanced.
Proof. by intros name path w _. Qed.

Lemma balanced_open_close w :
  balanced w (track_close (track_open w).2).2.
Proof.
  intros Hc. unfold fd_balance, track_open, track_close, modify. simpl.
  unfold Counter.get, Counter.incr, Counter.increment. simpl.
  destruct (0 <? _)%Z eqn:Hlt; [f_equal; lia|]. apply Z.ltb_ge in Hlt. lia.
Qed.

Lemma balanced_traced name path w w' : balanced (traced name path w) w' → balanced w w'.
Proof. done. Qed.

Lemma follows_balanced_full_hash path : follows balanced (full_hash path).
Proof.
  intros w r w' Hr. unfold full_hash in Hr. unfold bind at 1 in Hr.
  rewrite open_rb_spec in Hr. apply (balanced_traced "open" path).
  destruct (nd_open (node_at w path)); [by injection Hr as _ <-|].
  set (w0 := traced "open" path w) in *.
  unfold bind at 1 in Hr. change (track_open w0) with (Ok tt, (track_open w0).2) in Hr.
  cbv beta iota in Hr. unfold bind at 1, try_finally, lift in Hr.
  change (track_close (track_open w0).2)
    with (Ok tt, (track_close (track_open w0).2).2) in Hr.
  cbv beta iota in Hr.
  destruct (read_loop _ _ _).1; injection Hr as _ <-; apply balanced_open_close.
Qed.

Lemma follows_balanced_sampling_hash path size :
  follows balanced (_get_sampling_hash path size).
Proof.
  intros w r w' Hr. unfold _get_sampling_hash, try_except in Hr.
  unfold bind at 1 in Hr.
  rewrite open_rb_spec in Hr. apply (balanced_traced "open" path).
  destruct (nd_open (node_at w path)); [by injection Hr as _ <-|].
  set (w0 := traced "open" path w) in *.
  unfold bind at 1 in Hr. change (track_open w0) with (Ok tt, (track_open w0).2) in Hr.
  cbv beta iota in Hr. unfold bind at 1, try_finally, lift in Hr.
  change (track_close (track_open w0).2)
    with (Ok tt, (track_close (track_open w0).2).2) in Hr.
  cbv beta iota in Hr.
  destruct (sampling_reads _ _); injection Hr as _ <-; apply balanced_open_close.
Qed.

Lemma follows_balanced_hash_file path size : follows balanced (hash_file path size).
Proof.
  unfold hash_file. apply follows_bind; try apply _; [eauto with follows|intros cfg].
  destruct (_ <=? _)%Z;
    [apply follows_balanced_full_hash|apply follows_balanced_sampling_hash].
Qed.

(** X26. [get_file_hash] leaves no descriptor counted as open: on a
    tracker that counts none below zero, the number of descriptors open
    and the balance of opened and closed are after the call what they
    were before, whether the file was hashed in full, sampled, served
    from the cache, missing, or failed to open or to read. *)
Theorem get_file_hash_closes_what_it_opens (w : World) (path : string) :
  (0 ≤ _count (fd_tracker (eng w)))%Z →
  fd_balance (get_file_hash path w).2 = fd_balance w.
Proof.
  intros Hc. destruct (get_file_hash path w) as [r w'] eqn:Hr. simpl.
  revert Hc. change (balanced w w'). revert w r w' Hr. change (follows balanced (get_file_hash path)).
  unfold get_file_hash, hash_cache_get, hash_cache_put.
  apply follows_bind; try apply _.
  { apply follows_path_exists; [apply _|apply balanced_blind]. }
  intros x. destruct (negb x); [eauto with follows|].
  apply follows_try_except; try apply _; [|eauto with follows].
  apply follows_bind; try apply _.
  { apply follows_modify. by intros w0 _. }
  intros ?. apply follows_bind; try apply _.
  { apply follows_path_stat; [apply _|apply balanced_blind]. }
  intros st. apply follows_bind; try apply _.
  { apply follows_bind; try apply _; [eauto with follows|intros c].
    apply follows_bind; try apply _; [|eauto with follows].
    apply follows_modify. by intros w0 _. }
  intros cached. destruct (cached_truthy cached); [eauto with follows|].
  apply follows_bind; try apply _; [apply follows_balanced_hash_file|intros h].
  apply follows_bind; try apply _; [|eauto with follows].
  apply follows_modify. by intros w0 _.
Qed.

End TrackerFacts.

(* ===================================================================== *)
(** * The hash of a file and its cache *)
(* ===================================================================== *)

Section HashCache.

Lemma get_file_hash_hit_world w path size mtime h :
  nd_exists (node_at w path) = Ok true →
  nd_stat (node_at w path) = Ok (size, mtime) →
  cached_hash w (path, size, mtime) = Some h →
  h ≠ "" →
  ∃ w', get_file_hash path w = (Ok h, w')
        ∧ fs_trace (fs w') = lookup_calls path ++ fs_trace (fs w)
        ∧ on_disk w' = on_disk w.
Proof.
  intros Hex Hst Hc Hne.
  unfold get_file_hash, path_exists, path_stat, hash_cache_get, hash_cache_put.
  munfold. simpl.
  change (node_at (with_fs _ w) path) with (node_at w path). rewrite Hex. simpl.
  change (node_at (with_fs _ _) path) with (node_at w path). rewrite Hst. simpl.
  unfold cached_hash in Hc. rewrite Hc. simpl.
  assert (PyStr.truthy h = true) as ->.
  { unfold PyStr.truthy. destruct (String.eqb h "") eqn:He; [|done].
    by apply String.eqb_eq in He. }
  by eexists.
Qed.

(** X27. A hash that is in the cache under the path, the size and the
    modification time of the file is returned as it is: the file is
    neither opened nor read (the only calls on the file system are
    [exists] and [stat]), so a change of content that keeps size and
    time goes unnoticed. *)
Theorem cached_hash_is_served_without_reading (w : World) (path : string)
    (size : Z) (mtime : Qc) (h : string) :
  nd_exists (node_at w path) = Ok true →
  nd_stat (node_at w path) = Ok (size, mtime) →
  cached_hash w (path, size, mtime) = Some h →
  h ≠ "" →
  ∃ w', get_file_hash path w = (Ok h, w') ∧
        fs_trace (fs w') = lookup_calls path ++ fs_trace (fs w) ∧
        on_disk w' = on_disk w.
Proof. apply get_file_hash_hit_world. Qed.

Lemma hex_word_length x : String.length (Sha256.hex_word x) = 8.
Proof. done. Qed.

Lemma string_length_app (s1 s2 : string) :
  String.length (s1 +:+ s2) = String.length s1 + String.length s2.
Proof. induction s1; simpl; [done|]. by f_equal. Qed.

Lemma hexdigest_length msg : String.length (Sha256.hexdigest msg) = 64.
Proof.
  unfold Sha256.hexdigest, Sha256.digest_words.
  cbn [foldr]. by rewrite !string_length_app, !hex_word_length.
Qed.

Lemma hexdigest_truthy msg : PyStr.truthy (hash_hexdigest msg) = true.
Proof.
  unfold PyStr.truthy, hash_hexdigest.
  destruct (String.eqb _ "") eqn:He; [|done].
  apply String.eqb_eq in He. pose proof (hexdigest_length msg) as Hl.
  by rewrite He in Hl.
Qed.

(** X28. The hash of a small file, computed and then asked for again:
    when the file can be opened and read and has not changed, the second
    call returns the same 64 hexadecimal digits from the cache, without
    opening the file. *)
Theorem second_hash_comes_from_the_cache (w : World) (path : string)
    (size : Z) (mtime : Qc) :
  nd_exists (node_at w path) = Ok true →
  nd_stat (node_at w path) = Ok (size, mtime) →
  nd_open (node_at w path) = None →
  nd_read_fault (node_at w path) = None →
  (size ≤ max_file_size_for_full_hash (config (eng w)))%Z →
  cached_truthy (cached_hash w (path, size, mtime)) = false →
  hash_cache_reachable w →
  ∃ h w1 w2,
    get_file_hash path w = (Ok h, w1) ∧
    String.length h = 64 ∧
    get_file_hash path w1 = (Ok h, w2) ∧
    fs_trace (fs w2) = lookup_calls path ++ fs_trace (fs w1).
Proof.
  intros Hex Hst Hop Hrd Hsmall Hmiss (n & c0 & ops & Hinit & Hcache).
  destruct (get_file_hash_miss w path size mtime Hex Hst Hmiss)
    as (w1 & Hg & Hn & Hcfg & _ & Hput).
  rewrite (hash_file_outcome_readable w path size Hop Hrd) in Hg, Hput.
  set (h := content_hash w path size) in *.
  assert (h = hash_hexdigest (nd_data (node_at w path))) as Hh.
  { subst h. unfold content_hash. by rewrite (proj2 (Z.leb_le _ _) Hsmall). }
  specialize (Hput h eq_refl).
  assert (cached_hash w1 (path, size, mtime) = Some h) as Hc1.
  { unfold cached_hash. rewrite Hput, Hcache.
    set (key := (path, size, mtime)).
    assert (NoDup (LRU.keys (LRU.put key h (LRU.get key (LRU.run ops c0)).2))) as Hnd.
    { change (LRU.get key (LRU.run ops c0)).2
        with (LRU.step (LRU.Get key) (LRU.run ops c0)).
      rewrite <-lru_run_snoc.
      exact (lru_reachable_step n c0 (ops ++ [LRU.Get key]) (LRU.Put key h) Hinit). }
    rewrite lru_get_answer by exact Hnd.
    unfold LRU.put. simpl. apply od_getitem_setitem. }
  destruct (get_file_hash_hit_world w1 path size mtime h) as (w2 & Hg2 & Ht & _).
  - by rewrite (node_at_same w w1 path Hn).
  - by rewrite (node_at_same w w1 path Hn).
  - done.
  - intros He. pose proof (hexdigest_length (nd_data (node_at w path))) as Hl.
    unfold hash_hexdigest in Hh. rewrite <-Hh, He in Hl. done.
  - exists h, w1, w2. split_and!; [done| |done|done].
    rewrite Hh. apply hexdigest_length.
Qed.

End HashCache.

(* ===================================================================== *)
(** * The sampling hash reads a bounded part of the file *)
(* ===================================================================== *)

Section Sampling.

Lemma fh_read_length n f chunk f' :
  fh_read n f = (Ok chunk, f') → length chunk ≤ n.
Proof.
  unfold fh_read. case_bool_decide; [done|]. intros [= <- _].
  rewrite length_take. lia.
Qed.

Lemma update_if_data_length file_hash data :
  length (update_if_data file_hash data) = length file_hash + length data.
Proof.
  unfold update_if_data, hash_update. destruct data; simpl; [lia|].
  rewrite length_app. simpl. lia.
Qed.

Lemma sample_loop_length indices : ∀ sample_count file_size f file_hash h f',
  sample_loop indices sample_count file_size f file_hash = (Ok h, f') →
  (Z.of_nat (length h)
   ≤ Z.of_nat (length file_hash) + 16384 * Z.of_nat (length indices))%Z.
Proof.
  induction indices as [|i rest IH]; intros sc size f file_hash h f' Hl.
  - injection Hl as <- _. simpl. lia.
  - cbn [sample_loop] in Hl.
    destruct (fh_read _ _) as [[data|e] f1] eqn:Hread; [|done].
    apply fh_read_length in Hread. apply IH in Hl.
    rewrite update_if_data_length in Hl.
    assert (Z.of_nat 16384 = 16384%Z) as E by (vm_compute; reflexivity).
    apply Nat2Z.inj_le in Hread. rewrite E in Hread.
    cbn [length]. lia.
Qed.

(** X29. The sampling hash of a large file reads a bounded part of
    it: whatever the size of the file, the bytes fed to the hash are at
    most 262144 (the head, at most eight samples and the tail), taken in
    at most eight samples and at least three. *)
Theorem sampling_hash_reads_a_bounded_part (f : FileHandle) (file_size : Z)
    (file_hash : hasher) :
  sampling_reads f file_size = Ok file_hash →
  (Z.of_nat (length file_hash) ≤ sampling_budget)%Z ∧
  (3 ≤ Z.min 8 (Z.max 3 (file_size / (5 * 1024 * 1024))) ≤ 8)%Z.
Proof.
  intros Hs. split; [|lia].
  unfold sampling_reads in Hs.
  destruct (fh_read _ f) as [[start_data|e] f1] eqn:Hstart; [|done].
  apply fh_read_length in Hstart.
  set (sc := Z.min 8 (Z.max 3 (file_size / (5 * 1024 * 1024)))) in *.
  destruct (sample_loop _ _ _ _ _) as [[h|e] f2] eqn:Hloop; [|done].
  apply sample_loop_length in Hloop.
  rewrite update_if_data_length, length_seq in Hloop. simpl in Hloop.
  assert (Z.of_nat 65536 = 65536%Z) as E by (vm_compute; reflexivity).
  apply Nat2Z.inj_le in Hstart. rewrite E in Hstart.
  assert (3 ≤ sc ≤ 8)%Z as Hsc by (subst sc; lia).
  unfold sampling_budget.
  destruct (65536 <? file_size)%Z.
  - destruct (fh_read _ (fh_seek _ f2)) as [[end_data|e] f3] eqn:Hend; [|done].
    apply fh_read_length in Hend. apply Nat2Z.inj_le in Hend. rewrite E in Hend.
    injection Hs as <-. rewrite update_if_data_length. lia.
  - injection Hs as <-. lia.
Qed.

End Sampling.

(* ===================================================================== *)
(** * The caches that __init__ builds *)
(* ===================================================================== *)

Section InitCaches.

Lemma lru_init_Some n : (0 < n)%Z → LRU.init n = Some (@mkLRU string string n [] (mkCounter 0) (mkCounter 0)).
Proof. intros Hn. unfold LRU.init. by rewrite (proj2 (Z.leb_gt _ _) Hn). Qed.

(** X30. [__init__] always ends up with five empty caches of
    positive capacity.  The capacities are the configured ones (half of
    [hash_cache_size] for the cache of file accesses) when all five are
    positive; as soon as one is not, which includes [hash_cache_size] at
    1, all five caches get the fallback capacities 50, 100, 20, 50 and
    50, also those whose configured size was fine. *)
Theorem init_caches_falls_back_as_a_whole (cfg : Config) :
  ∃ cs,
    init_caches cfg = Some cs ∧
    caches_empty cs ∧
    ((0 < hash_cache_size cfg ∧ 0 < pattern_cache_size cfg ∧
      0 < encoding_cache_size cfg ∧ 0 < hash_cache_size cfg `div` 2 ∧
      0 < file_type_cache_size cfg)%Z →
     capacities cs =
       (hash_cache_size cfg, pattern_cache_size cfg, encoding_cache_size cfg,
        (hash_cache_size cfg `div` 2)%Z, file_type_cache_size cfg)) ∧
    (¬ (0 < hash_cache_size cfg ∧ 0 < pattern_cache_size cfg ∧
        0 < encoding_cache_size cfg ∧ 0 < hash_cache_size cfg `div` 2 ∧
        0 < file_type_cache_size cfg)%Z →
     capacities cs = (50, 100, 20, 50, 50)%Z) ∧
    (hash_cache_size cfg = 1%Z → capacities cs = (50, 100, 20, 50, 50)%Z).
Proof.
  unfold init_caches, _init_caches, fallback_caches, LRU.init.
  destruct (hash_cache_size cfg <=? 0)%Z eqn:H1; simpl.
  { apply Z.leb_le in H1. eexists. split_and!; [done|by repeat split| |done|done].
    intros (? & _). lia. }
  destruct (pattern_cache_size cfg <=? 0)%Z eqn:H2; simpl.
  { apply Z.leb_le in H2. eexists. split_and!; [done|by repeat split| |done|done].
    intros (_ & ? & _). lia. }
  destruct (encoding_cache_size cfg <=? 0)%Z eqn:H3; simpl.
  { apply Z.leb_le in H3. eexists. split_and!; [done|by repeat split| |done|done].
    intros (_ & _ & ? & _). lia. }
  destruct (hash_cache_size cfg `div` 2 <=? 0)%Z eqn:H4; simpl.
  { apply Z.leb_le in H4. eexists. split_and!; [done|by repeat split| |done|done].
    intros (_ & _ & _ & ? & _). lia. }
  destruct (file_type_cache_size cfg <=? 0)%Z eqn:H5; simpl.
  { apply Z.leb_le in H5. eexists. split_and!; [done|by repeat split| |done|done].
    intros (_ & _ & _ & _ & ?). lia. }
  apply Z.leb_gt in H1, H2, H3, H4, H5.
  eexists. split_and!; [done|by repeat split|done| |].
  - intros Hno. destruct Hno. by split_and!.
  - intros Hone. rewrite Hone in H4. done.
Qed.

End InitCaches.

(* ===================================================================== *)
(** * The further properties at work on the small installation *)
(* ===================================================================== *)

(** the cache of capacity two after [put a], [put b], [get a] *)
Local Abbreviation used_cache := (LRU.run Demo.lru_calls Demo.lru_start).

(** X1: a third key put into the full cache is there at the next [get]. *)
Lemma lru_put_then_get_demo :
  (LRU.get "c" (LRU.put "c" 3 used_cache)).1 = Some 3.
Proof. exact (lru_put_then_get 2 Demo.lru_start Demo.lru_calls "c" 3 eq_refl). Defined.

(** X2: the [put] of [c] evicts [b]; [a] keeps its value. *)
Lemma lru_put_keeps_a :
  (LRU.get "a" (LRU.put "c" 3 used_cache)).1 = (LRU.get "a" used_cache).1.
Proof.
  apply (lru_put_keeps_other_values 2 Demo.lru_start Demo.lru_calls "c" "a" 3).
  - reflexivity.
  - discriminate.
  - vm_compute. set_solver.
Defined.

(** X3: [remove a] answers [True] and [a] is gone. *)
Lemma lru_remove_a :
  (LRU.remove "a" used_cache).1 = true ∧
  (LRU.get "a" (LRU.remove "a" used_cache).2).1 = None.
Proof.
  destruct (lru_remove_forgets_one_key 2 Demo.lru_start Demo.lru_calls "a" eq_refl)
    as (Hr & Hg & _).
  split; [|exact Hg]. rewrite Hr. vm_compute. reflexivity.
Defined.


(** X5: one [get] was made: the hits and the misses add up to one. *)
Lemma lru_stats_demo :
  (cs_hits (Cache.stats used_cache) + cs_misses (Cache.stats used_cache))%Z = 1%Z ∧
  (cs_hit_rate (Cache.stats used_cache) ≤ 1)%Qc.
Proof.
  destruct (lru_stats_are_consistent 2 Demo.lru_start Demo.lru_calls eq_refl)
    as (_ & _ & Hsum & _ & _ & _ & _ & Hrate & _).
  split; [|exact Hrate]. rewrite Hsum. reflexivity.
Defined.

(** X7: a hidden name is excluded and the file system is not asked. *)
Lemma hidden_name_demo :
  ∃ reason,
    should_exclude plain_fnmatch ".profile" "/d/.profile" (Demo.world NoFile)
      = (Ok (true, Some reason), Demo.world NoFile).
Proof.
  apply (should_exclude_by_name_asks_no_file plain_fnmatch (Demo.world NoFile)).
  vm_compute. reflexivity.
Defined.

(** X9: with the history kept in [history.json], that name is excluded. *)
Lemma essential_name_demo :
  ∃ reason,
    should_exclude plain_fnmatch "history.json" "/d/history.json"
      (Demo.world_with_patterns (add_essential_excludes ["history.json"] ["*.bak"]))
      = (Ok (true, Some reason),
         Demo.world_with_patterns (add_essential_excludes ["history.json"] ["*.bak"])).
Proof.
  apply (essential_names_are_excluded plain_fnmatch _
           (Demo.cfg_with_patterns ["*.bak"]) ["history.json"]).
  - reflexivity.
  - set_solver.
Defined.

(** X10: the first scan of the directory lists the three text files,
    in the order of the directory. *)
Lemma scan_lists_demo :
  ∃ w', scan_qualified_files plain_fnmatch false (Demo.world NoFile)
          = (Ok (["a.txt"; "b.txt"; "c.txt"], true, None), w').
Proof.
  destruct (scan_lists_the_qualifying_files plain_fnmatch (Demo.world NoFile) false
              Demo.listing) as (w' & Hscan & _).
  - vm_compute. reflexivity.
  - reflexivity.
  - reflexivity.
  - reflexivity.
  - exists w'. rewrite Hscan. vm_compute. reflexivity.
Defined.

(** X11: four of the five entries are files; what is not returned of
    them is counted as excluded. *)
Lemma scan_counts_demo :
  ∃ qualified ok msg w',
    scan_qualified_files plain_fnmatch false (Demo.world NoFile)
      = (Ok (qualified, ok, msg), w') ∧
    scanned_of w' = 4%Z ∧
    excluded_of w' = (4 - Z.of_nat (length qualified))%Z.
Proof.
  destruct (scan_counts_the_files plain_fnmatch (Demo.world NoFile) false Demo.listing)
    as (qualified & ok & msg & w' & Hscan & Hn & Hx & _).
  - vm_compute. reflexivity.
  - reflexivity.
  - reflexivity.
  - reflexivity.
  - exists qualified, ok, msg, w'. split_and!; [exact Hscan|exact Hn|exact Hx].
Defined.

(** X12: a directory that cannot be listed: failure, and the engine as
    before. *)
Lemma scan_failure_demo :
  ∃ msg w',
    scan_qualified_files plain_fnmatch false
      (mkWorld Demo.engine Scenario.unlistable Demo.environment)
      = (Ok ([], false, Some msg), w') ∧
    eng w' = Demo.engine.
Proof.
  destruct (scan_failure_keeps_the_cache plain_fnmatch
              (mkWorld Demo.engine Scenario.unlistable Demo.environment) false)
    as (msg & w' & Hscan & He & _).
  - vm_compute. reflexivity.
  - right. right. by eexists.
  - by exists msg, w'.
Defined.

(** X13: a second scan one second after the first one. *)
Lemma rescan_demo :
  ∃ qualified w',
    scan_qualified_files plain_fnmatch false (Demo.world NoFile)
      = (Ok (qualified, true, None), w') ∧
    scan_qualified_files plain_fnmatch false w' = (Ok (qualified, true, None), tick w').
Proof.
  apply (rescan_within_ttl_repeats_the_list plain_fnmatch (Demo.world NoFile) false
           Demo.listing).
  - vm_compute. reflexivity.
  - reflexivity.
  - reflexivity.
  - reflexivity.
  - vm_compute. reflexivity.
Defined.

(** X17: after a save on the small installation no temporary file is
    on disk. *)
Lemma save_cleans_up_demo :
  temp_disk (fs (save_history Demo.partly_done (Demo.world NoFile)).2)
    ⊆ temp_disk (fs (Demo.world NoFile)) ∧
  _temp_files (eng (save_history Demo.partly_done (Demo.world NoFile)).2)
    ⊆ _temp_files (eng (Demo.world NoFile)).
Proof.
  exact (save_history_leaves_no_temporary_file Demo.partly_done (Demo.world NoFile)
           eq_refl).
Defined.

(** X19: [--reset-history] on a directory whose files were all
    processed. *)
Lemma reset_command_demo :
  ∃ stats w',
    main_reset_history (Demo.world (JsonDict Demo.exhausted)) = (Ok tt, w') ∧
    history_disk (fs w')
      = JsonDict (mkHistory (Some []) (Some []) (Some ∅) (Some stats)) ∧
    reset_count stats = Some 1%Z.
Proof.
  destruct (reset_history_makes_every_file_available plain_fnmatch
              (Demo.world (JsonDict Demo.exhausted)))
    as (loaded & stats & w' & Hl & Hr & Hd & Hc & _).
  - by repeat split.
  - exists stats, w'. split_and!; [exact Hr|exact Hd|].
    rewrite Hc. injection Hl as <-. reflexivity.
Defined.


(** X24: one file opened, one failed, three in the directory: one is
    left. *)
Lemma remaining_count_demo :
  remaining_count (report_counts Demo.partly_done ["a.txt"; "b.txt"; "c.txt"]) = 1%Z.
Proof.
  rewrite (proj2 (remaining_count_is_a_lower_bound Demo.partly_done
                    ["a.txt"; "b.txt"; "c.txt"]
                    ltac:(repeat (apply NoDup_cons; split; [set_solver|]);
                          apply NoDup_nil_2))).
  - vm_compute. reflexivity.
  - intros f. vm_compute. set_solver.
Defined.

(** X25: three descriptors opened, two closed, in pairs: one is open
    and reported as the leak. *)
Lemma tracker_demo :
  ∃ stats w',
    (Tracker.track Scenario.fd_events ;; Tracker.get_stats) (Demo.world NoFile)
      = (Ok stats, w') ∧
    fd_opened stats = 3%Z ∧ fd_closed stats = 2%Z ∧ fd_leaked stats = 1%Z.
Proof.
  destruct (tracker_statistics_are_consistent (Demo.world NoFile) Scenario.fd_events
              eq_refl) as (stats & w' & Ht & Ho & Hc & _ & _ & Hp).
  destruct (Hp eq_refl) as [Hl Hcur].
  exists stats, w'. split_and!; [exact Ht|exact Ho|exact Hc|].
  rewrite Hl, Hcur, Ho, Hc. reflexivity.
Defined.

(** X26: hashing [a.txt] leaves no descriptor counted as open. *)
Lemma hash_closes_demo :
  fd_balance (get_file_hash "/d/a.txt" (Demo.world NoFile)).2
    = fd_balance (Demo.world NoFile).
Proof.
  apply (get_file_hash_closes_what_it_opens (Demo.world NoFile) "/d/a.txt").
  vm_compute. discriminate.
Defined.

(** X27: the cache holds a value for [a.txt] as it is on disk; that
    value is returned and the file is not opened. *)
Lemma cached_hash_demo :
  ∃ w', get_file_hash "/d/a.txt" Scenario.cached_hash_world = (Ok "0123abcd", w') ∧
        fs_trace (fs w')
          = lookup_calls "/d/a.txt" ++ fs_trace (fs Scenario.cached_hash_world).
Proof.
  destruct (cached_hash_is_served_without_reading Scenario.cached_hash_world
              "/d/a.txt" 5 (Qc_of_Z 10) "0123abcd") as (w' & Hg & Ht & _).
  - reflexivity.
  - reflexivity.
  - vm_compute. reflexivity.
  - discriminate.
  - by exists w'.
Defined.

(** X28: [a.txt] hashed twice. *)
Lemma second_hash_demo :
  ∃ h w1 w2,
    get_file_hash "/d/a.txt" (Demo.world NoFile) = (Ok h, w1) ∧
    String.length h = 64 ∧
    get_file_hash "/d/a.txt" w1 = (Ok h, w2) ∧
    fs_trace (fs w2) = lookup_calls "/d/a.txt" ++ fs_trace (fs w1).
Proof.
  apply (second_hash_comes_from_the_cache (Demo.world NoFile) "/d/a.txt" 5 (Qc_of_Z 10)).
  - reflexivity.
  - reflexivity.
  - reflexivity.
  - reflexivity.
  - vm_compute. discriminate.
  - vm_compute. reflexivity.
  - exists 100%Z, (Demo.new_cache 100), []. by split.
Defined.

(** X29: the sampling hash of the 33 bytes of [c.txt]. *)
Lemma sampling_demo :
  ∃ file_hash,
    sampling_reads (handle_of (Demo.world NoFile) "/d/c.txt") 33 = Ok file_hash ∧
    (Z.of_nat (length file_hash) ≤ sampling_budget)%Z.
Proof.
  destruct (sampling_reads (handle_of (Demo.world NoFile) "/d/c.txt") 33)
    as [file_hash|e] eqn:Hs.
  - exists file_hash. split; [reflexivity|].
    exact (proj1 (sampling_hash_reads_a_bounded_part _ 33 file_hash Hs)).
  - vm_compute in Hs. discriminate Hs.
Defined.
